(** * idasync: one-way directory synchronisation (src/index.js)

    A shallow embedding of the [IdaSync] class and the properties of its
    pattern matcher, change detector, tree walker and orchestrator.

    Conventions of the model.
    - A JavaScript string is a [list ascii]: one [ascii] per code unit, so
      the alphabet is U+0000..U+00FF.  [str] turns a Rocq literal into one.
    - [path] is Node's POSIX flavour ([path.sep] is the forward slash).
    - A promise that rejects and a [throw] are both the [Err] outcome of
      [result]; [await] is sequencing in the state monad [M]. *)

From Stdlib Require Import ZArith List Ascii String Lia Bool.
From stdpp Require Import base decidable option list strings gmap sorting.

Set Default Proof Using "Type".

Abbreviation jsstring := (list ascii).
Definition str (s : string) : jsstring := list_ascii_of_string s.

(** ** Exceptions and results *)

Inductive errno :=
  ENOENT | ENOTDIR | EISDIR | EEXIST | EACCES | ENOTEMPTY | EPERM | EINVAL.

Inductive exn :=
| FsError (code : errno)          (* a rejected fs promise; [error.code] *)
| SourceMissing (source : list jsstring)
                                  (* Error("Source directory does not exist: ...") *)
| RegExpSyntaxError               (* SyntaxError raised by [new RegExp] *)
| RegExpUnmodelled.               (* RegExp syntax outside the modelled fragment *)

Inductive result (A : Type) :=
| Ok (a : A)
| Err (e : exn).
Arguments Ok {A} a.
Arguments Err {A} e.

Global Instance errno_eq_dec : EqDecision errno.
Proof. solve_decision. Defined.
Global Instance exn_eq_dec : EqDecision exn.
Proof. solve_decision. Defined.

Global Instance result_ret : MRet result := @Ok.
Global Instance result_bind : MBind result := fun A B f r =>
  match r with Ok a => f a | Err e => Err e end.
Global Instance result_fmap : FMap result := fun A B f r =>
  match r with Ok a => Ok (f a) | Err e => Err e end.

(** ** String primitives *)

Module JS.

Definition chr (n : nat) : ascii := ascii_of_nat n.

Definition backslash : ascii := Eval cbv in chr 92.
Definition slash : ascii := Eval cbv in chr 47.
Definition dot : ascii := Eval cbv in chr 46.
Definition star : ascii := Eval cbv in chr 42.
Definition question : ascii := Eval cbv in chr 63.
Definition caret : ascii := Eval cbv in chr 94.
Definition dollar : ascii := Eval cbv in chr 36.
Definition plus : ascii := Eval cbv in chr 43.
Definition bar : ascii := Eval cbv in chr 124.
Definition lparen : ascii := Eval cbv in chr 40.
Definition rparen : ascii := Eval cbv in chr 41.
Definition lbracket : ascii := Eval cbv in chr 91.
Definition rbracket : ascii := Eval cbv in chr 93.
Definition lbrace : ascii := Eval cbv in chr 123.
Definition rbrace : ascii := Eval cbv in chr 125.
Definition minus : ascii := Eval cbv in chr 45.
Definition comma : ascii := Eval cbv in chr 44.

(** [s.replace(/c/g, by)] for a one-character regular expression. *)
Definition replaceAll (c : ascii) (by_ : jsstring) (s : jsstring) : jsstring :=
  flat_map (fun x => if Ascii.eqb x c then by_ else [x]) s.

(** [s.includes(c)] for a one-character needle. *)
Definition includes (c : ascii) (s : jsstring) : bool :=
  existsb (Ascii.eqb c) s.

Fixpoint span (p : ascii -> bool) (s : jsstring) : jsstring * jsstring :=
  match s with
  | [] => ([], [])
  | c :: s' => if p c then let (a, b) := span p s' in (c :: a, b) else ([], s)
  end.

(** [path.basename(p)] of Node's posix implementation: trailing slashes
    are skipped, then the run of characters back to the previous slash
    is returned. *)
Definition basename (p : jsstring) : jsstring :=
  let r := (span (Ascii.eqb slash) (rev p)).2 in
  rev (span (fun c => negb (Ascii.eqb slash c)) r).1.

End JS.

(** ** Regular expressions

    [new RegExp(source, 'i')] and [RegExp.prototype.test] as ECMA-262
    defines them (with the Annex B grammar, no [u] flag), for the syntax
    that can occur in a translated pattern: the translation removes every
    question mark and leaves a backslash only in front of a dot, so lazy
    quantifiers, [(?...)] groups and the other escapes cannot occur; they
    are reported as [RegExpUnmodelled]. *)

Module RegExp.
Import JS.

Inductive citem :=
| CChar (c : ascii)
| CRange (lo hi : ascii).

Inductive re :=
| Eps
| Chr (c : ascii)
| AnyChar
| Cls (neg : bool) (items : list citem)
| Bol
| Eol
| Cat (r1 r2 : re)
| Alt (r1 r2 : re)
| Rep (min : nat) (max : option nat) (r : re)
| Grp (r : re).

Inductive token :=
| TChar (c : ascii)
| TAny
| TClass (neg : bool) (items : list citem)
| TQuant (min : nat) (max : option nat)
| TBol
| TEol
| TBar
| TOpen
| TClose.

(** *** Lexer *)

Definition is_digit (c : ascii) : bool :=
  (48 <=? nat_of_ascii c) && (nat_of_ascii c <=? 57).

Definition digits_value (ds : jsstring) : nat :=
  fold_left (fun acc d => 10 * acc + (nat_of_ascii d - 48)) ds 0.

(** The text after an opening brace: [n}], [n,}] or [n,m}].  Returns the
    bounds and the number of characters read, or [None] when the brace
    does not start a quantifier (it is then an ordinary character). *)
Definition lex_brace (s : jsstring) : option (nat * option nat * nat) :=
  let (d1, r1) := span is_digit s in
  match d1, r1 with
  | [], _ => None
  | _, c :: r2 =>
      if Ascii.eqb c rbrace then
        Some (digits_value d1, Some (digits_value d1), S (length d1))
      else if Ascii.eqb c comma then
        let (d2, r3) := span is_digit r2 in
        match r3 with
        | c' :: _ =>
            if Ascii.eqb c' rbrace then
              Some (digits_value d1,
                    match d2 with [] => None | _ => Some (digits_value d2) end,
                    S (S (length d1 + length d2)))
            else None
        | [] => None
        end
      else None
  | _, [] => None
  end.

(** One class atom [a] arrives while [pend] is the previous atom, not yet
    committed, and [dash] tells whether a dash followed it.  [None] is the
    "range out of order" syntax error. *)
Definition class_atom (a : ascii) (acc : list citem) (pend : option ascii)
    (dash : bool) : option (list citem * option ascii * bool) :=
  match pend with
  | None => Some (acc, Some a, false)
  | Some p =>
      if dash then
        if nat_of_ascii p <=? nat_of_ascii a
        then Some (CRange p a :: acc, None, false)
        else None
      else Some (CChar p :: acc, Some a, false)
  end.

Definition class_finish (acc : list citem) (pend : option ascii) (dash : bool)
    : list citem :=
  rev match pend with
      | None => acc
      | Some p => if dash then CChar minus :: CChar p :: acc else CChar p :: acc
      end.

(** The body of a character class, after the bracket and the optional
    caret.  [n] counts the characters read so far. *)
Fixpoint lex_class_body (s : jsstring) (n : nat) (acc : list citem)
    (pend : option ascii) (dash esc : bool) : result (list citem * nat) :=
  match s with
  | [] => Err RegExpSyntaxError
  | c :: s' =>
      if esc then
        if Ascii.eqb c dot then
          match class_atom dot acc pend dash with
          | Some (acc', pend', dash') => lex_class_body s' (S n) acc' pend' dash' false
          | None => Err RegExpSyntaxError
          end
        else Err RegExpUnmodelled
      else if Ascii.eqb c backslash then lex_class_body s' (S n) acc pend dash true
      else if Ascii.eqb c rbracket then Ok (class_finish acc pend dash, S n)
      else if Ascii.eqb c minus && bool_decide (is_Some pend) && negb dash then
        lex_class_body s' (S n) acc pend true false
      else
        match class_atom c acc pend dash with
        | Some (acc', pend', dash') => lex_class_body s' (S n) acc' pend' dash' false
        | None => Err RegExpSyntaxError
        end
  end.

Definition lex_class (s : jsstring) : result (bool * list citem * nat) :=
  match s with
  | c :: s' =>
      if Ascii.eqb c caret then
        '(items, n) ← lex_class_body s' 1 [] None false false; Ok (true, items, n)
      else
        '(items, n) ← lex_class_body s 0 [] None false false; Ok (false, items, n)
  | [] => Err RegExpSyntaxError
  end.

Definition simple_token (c : ascii) : token :=
  if Ascii.eqb c caret then TBol
  else if Ascii.eqb c dollar then TEol
  else if Ascii.eqb c bar then TBar
  else if Ascii.eqb c lparen then TOpen
  else if Ascii.eqb c rparen then TClose
  else if Ascii.eqb c star then TQuant 0 None
  else if Ascii.eqb c plus then TQuant 1 None
  else if Ascii.eqb c dot then TAny
  else TChar c.

(** [skip] characters belong to the token just produced. *)
Fixpoint lex (skip : nat) (s : jsstring) : result (list token) :=
  match s with
  | [] => Ok []
  | c :: rest =>
      match skip with
      | S k => lex k rest
      | O =>
          if Ascii.eqb c backslash then
            match rest with
            | d :: _ => if Ascii.eqb d dot then cons (TChar dot) <$> lex 1 rest
                        else Err RegExpUnmodelled
            | [] => Err RegExpSyntaxError
            end
          else if Ascii.eqb c question then Err RegExpUnmodelled
          else if Ascii.eqb c lbracket then
            '(neg, items, n) ← lex_class rest;
            cons (TClass neg items) <$> lex n rest
          else if Ascii.eqb c lbrace then
            match lex_brace rest with
            | Some (mn, mx, n) =>
                if match mx with Some m => m <? mn | None => false end
                then Err RegExpSyntaxError
                else cons (TQuant mn mx) <$> lex n rest
            | None => cons (TChar c) <$> lex 0 rest
            end
          else cons (simple_token c) <$> lex 0 rest
      end
  end.

(** *** Parser: a stack of the enclosing groups, the alternatives and the
    sequence read so far in the current group, and the last atom, which a
    quantifier may still follow. *)

Definition snoc_term (seq : re) (last : option re) : re :=
  match last with None => seq | Some a => Cat seq a end.

Definition close_alt (alts : option re) (seq : re) : re :=
  match alts with None => seq | Some a => Alt a seq end.

Fixpoint parse (ts : list token) (stack : list (option re * re))
    (alts : option re) (seq : re) (last : option re) : result re :=
  match ts with
  | [] =>
      match stack with
      | [] => Ok (close_alt alts (snoc_term seq last))
      | _ :: _ => Err RegExpSyntaxError
      end
  | t :: ts' =>
      match t with
      | TChar c => parse ts' stack alts (snoc_term seq last) (Some (Chr c))
      | TAny => parse ts' stack alts (snoc_term seq last) (Some AnyChar)
      | TClass neg items =>
          parse ts' stack alts (snoc_term seq last) (Some (Cls neg items))
      | TQuant mn mx =>
          match last with
          | Some a => parse ts' stack alts (Cat seq (Rep mn mx a)) None
          | None => Err RegExpSyntaxError
          end
      | TBol => parse ts' stack alts (Cat (snoc_term seq last) Bol) None
      | TEol => parse ts' stack alts (Cat (snoc_term seq last) Eol) None
      | TBar =>
          parse ts' stack (Some (close_alt alts (snoc_term seq last))) Eps None
      | TOpen => parse ts' ((alts, snoc_term seq last) :: stack) None Eps None
      | TClose =>
          match stack with
          | [] => Err RegExpSyntaxError
          | (alts0, seq0) :: stack' =>
              parse ts' stack' alts0 seq0
                (Some (Grp (close_alt alts (snoc_term seq last))))
          end
      end
  end.

(** [new RegExp(source, 'i')] *)
Definition new (source : jsstring) : result re :=
  ts ← lex 0 source; parse ts [] None Eps None.

(** *** Matcher, in the continuation-passing style of ECMA-262 22.2.2 *)

(** Canonicalize(ch) with IgnoreCase and without Unicode: the upper-case
    mapping when it is a single code unit (and does not send a non-ASCII
    character to an ASCII one). *)
Definition canonicalize (c : ascii) : N :=
  let n := N_of_ascii c in
  if ((97 <=? n) && (n <=? 122))%N then (n - 32)%N
  else if ((224 <=? n) && (n <=? 254) && negb (n =? 247))%N then (n - 32)%N
  else if (n =? 255)%N then 376%N
  else if (n =? 181)%N then 924%N
  else n.

Definition same_char (a ch : ascii) : bool :=
  (canonicalize a =? canonicalize ch)%N.

Definition item_match (ch : ascii) (i : citem) : bool :=
  match i with
  | CChar a => same_char a ch
  | CRange lo hi =>
      existsb (fun n => same_char (ascii_of_nat n) ch)
              (seq (nat_of_ascii lo) (S (nat_of_ascii hi - nat_of_ascii lo)))
  end.

Definition line_terminator (ch : ascii) : bool :=
  (nat_of_ascii ch =? 10) || (nat_of_ascii ch =? 13).

(** A match state: the end index and the input that is left. *)
Definition state := (nat * jsstring)%type.
Definition cont := state -> bool.
Definition matcher := state -> cont -> bool.

Definition char_matcher (p : ascii -> bool) : matcher := fun x c =>
  match x.2 with
  | [] => false
  | ch :: s' => p ch && c (S x.1, s')
  end.

(** RepeatMatcher(m, min, max, greedy = true, x, c).  An iteration that
    consumes nothing once [min] is reached is a failure, so [min] plus the
    length of the input left bounds the number of iterations. *)
Fixpoint repeat_matcher (m : matcher) (fuel min : nat) (max : option nat)
    (x : state) (c : cont) : bool :=
  match fuel with
  | O => c x
  | S fuel' =>
      if bool_decide (max = Some 0) then c x
      else
        let d : cont := fun y =>
          if (min =? 0) && (y.1 =? x.1) then false
          else repeat_matcher m fuel' (pred min) (pred <$> max) y c in
        if min =? 0 then m x d || c x else m x d
  end.

Fixpoint compile (r : re) : matcher :=
  match r with
  | Eps => fun x c => c x
  | Chr a => char_matcher (same_char a)
  | AnyChar => char_matcher (fun ch => negb (line_terminator ch))
  | Cls neg items => char_matcher (fun ch => xorb neg (existsb (item_match ch) items))
  | Bol => fun x c => (x.1 =? 0) && c x
  | Eol => fun x c => match x.2 with [] => c x | _ :: _ => false end
  | Cat r1 r2 => fun x c => compile r1 x (fun y => compile r2 y c)
  | Alt r1 r2 => fun x c => compile r1 x c || compile r2 x c
  | Rep mn mx r' => fun x c =>
      repeat_matcher (compile r') (S (mn + length x.2)) mn mx x c
  | Grp r' => compile r'
  end.

(** [regex.test(s)] without the [g] flag: a match may start at any index. *)
Fixpoint search (m : matcher) (e : nat) (s : jsstring) : bool :=
  m (e, s) (fun _ => true)
  || match s with [] => false | _ :: s' => search m (S e) s' end.

Definition test (r : re) (s : jsstring) : bool := search (compile r) 0 s.

End RegExp.

(** ** The pattern matcher *)

Module Pattern.
Import JS.

(** The four chained [replace] calls of [matchesPattern]. *)
Definition regexPattern (pattern : jsstring) : jsstring :=
  replaceAll question (str "[^/]")
    (replaceAll star (str "[^/]*")
      (replaceAll dot [backslash; dot]
        (replaceAll backslash [slash] pattern))).

Definition regexSource (pattern : jsstring) : jsstring :=
  caret :: regexPattern pattern ++ [dollar].

(** The callback of [patterns.some]. *)
Definition matchesOne (fileName normalizedPath pattern : jsstring) : result bool :=
  regex ← RegExp.new (regexSource pattern);
  if includes slash pattern
  then Ok (RegExp.test regex normalizedPath)
  else Ok (RegExp.test regex fileName).

(** [Array.prototype.some]: stops at the first [true]; an exception of
    the callback propagates. *)
Fixpoint some {A} (f : A -> result bool) (l : list A) : result bool :=
  match l with
  | [] => Ok false
  | x :: l' => b ← f x; if b : bool then Ok true else some f l'
  end.

(** [matchesPattern(filePath, patterns)]; [None] is an absent
    (undefined or null) pattern list. *)
Definition matchesPattern (filePath : jsstring) (patterns : option (list jsstring))
    : result bool :=
  match patterns with
  | None => Ok false
  | Some [] => Ok false
  | Some ps =>
      let fileName := basename filePath in
      let normalizedPath := replaceAll backslash [slash] filePath in
      some (matchesOne fileName normalizedPath) ps
  end.

End Pattern.

(** ** The matching rule in the words of the specification (section 4.2)

    Written from the specification, not from the code, to be compared
    with [matchesPattern]. *)

Module GlobSpec.
Import JS.

(** Rule 1: forward-slash separators. *)
Definition normalize (s : jsstring) : jsstring := replaceAll backslash [slash] s.

(** The final path segment: what follows the last separator. *)
Definition final_segment (s : jsstring) : jsstring :=
  rev (span (fun c => negb (Ascii.eqb slash c)) (rev s)).1.

(** Rules 2, 4 and 5: [glob p s] when the whole of [s] matches [p]. *)
Inductive glob : jsstring -> jsstring -> Prop :=
| glob_nil : glob [] []
| glob_star p s t :
    Forall (fun c => c <> slash) s -> glob p t -> glob (star :: p) (s ++ t)
| glob_question p c t :
    c <> slash -> glob p t -> glob (question :: p) (c :: t)
| glob_literal a c p t :
    a <> star -> a <> question -> RegExp.same_char a c = true ->
    glob p t -> glob (a :: p) (c :: t).

(** Rule 3: full path or final segment. *)
Definition pattern_matches (relPath pattern : jsstring) : Prop :=
  let p := normalize pattern in
  let f := normalize relPath in
  if includes slash p then glob p f else glob p (final_segment f).

(** Logical or over the list; an empty or absent list matches nothing. *)
Definition matches (relPath : jsstring) (patterns : option (list jsstring)) : Prop :=
  exists ps p, patterns = Some ps /\ p ∈ ps /\ pattern_matches relPath p.

End GlobSpec.

(** ** The file system

    A tree of directories, regular files and other entries (sockets,
    devices, ...).  Times are [getTime()] values, in milliseconds.  An
    absolute path is the list of names below the root; directory entries
    have names without a separator, as every POSIX file system has.  A
    directory that is not [listable] refuses [readdir] with EACCES.
    The tree has no links.  Reading ([stat], [readdir], the read of
    [copyFile]) leaves every access time where it is, as a file system
    mounted [noatime] does; on other mounts the access time of what was
    read may move, and the properties of copied files are stated of
    their bytes and modification times. *)

Module FS.

Definition name := jsstring.
Definition path := list name.

Record times := Times { mtime : Z; atime : Z }.

#[warnings="-register-all"]
Inductive node :=
| File (t : times) (data : list Byte.byte)
| Dir (t : times) (listable : bool) (entries : gmap name node)
| Other (t : times).

Inductive kind := KFile | KDir | KOther.

Global Instance kind_eq_dec : EqDecision kind.
Proof. solve_decision. Defined.

(** What [fs.stat] resolves to. *)
Record stats := Stats {
  st_kind : kind;
  st_mtime : Z;
  st_atime : Z;
  st_size : Z
}.

Definition node_kind (n : node) : kind :=
  match n with File _ _ => KFile | Dir _ _ _ => KDir | Other _ => KOther end.

Definition node_times (n : node) : times :=
  match n with File t _ => t | Dir t _ _ => t | Other t => t end.

(** The size of a directory is the file system's business (one block
    here); the engine reads it only where a directory stands in the place
    of a file. *)
Definition node_size (n : node) : Z :=
  match n with
  | File _ d => Z.of_nat (length d)
  | Dir _ _ _ => 4096
  | Other _ => 0
  end.

Definition stats_of (n : node) : stats :=
  Stats (node_kind n) (mtime (node_times n)) (atime (node_times n)) (node_size n).

Definition set_times (t : times) (n : node) : node :=
  match n with
  | File _ d => File t d
  | Dir _ l es => Dir t l es
  | Other _ => Other t
  end.

Definition modified (now : Z) (t : times) : times := Times now (atime t).

Definition empty_dir (now : Z) : node := Dir (Times now now) true ∅.

(** Path resolution. *)
Fixpoint resolve (p : path) (n : node) : result node :=
  match p with
  | [] => Ok n
  | x :: p' =>
      match n with
      | Dir _ _ es =>
          match es !! x with
          | Some c => resolve p' c
          | None => Err (FsError ENOENT)
          end
      | _ => Err (FsError ENOTDIR)
      end
  end.

(** Replace the node at [p], or create it in an existing directory. *)
Fixpoint put (now : Z) (p : path) (new : node) (n : node) : result node :=
  match p with
  | [] => Ok new
  | x :: p' =>
      match n with
      | Dir t l es =>
          match es !! x with
          | Some c => c' ← put now p' new c; Ok (Dir t l (<[x:=c']> es))
          | None =>
              match p' with
              | [] => Ok (Dir (modified now t) l (<[x:=new]> es))
              | _ :: _ => Err (FsError ENOENT)
              end
          end
      | _ => Err (FsError ENOTDIR)
      end
  end.

(** Remove the entry at [p] from its directory. *)
Fixpoint remove (now : Z) (p : path) (n : node) : result node :=
  match p with
  | [] => Err (FsError EPERM)
  | x :: p' =>
      match n with
      | Dir t l es =>
          match es !! x with
          | Some c =>
              match p' with
              | [] => Ok (Dir (modified now t) l (delete x es))
              | _ :: _ => c' ← remove now p' c; Ok (Dir t l (<[x:=c']> es))
              end
          | None => Err (FsError ENOENT)
          end
      | _ => Err (FsError ENOTDIR)
      end
  end.

(** [mkdir(p, {recursive: true})] *)
Fixpoint mkdirp (now : Z) (p : path) (n : node) : result node :=
  match n with
  | Dir t l es =>
      match p with
      | [] => Ok n
      | x :: p' =>
          match es !! x with
          | Some c => c' ← mkdirp now p' c; Ok (Dir t l (<[x:=c']> es))
          | None =>
              c' ← mkdirp now p' (empty_dir now);
              Ok (Dir (modified now t) l (<[x:=c']> es))
          end
      end
  | _ => Err (FsError match p with [] => EEXIST | _ :: _ => ENOTDIR end)
  end.

Definition read_file (p : path) (n : node) : result (list Byte.byte) :=
  c ← resolve p n;
  match c with
  | File _ d => Ok d
  | Dir _ _ _ => Err (FsError EISDIR)
  | Other _ => Err (FsError EINVAL)
  end.

(** Writing [d] to [p], as the copy does: an existing regular file is
    overwritten, a missing one is created. *)
Definition write_file (now : Z) (p : path) (d : list Byte.byte) (n : node)
    : result node :=
  match resolve p n with
  | Ok (File t _) => put now p (File (modified now t) d) n
  | Ok (Dir _ _ _) => Err (FsError EISDIR)
  | Ok (Other _) => Err (FsError EINVAL)
  | Err (FsError ENOENT) => put now p (File (Times now now) d) n
  | Err e => Err e
  end.

(** [fs.copyFile(src, dst)]; the read leaves the access time of [src]
    alone (see above). *)
Definition copy_file (now : Z) (src dst : path) (n : node) : result node :=
  d ← read_file src n; write_file now dst d n.

Definition set_utimes (now : Z) (p : path) (a m : Z) (n : node) : result node :=
  c ← resolve p n; put now p (set_times (Times m a) c) n.

Definition unlink_file (now : Z) (p : path) (n : node) : result node :=
  c ← resolve p n;
  match c with
  | Dir _ _ _ => Err (FsError EISDIR)
  | _ => remove now p n
  end.

Definition remove_dir (now : Z) (p : path) (n : node) : result node :=
  c ← resolve p n;
  match c with
  | Dir _ _ es => if bool_decide (es = ∅) then remove now p n
                  else Err (FsError ENOTEMPTY)
  | _ => Err (FsError ENOTDIR)
  end.

(** [fs.readdir(p, {withFileTypes: true})]: names and kinds. *)
Definition list_dir (p : path) (n : node) : result (list (name * kind)) :=
  c ← resolve p n;
  match c with
  | Dir _ true es => Ok (prod_map id node_kind <$> map_to_list es)
  | Dir _ false _ => Err (FsError EACCES)
  | _ => Err (FsError ENOTDIR)
  end.

End FS.

(** ** The world and the monad of asynchronous code

    The world is the file system, the clock, the list of [fs] calls made
    so far and the lines written to the console.  A computation returns
    its outcome and the world it leaves, also when it fails. *)

Module IO.
Import FS.

Inductive call :=
| Access (p : path)
| Stat (p : path)
| Readdir (p : path)
| Mkdir (p : path)
| CopyFile (src dst : path)
| Utimes (p : path) (a m : Z)
| Unlink (p : path)
| Rmdir (p : path).

(** The lines of [log], before formatting. *)
Inductive message :=
| Syncing (source destination : path)
| SkippingCopy (relativeFile : path)
| Copied (relativeFile : path)
| SkippingDelete (relativeFile : path)
| Deleted (relativeFile : path)
| RemovedEmptyDirectory (relativeDir : path)
| SyncComplete (copied deleted skipped : nat).

Record world := World {
  root : node;
  clock : Z;
  trace : list call;
  console : list message
}.

Definition M (A : Type) : Type := world -> result A * world.

Global Instance M_ret : MRet M := fun A a w => (Ok a, w).
Global Instance M_bind : MBind M := fun A B f m w =>
  match m w with
  | (Ok a, w') => f a w'
  | (Err e, w') => (Err e, w')
  end.

Definition throw {A} (e : exn) : M A := fun w => (Err e, w).

(** [try { m } catch (error) { h error }] *)
Definition try_catch {A} (m : M A) (h : exn -> M A) : M A := fun w =>
  match m w with
  | (Ok a, w') => (Ok a, w')
  | (Err e, w') => h e w'
  end.

(** A synchronous computation that may throw. *)
Definition lift {A} (r : result A) : M A := fun w => (r, w).

(** [Promise.all([a, b])]: both computations are started; the promise
    rejects when one of them does. *)
Definition promise_all2 {A B} (a : M A) (b : M B) : M (A * B) := fun w =>
  let (ra, w1) := a w in
  let (rb, w2) := b w1 in
  (match ra, rb with
   | Ok x, Ok y => Ok (x, y)
   | Err e, _ => Err e
   | Ok _, Err e => Err e
   end, w2).

Definition called (c : call) (w : world) : world :=
  World (root w) (clock w) (trace w ++ [c]) (console w).

(** A call that reads the file system. *)
Definition reading {A} (c : call) (f : node -> result A) : M A := fun w =>
  (f (root w), called c w).

(** A call that changes it; the clock moves on. *)
Definition writing (c : call) (f : Z -> node -> result node) : M unit := fun w =>
  match f (clock w) (root w) with
  | Ok r => (Ok tt, World r (clock w + 1) (trace w ++ [c]) (console w))
  | Err e => (Err e, called c w)
  end.

Definition fs_access (p : path) : M unit :=
  reading (Access p) (fun n => _ ← resolve p n; Ok tt).
Definition fs_stat (p : path) : M stats :=
  reading (Stat p) (fun n => stats_of <$> resolve p n).
Definition fs_readdir_types (p : path) : M (list (name * kind)) :=
  reading (Readdir p) (list_dir p).
Definition fs_readdir (p : path) : M (list name) :=
  reading (Readdir p) (fun n => es ← list_dir p n; Ok (es.*1)).
Definition fs_mkdir_recursive (p : path) : M unit :=
  writing (Mkdir p) (fun now => mkdirp now p).
Definition fs_copyFile (src dst : path) : M unit :=
  writing (CopyFile src dst) (fun now => copy_file now src dst).
Definition fs_utimes (p : path) (a m : Z) : M unit :=
  writing (Utimes p a m) (fun now => set_utimes now p a m).
Definition fs_unlink (p : path) : M unit :=
  writing (Unlink p) (fun now => unlink_file now p).
Definition fs_rmdir (p : path) : M unit :=
  writing (Rmdir p) (fun now => remove_dir now p).

Definition console_log (m : message) : M unit := fun w =>
  (Ok tt, World (root w) (clock w) (trace w) (console w ++ [m])).

(** [for (const x of l) body], with the loop's variables as [s]. *)
Fixpoint for_of {A S} (l : list A) (body : A -> S -> M S) (s : S) : M S :=
  match l with
  | [] => mret s
  | x :: l' => s' ← body x s; for_of l' body s'
  end.

End IO.

(** ** The engine: class [IdaSync] *)

Module Engine.
Import JS FS IO Pattern.

Record options := Options {
  opt_copyExclusions : option (list jsstring);
  opt_deleteExclusions : option (list jsstring);
  opt_verbose : option bool
}.

Record IdaSync := Build {
  copyExclusions : list jsstring;
  deleteExclusions : list jsstring;
  verbose : bool
}.

(** [constructor(options = {})] *)
Definition constructor (o : options) : IdaSync :=
  Build (default [] (opt_copyExclusions o))
        (default [] (opt_deleteExclusions o))
        (default false (opt_verbose o)).

Record SyncResult := Result { copied : nat; deleted : nat; skipped : nat }.

(** A root-relative path is kept as its segments; [rel_string] is the
    string that [path.relative] returns and [path.join] takes back. *)
Fixpoint rel_string (rel : path) : jsstring :=
  match rel with
  | [] => []
  | [x] => x
  | x :: rel' => x ++ slash :: rel_string rel'
  end.

(** [path.relative(basePath, fullPath)] for a [fullPath] below [basePath]. *)
Definition path_relative (basePath fullPath : path) : path :=
  drop (length basePath) fullPath.

(** [path.dirname] *)
Definition dirname (p : path) : path := removelast p.

Definition log (self : IdaSync) (m : message) : M unit :=
  if verbose self then console_log m else mret tt.

(** *** Tree walker

    The walk of the tree below a directory node, with the [readdir] calls
    it makes.  [dirPath] is the absolute path of the node and [rel] its
    path relative to the root of the walk.  The entries of a directory are
    visited in the order [readdir] lists them; the first error ends the
    walk. *)

Definition walk_result : Type := result (list path) * list call.

Fixpoint walk_files (n : node) (dirPath rel : path) : walk_result :=
  match n with
  | Dir _ true es =>
      let rest := map_fold (fun x c (acc : walk_result) =>
        match c with
        | Dir _ _ _ =>
            let r := walk_files c (dirPath ++ [x]) (rel ++ [x]) in
            match r.1 with
            | Ok subFiles => (app subFiles <$> acc.1, r.2 ++ acc.2)
            | Err e => (Err e, r.2)
            end
        | File _ _ => (cons (rel ++ [x]) <$> acc.1, acc.2)
        | Other _ => acc
        end) (Ok [], []) es in
      (rest.1, Readdir dirPath :: rest.2)
  | Dir _ false _ => (Err (FsError EACCES), [Readdir dirPath])
  | _ => (Err (FsError ENOTDIR), [Readdir dirPath])
  end.

Fixpoint walk_dirs (n : node) (dirPath rel : path) : walk_result :=
  match n with
  | Dir _ true es =>
      let rest := map_fold (fun x c (acc : walk_result) =>
        match c with
        | Dir _ _ _ =>
            let r := walk_dirs c (dirPath ++ [x]) (rel ++ [x]) in
            match r.1 with
            | Ok subDirectories =>
                (app ((rel ++ [x]) :: subDirectories) <$> acc.1, r.2 ++ acc.2)
            | Err e => (Err e, r.2)
            end
        | _ => acc
        end) (Ok [], []) es in
      (rest.1, Readdir dirPath :: rest.2)
  | Dir _ false _ => (Err (FsError EACCES), [Readdir dirPath])
  | _ => (Err (FsError ENOTDIR), [Readdir dirPath])
  end.

(** The [try]/[catch] around the walk: ENOENT, which only the [readdir]
    of [dirPath] itself can raise, gives the empty list. *)
Definition walking (walk : node -> path -> path -> walk_result)
    (dirPath basePath : path) : M (list path) := fun w =>
  match resolve dirPath (root w) with
  | Ok n =>
      let r := walk n dirPath (path_relative basePath dirPath) in
      (r.1, World (root w) (clock w) (trace w ++ r.2) (console w))
  | Err (FsError ENOENT) => (Ok [], called (Readdir dirPath) w)
  | Err e => (Err e, called (Readdir dirPath) w)
  end.

Definition getFilesRecursively (dirPath basePath : path) : M (list path) :=
  walking walk_files dirPath basePath.

Definition getDirectoriesRecursively (dirPath basePath : path) : M (list path) :=
  walking walk_dirs dirPath basePath.

(** *** Change detector *)

Definition filesAreDifferent (sourcePath destPath : path) : M bool :=
  try_catch
    ('(sourceStat, destStat) ← promise_all2 (fs_stat sourcePath) (fs_stat destPath);
     mret (negb (st_mtime sourceStat =? st_mtime destStat)%Z
           || negb (st_size sourceStat =? st_size destStat)%Z))
    (fun _ => mret true).

Definition copyFile (sourcePath destPath : path) : M unit :=
  let destDir := dirname destPath in
  fs_mkdir_recursive destDir;;
  fs_copyFile sourcePath destPath;;
  sourceStat ← fs_stat sourcePath;
  fs_utimes destPath (st_atime sourceStat) (st_mtime sourceStat).

(** *** Empty-directory cleanup *)

(** [a.split(path.sep).length] *)
Definition split_length (a : jsstring) : nat :=
  S (length (filter (fun c => c = slash) a)).

(** The comparator of the sort: negative when [a] goes first. *)
Definition by_depth (a b : path) : Z :=
  Z.of_nat (split_length (rel_string b)) - Z.of_nat (split_length (rel_string a)).

(** [Array.prototype.sort] is stable. *)
Fixpoint sort_insert (cmp : path -> path -> Z) (a : path) (l : list path) : list path :=
  match l with
  | [] => [a]
  | b :: l' => if (cmp a b <=? 0)%Z then a :: l else b :: sort_insert cmp a l'
  end.

Definition sort (cmp : path -> path -> Z) (l : list path) : list path :=
  foldr (sort_insert cmp) [] l.

(** The body of the loop over the sorted directories. *)
Definition cleanupDirectory (self : IdaSync) (destAbs sourceAbs relativeDir : path)
    : M unit :=
  let destDirPath := destAbs ++ relativeDir in
  let sourceDirPath := sourceAbs ++ relativeDir in
  try_catch (fs_access sourceDirPath)
    (fun _ =>
       try_catch
         (entries ← fs_readdir destDirPath;
          if length entries =? 0
          then fs_rmdir destDirPath;; log self (RemovedEmptyDirectory relativeDir)
          else mret tt)
         (fun _ => mret tt)).

Definition cleanupEmptyDirectories (self : IdaSync) (destAbs sourceAbs : path)
    : M unit :=
  destDirs ← getDirectoriesRecursively destAbs destAbs;
  let destDirs := sort by_depth destDirs in
  for_of destDirs (fun relativeDir _ =>
    cleanupDirectory self destAbs sourceAbs relativeDir) tt.

(** *** Orchestrator *)

(** The body of the copy loop; the loop variables are [copiedCount] and
    [skippedCount]. *)
Definition copyStep (self : IdaSync) (sourceAbs destAbs relativeFile : path)
    (counts : nat * nat) : M (nat * nat) :=
  let '(copiedCount, skippedCount) := counts in
  let sourcePath := sourceAbs ++ relativeFile in
  let destPath := destAbs ++ relativeFile in
  excluded ← lift (matchesPattern (rel_string relativeFile) (Some (copyExclusions self)));
  if excluded : bool then
    log self (SkippingCopy relativeFile);;
    mret (copiedCount, S skippedCount)
  else
    different ← filesAreDifferent sourcePath destPath;
    if different : bool then
      copyFile sourcePath destPath;;
      log self (Copied relativeFile);;
      mret (S copiedCount, skippedCount)
    else mret (copiedCount, skippedCount).

(** The body of the delete loop; the loop variable is [deletedCount]. *)
Definition deleteStep (self : IdaSync) (destAbs : path) (sourceFileSet : gset path)
    (relativeFile : path) (deletedCount : nat) : M nat :=
  if bool_decide (relativeFile ∈ sourceFileSet) then mret deletedCount
  else
    excluded ← lift (matchesPattern (rel_string relativeFile)
                                    (Some (deleteExclusions self)));
    if excluded : bool then
      log self (SkippingDelete relativeFile);;
      mret deletedCount
    else
      let destPath := destAbs ++ relativeFile in
      fs_unlink destPath;;
      log self (Deleted relativeFile);;
      mret (S deletedCount).

(** [sync(source, destination)], for resolved paths. *)
Definition sync (self : IdaSync) (source destination : path) : M SyncResult :=
  let sourceAbs := source in
  let destAbs := destination in
  log self (Syncing sourceAbs destAbs);;
  try_catch (fs_access sourceAbs) (fun _ => throw (SourceMissing sourceAbs));;
  fs_mkdir_recursive destAbs;;
  '(sourceFiles, destFiles) ←
    promise_all2 (getFilesRecursively sourceAbs sourceAbs)
                 (getFilesRecursively destAbs destAbs);
  '(copiedCount, skippedCount) ←
    for_of sourceFiles (copyStep self sourceAbs destAbs) (0, 0);
  let sourceFileSet : gset path := list_to_set sourceFiles in
  deletedCount ← for_of destFiles (deleteStep self destAbs sourceFileSet) 0;
  cleanupEmptyDirectories self destAbs sourceAbs;;
  log self (SyncComplete copiedCount deletedCount skippedCount);;
  mret (Result copiedCount deletedCount skippedCount).

End Engine.

(** ** The change-detection rule in the words of the specification
    (section 4.3), to be compared with [filesAreDifferent]. *)

Module ChangeSpec.
Import FS.

(** Section 4.3 in the words of the specification. *)
Definition not_statable (p : path) (n : node) : Prop :=
  forall c, resolve p n <> Ok c.

Definition needs_copy (n : node) (sourcePath destPath : path) : Prop :=
  not_statable destPath n
  \/ exists s d, resolve sourcePath n = Ok s /\ resolve destPath n = Ok d /\
       (st_mtime (stats_of s) <> st_mtime (stats_of d)
        \/ st_size (stats_of s) <> st_size (stats_of d)).

End ChangeSpec.

(** ** Auxiliary definitions of the proofs *)

(** Patterns without a character that the RegExp grammar reads as an
    operator, and the stages of their translation. *)
Module PlainPattern.
Import JS RegExp Pattern.

(** A pattern character that the translation passes on unchanged and
    the RegExp grammar reads as itself. *)
Definition special : list ascii :=
  [backslash; caret; dollar; plus; lparen; rparen; lbracket; lbrace; bar].

Definition plain_pattern (p : jsstring) : Prop := Forall (fun c => c ∉ special) p.

Definition plain_patterns (patterns : option (list jsstring)) : Prop :=
  Forall plain_pattern (default [] patterns).

Global Instance plain_pattern_dec p : Decision (plain_pattern p).
Proof. unfold plain_pattern. apply _. Defined.
Global Instance plain_patterns_dec ps : Decision (plain_patterns ps).
Proof. unfold plain_patterns. apply _. Defined.

Definition piece (a : ascii) : jsstring :=
  if Ascii.eqb a backslash then [slash]
  else if Ascii.eqb a dot then [backslash; dot]
  else if Ascii.eqb a star then str "[^/]*"
  else if Ascii.eqb a question then str "[^/]"
  else [a].

(** The tokens of one translated pattern character. *)
Definition not_slash : list citem := [CChar slash].

Definition toks (a : ascii) : list token :=
  if Ascii.eqb a star then [TClass true not_slash; TQuant 0 None]
  else if Ascii.eqb a question then [TClass true not_slash]
  else [TChar a].

(** The effect of the tokens of one pattern character on the parser. *)
Definition pstep (sl : re * option re) (a : ascii) : re * option re :=
  if Ascii.eqb a star
  then (Cat (snoc_term sl.1 sl.2) (Rep 0 None (Cls true not_slash)), None)
  else if Ascii.eqb a question
  then (snoc_term sl.1 sl.2, Some (Cls true not_slash))
  else (snoc_term sl.1 sl.2, Some (Chr a)).

(** The matcher of one pattern character, and of a pattern. *)
Definition no_slash (ch : ascii) : bool :=
  xorb true (existsb (item_match ch) not_slash).

Definition glob_piece (a : ascii) : matcher :=
  if Ascii.eqb a star
  then fun x c => repeat_matcher (char_matcher no_slash) (S (length x.2)) 0 None x c
  else if Ascii.eqb a question then char_matcher no_slash
  else char_matcher (same_char a).

Fixpoint glob_matcher (p : jsstring) : matcher :=
  match p with
  | [] => fun x c => c x
  | a :: p' => fun x c => glob_piece a x (fun y => glob_matcher p' y c)
  end.

(** The regular expression of a plain pattern. *)
Definition plain_regex (p : jsstring) : re :=
  let sl := fold_left pstep p (Cat Eps Bol, None) in
  Cat (snoc_term sl.1 sl.2) Eol.

Fixpoint translated (s : jsstring) : bool :=
  match s with
  | [] => true
  | c :: s' =>
      negb (Ascii.eqb c question)
      && (if Ascii.eqb c backslash
          then match s' with d :: _ => Ascii.eqb d dot | [] => false end
          else true)
      && translated s'
  end.

End PlainPattern.

(** Both walkers as instances of one walk. *)
Module Walk.
Import FS IO Engine.

(** Both walkers are instances of one walk that differs in what an entry
    contributes. *)
Definition emit_files (k : kind) (rel : path) : list path :=
  match k with KFile => [rel] | _ => [] end.
Definition emit_dirs (k : kind) (rel : path) : list path :=
  match k with KDir => [rel] | _ => [] end.

Definition step (emit : kind -> path -> list path)
    (walk : node -> path -> path -> walk_result) (dirPath rel : path)
    (x : name) (c : node) (acc : walk_result) : walk_result :=
  match c with
  | Dir _ _ _ =>
      let r := walk c (dirPath ++ [x]) (rel ++ [x]) in
      match r.1 with
      | Ok sub => (app (emit KDir (rel ++ [x]) ++ sub) <$> acc.1, r.2 ++ acc.2)
      | Err e => (Err e, r.2)
      end
  | _ => (app (emit (node_kind c) (rel ++ [x])) <$> acc.1, acc.2)
  end.

Fixpoint walk (emit : kind -> path -> list path) (n : node) (dirPath rel : path)
    : walk_result :=
  match n with
  | Dir _ true es =>
      let rest := map_fold (fun x c acc =>
        match c with
        | Dir _ _ _ =>
            let r := walk emit c (dirPath ++ [x]) (rel ++ [x]) in
            match r.1 with
            | Ok sub => (app (emit KDir (rel ++ [x]) ++ sub) <$> acc.1, r.2 ++ acc.2)
            | Err e => (Err e, r.2)
            end
        | _ => (app (emit (node_kind c) (rel ++ [x])) <$> acc.1, acc.2)
        end) (Ok [], []) es in
      (rest.1, Readdir dirPath :: rest.2)
  | Dir _ false _ => (Err (FsError EACCES), [Readdir dirPath])
  | _ => (Err (FsError ENOTDIR), [Readdir dirPath])
  end.

(** Every directory at or below [n] can be listed. *)
Definition listable_below (n : node) : Prop :=
  forall sub t l es, resolve sub n = Ok (Dir t l es) -> l = true.

(** What an entry [x] with node [c] contributes to a walk. *)
Definition contributes (emit : kind -> path -> list path) (rel : path)
    (x : name) (c : node) (q : path) : Prop :=
  q ∈ emit (node_kind c) (rel ++ [x])
  \/ exists sub c', sub <> [] /\ resolve sub c = Ok c'
        /\ q ∈ emit (node_kind c') ((rel ++ [x]) ++ sub).

Definition walk_post (emit : kind -> path -> list path) (n : node) (rel : path)
    (r : result (list path)) : Prop :=
  match r with
  | Ok l =>
      listable_below n /\
      forall q, q ∈ l <-> exists sub c, sub <> [] /\ resolve sub n = Ok c
                            /\ q ∈ emit (node_kind c) (rel ++ sub)
  | Err e => e = FsError EACCES /\ ~ listable_below n
  end.

Fixpoint weight (n : node) : nat :=
  match n with
  | Dir _ _ es => S (map_fold (fun _ c acc => weight c + acc) 0 es)
  | _ => 1
  end.

End Walk.

(** Worlds along a run. *)
Module Run.
Import JS Pattern FS IO Engine.

Definition calls (cs : list call) (w : world) : world :=
  World (root w) (clock w) (trace w ++ cs) (console w).

Definition logged (self : IdaSync) (m : message) (w : world) : world :=
  World (root w) (clock w) (trace w)
        (console w ++ if verbose self then [m] else []).

Definition copy_excluded (self : IdaSync) (f : path) : Prop :=
  matchesPattern (rel_string f) (Some (copyExclusions self)) = Ok true.
Definition delete_excluded (self : IdaSync) (f : path) : Prop :=
  matchesPattern (rel_string f) (Some (deleteExclusions self)) = Ok true.

Global Instance result_bool_eq_dec : EqDecision (result bool).
Proof. solve_decision. Defined.
Global Instance copy_excluded_dec self f : Decision (copy_excluded self f).
Proof. unfold copy_excluded. apply _. Defined.
Global Instance delete_excluded_dec self f : Decision (delete_excluded self f).
Proof. unfold delete_excluded. apply _. Defined.

Definition deletable (self : IdaSync) (set : gset path) (f : path) : Prop :=
  (f ∉ set) /\ matchesPattern (rel_string f) (Some (deleteExclusions self)) = Ok false.

(** The stages of a run that returns. *)
Record stages := Stages {
  after_mkdir : world;
  sourceFiles : list path;
  destFiles : list path;
  after_walks : world;
  after_copy : world;
  after_delete : world;
  after_cleanup : world
}.

Definition staged (self : IdaSync) (S D : path) (w : world) (r : SyncResult)
    (w' : world) (st : stages) : Prop :=
  (exists c, resolve S (root w) = Ok c) /\
  fs_mkdir_recursive D (called (Access S) (logged self (Syncing S D) w))
    = (Ok tt, after_mkdir st) /\
  (exists w2, getFilesRecursively S S (after_mkdir st) = (Ok (sourceFiles st), w2) /\
              getFilesRecursively D D w2 = (Ok (destFiles st), after_walks st)) /\
  for_of (sourceFiles st) (copyStep self S D) (0, 0) (after_walks st)
    = (Ok (copied r, skipped r), after_copy st) /\
  for_of (destFiles st) (deleteStep self D (list_to_set (sourceFiles st))) 0
         (after_copy st)
    = (Ok (deleted r), after_delete st) /\
  cleanupEmptyDirectories self D S (after_delete st) = (Ok tt, after_cleanup st) /\
  w' = logged self (SyncComplete (copied r) (deleted r) (skipped r)) (after_cleanup st).

(** The sort key. *)
Definition depth (rel : path) : nat := split_length (rel_string rel).

Definition deeper_first (a b : path) : Prop := depth b <= depth a.

End Run.

(** How one file-system call changes the tree. *)
Module Frame.
Import FS.

(** The two trees resolve [q] to the same node, if to any. *)
Definition agree (q : path) (t t' : node) : Prop :=
  forall c, resolve q t = Ok c <-> resolve q t' = Ok c.

(** [q] is a directory in both trees, listable in both or in neither. *)
Definition still_dir (q : path) (t t' : node) : Prop :=
  exists tm tm' l es es',
    resolve q t = Ok (Dir tm l es) /\ resolve q t' = Ok (Dir tm' l es').

Definition strict_prefix (q p : path) : Prop := exists r, r <> [] /\ p = q ++ r.

(** A change at [p]: apart from [p] itself only the directories above it
    differ, and they are still directories. *)
Definition touches (p : path) (t t' : node) : Prop :=
  forall q, q = p \/ agree q t t' \/ (strict_prefix q p /\ still_dir q t t').

(** What [mkdir -p p] does: new, listable directories on the way to [p]. *)
Definition creates (p : path) (t t' : node) : Prop :=
  forall q, agree q t t'
    \/ (q `prefix_of` p /\ (forall c, resolve q t <> Ok c)
        /\ exists tm es, resolve q t' = Ok (Dir tm true es))
    \/ (strict_prefix q p /\ still_dir q t t').

End Frame.

(** What a run keeps, for the idempotence of [sync]. *)
Module Idem.
Import FS Frame.

(** Neither tree contains the other. *)
Definition apart (S D : path) : Prop := ~ S `prefix_of` D /\ ~ D `prefix_of` S.

(** [f] needs no copy: both sides can be statted, with the same
    modification time and size, and the destination is not a directory. *)
Definition synced (S D : path) (t : node) (f : path) : Prop :=
  exists s d, resolve (S ++ f) t = Ok s /\ resolve (D ++ f) t = Ok d /\
    node_kind d <> KDir /\
    st_mtime (stats_of s) = st_mtime (stats_of d) /\
    st_size (stats_of s) = st_size (stats_of d).

(** What the two walks of a run found in the tree [t1]. *)
Record found (S D : path) (t1 : node) (sf df : list path) : Prop := Found {
  found_source : forall f, f ∈ sf <->
    f <> [] /\ exists tm d, resolve (S ++ f) t1 = Ok (File tm d);
  found_dest : forall h, h ∈ df <->
    h <> [] /\ exists tm d, resolve (D ++ h) t1 = Ok (File tm d)
}.

(** What every step of a run keeps, relative to the tree [t1] of the
    walks. *)
Record kept (S D : path) (t1 : node) (sf df : list path) (t : node) : Prop := Kept {
  kept_source : forall q, agree (S ++ q) t1 t;
  kept_dest_dir : exists tm l es, resolve D t = Ok (Dir tm l es);
  kept_listable : forall q tm l es, resolve (D ++ q) t = Ok (Dir tm l es) -> l = true;
  kept_no_dir : forall f, f ∈ sf -> forall tm l es, resolve (D ++ f) t <> Ok (Dir tm l es);
  kept_origin : forall h tm d, resolve (D ++ h) t = Ok (File tm d) -> h ∈ sf \/ h ∈ df
}.

(** A regular file of the later tree was there in the earlier tree. *)
Definition files_from (D : path) (t t' : node) : Prop :=
  forall q tm d, resolve (D ++ q) t' = Ok (File tm d) -> resolve (D ++ q) t = Ok (File tm d).

End Idem.

(** What a computation keeps, whatever its outcome. *)
Module Preserve.
Import FS IO Frame.

(** [m] takes every world to one that [R] relates to it, also when it
    fails. *)
Definition preserves {A} (R : world -> world -> Prop) (m : M A) : Prop :=
  forall w, R w (m w).2.

(** [p] is on the line through [D]: above it, at it or below it. *)
Definition near (D p : path) : Prop := p `prefix_of` D \/ D `prefix_of` p.

(** The tree is the same at [q]. *)
Definition same_at (q : path) (w w' : world) : Prop := agree q (root w) (root w').

(** Nothing was written to the console. *)
Definition same_console (w w' : world) : Prop := console w' = console w.

(** The tree with its access times set aside. *)
Fixpoint forget_atime (n : node) : node :=
  match n with
  | File t d => File (Times (mtime t) 0) d
  | Dir t l es => Dir (Times (mtime t) 0) l (forget_atime <$> es)
  | Other t => Other (Times (mtime t) 0)
  end.

(** A tree of directories and regular files only. *)
Fixpoint plain (n : node) : bool :=
  match n with
  | File _ _ => true
  | Dir _ _ es => map_fold (fun _ c acc => plain c && acc) true es
  | Other _ => false
  end.

End Preserve.

(** The order of a listing. *)
Module Listing.
Import FS Frame.

(** In a list of directories, [p] comes before [q] whenever it lies
    between [rel] and [q]. *)
Definition parents_first (rel : path) (l : list path) : Prop :=
  forall l1 q l2, l = l1 ++ q :: l2 ->
  forall p, strict_prefix rel p -> strict_prefix p q -> p ∈ l1.

End Listing.

(** What the change detector answers on a tree. *)
Module Mirror.
Import FS.

(** The answer of [filesAreDifferent] for the relative path [f] on the
    tree [t]. *)
Definition stale (S D : path) (t : node) (f : path) : bool :=
  match resolve (S ++ f) t, resolve (D ++ f) t with
  | Ok s, Ok d =>
      negb (st_mtime (stats_of s) =? st_mtime (stats_of d))%Z
      || negb (st_size (stats_of s) =? st_size (stats_of d))%Z
  | _, _ => true
  end.

End Mirror.

(** Paths that are gone, and paths that are directories. *)
Module Prune.
Import FS.

Abbreviation absent := ChangeSpec.not_statable.

Definition is_dir (q : path) (t : node) : Prop :=
  exists tm l es, resolve q t = Ok (Dir tm l es).

End Prune.

(** Strings that differ in the case of their letters only. *)
Module Case.
Import JS RegExp.

Definition same_case (s s' : jsstring) : Prop :=
  Forall2 (fun c c' => canonicalize c = canonicalize c') s s'.

End Case.

(** ** The command line: bin/idasync.js *)

Module CLI.
Import JS FS IO Engine.

(** What [main] writes, before formatting. *)
Inductive output :=
| Usage                              (* printUsage() *)
| UnknownOption (arg : jsstring)     (* console.error(`Unknown option: ${arg}`) *)
| Complete                           (* Synchronization complete! *)
| FilesCopied (n : nat)
| FilesDeleted (n : nat)
| FilesSkipped (n : nat)
| ErrorMessage (error : exn).        (* console.error(`Error: ${error.message}`) *)

(** How the process ends: [process.exit(code)], or [main] returns. *)
Inductive ending := Exit (code : nat) | Returned.

(** [args.includes('--help') || args.includes('-h')] *)
Definition wants_help (args : list jsstring) : bool :=
  bool_decide (str "--help" ∈ args) || bool_decide (str "-h" ∈ args).

(** The [options] object of [main]. *)
Record cli_options := CliOptions {
  cli_copyExclusions : list jsstring;
  cli_deleteExclusions : list jsstring;
  cli_verbose : bool
}.

Definition is_verbose_flag (arg : jsstring) : bool :=
  bool_decide (arg = str "--verbose") || bool_decide (arg = str "-v").

(** The loop over [args] from index 2 on; [rest] is [args] from index
    [i].  An option that takes a value is recognised when a next argument
    exists ([i + 1 < args.length]), and then takes it whatever it is.  The
    result is the options, or the first argument that is not recognised. *)
Fixpoint parse_options (rest : list jsstring) (options : cli_options)
    : cli_options + jsstring :=
  match rest with
  | [] => inl options
  | arg :: rest' =>
      match rest' with
      | value :: rest'' =>
          if bool_decide (arg = str "--copy-exclude") then
            parse_options rest''
              (CliOptions (cli_copyExclusions options ++ [value])
                          (cli_deleteExclusions options) (cli_verbose options))
          else if bool_decide (arg = str "--delete-exclude") then
            parse_options rest''
              (CliOptions (cli_copyExclusions options)
                          (cli_deleteExclusions options ++ [value]) (cli_verbose options))
          else if is_verbose_flag arg then
            parse_options rest'
              (CliOptions (cli_copyExclusions options) (cli_deleteExclusions options) true)
          else inr arg
      | [] =>
          if is_verbose_flag arg then
            parse_options rest'
              (CliOptions (cli_copyExclusions options) (cli_deleteExclusions options) true)
          else inr arg
      end
  end.

(** [new IdaSync(options)] *)
Definition instance (options : cli_options) : IdaSync :=
  constructor (Options (Some (cli_copyExclusions options))
                       (Some (cli_deleteExclusions options))
                       (Some (cli_verbose options))).

Section Main.

(** [path.resolve] against the working directory of the process. *)
Variable path_resolve : jsstring -> path.

(** [main()], with [args = process.argv.slice(2)]: what it writes, how
    the process ends, and the world it leaves. *)
Definition main (args : list jsstring) (w : world) : (list output * ending) * world :=
  if (length args <? 2) || wants_help args then
    (([Usage], Exit (if wants_help args then 0 else 1)), w)
  else
    match args with
    | source :: destination :: rest =>
        match parse_options rest (CliOptions [] [] false) with
        | inr arg => (([UnknownOption arg; Usage], Exit 1), w)
        | inl options =>
            match sync (instance options) (path_resolve source) (path_resolve destination) w
            with
            | (Ok result, w') =>
                (([Complete; FilesCopied (copied result); FilesDeleted (deleted result);
                   FilesSkipped (skipped result)], Returned), w')
            | (Err error, w') => (([ErrorMessage error], Exit 1), w')
            end
        end
    | _ => (([Usage], Exit 1), w)
    end.

End Main.

(** The command line for a source, a destination and options. *)
Definition command_line (source destination : jsstring) (options : cli_options)
    : list jsstring :=
  source :: destination ::
    flat_map (fun p => [str "--copy-exclude"; p]) (cli_copyExclusions options)
    ++ flat_map (fun p => [str "--delete-exclude"; p]) (cli_deleteExclusions options)
    ++ (if cli_verbose options then [str "--verbose"] else []).

End CLI.

(** The loop of [cleanupEmptyDirectories]. *)
Module Sweep.
Import FS IO Engine.

Definition sweep (self : IdaSync) (D S : path) (l : list path) : M unit :=
  for_of l (fun relativeDir _ => cleanupDirectory self D S relativeDir) tt.

End Sweep.

(** The lines of the verbose log that stand for a counted action. *)
Module Log.
Import FS IO Engine.

Definition is_copied (m : message) : bool :=
  match m with Copied _ => true | _ => false end.
Definition is_deleted (m : message) : bool :=
  match m with Deleted _ => true | _ => false end.
Definition is_skipped (m : message) : bool :=
  match m with SkippingCopy _ => true | _ => false end.

Definition count (p : message -> bool) (ms : list message) : nat :=
  length (filter (fun m => p m = true) ms).

(** The counters that a list of lines accounts for. *)
Definition tally (ms : list message) : SyncResult :=
  Result (count is_copied ms) (count is_deleted ms) (count is_skipped ms).

(** The console has grown by the lines [ms]. *)
Definition wrote (ms : list message) (w w' : world) : Prop :=
  console w' = console w ++ ms.

(** The console has grown by lines that stand for no counted action. *)
Definition wrote_uncounted (w w' : world) : Prop :=
  exists ms, wrote ms w w' /\ tally ms = Result 0 0 0.

End Log.

(** A directory that the cleanup leaves alone. *)
Module Idle.
Import FS.

Definition idle (S D : path) (t : node) (rel : path) : Prop :=
  (exists c, resolve (S ++ rel) t = Ok c)
  \/ ~ exists tm, resolve (D ++ rel) t = Ok (Dir tm true ∅).

End Idle.

(** The order in which the cleanup looks at the directories, and the
    directories that a run can list. *)
Module Order.
Import FS IO.

(** The paths that were checked with [fs.access], in the order of the
    calls. *)
Definition checked (cs : list call) : list path :=
  omap (fun c => match c with Access p => Some p | _ => None end) cs.

(** The trace has grown by calls other than [fs.access]. *)
Definition unchecked (w w' : world) : Prop :=
  exists cs, trace w' = trace w ++ cs /\ checked cs = [].

(** A directory of the later tree that cannot be listed was such a
    directory of the earlier tree. *)
Definition no_new_unlistable (w w' : world) : Prop :=
  forall q tm es, resolve q (root w') = Ok (Dir tm false es) ->
    exists tm0 es0, resolve q (root w) = Ok (Dir tm0 false es0).

End Order.

(** Sample worlds. *)
Module Samples.
Import FS IO Engine.

Definition file (m : Z) (size : nat) : node := File (Times m m) (repeat Byte.x00 size).
Definition dir (es : list (name * node)) : node := Dir (Times 0 0) true (list_to_map es).

(** A destination with one file, and no source. *)
Definition only_dest : world :=
  World (dir [(str "dst", dir [(str "existing.txt", file 7 11)])]) 100 [] [].

(** A tree with a directory that cannot be listed. *)
Definition locked : world :=
  World (dir [(str "top", dir [(str "a.txt", file 1 1);
                              (str "in", Dir (Times 0 0) false ∅)])]) 100 [] [].

(** A source with two files and an empty destination. *)
Definition fresh : world :=
  World (dir [(str "src", dir [(str "file1.txt", file 5 8);
                              (str "x.log", file 5 2);
                              (str "subdir", dir [(str "file2.txt", file 6 3)])]);
              (str "dst", dir [])]) 100 [] [].

(** The destination holds a directory where the source has a file of the
    same size and modification time; the directory holds a file that the
    source does not have. *)
Definition clash : world :=
  World (dir [(str "src", dir [(str "f", file 0 4096)]);
              (str "dst", dir [(str "f", dir [(str "z", file 1 1)])])]) 100 [] [].

(** A source with one file, for a destination inside the source. *)
Definition nested : world :=
  World (dir [(str "a", dir [(str "x", file 3 1)])]) 100 [] [].

(** A source inside the destination [a]. *)
Definition inner : world :=
  World (dir [(str "a", dir [(str "b", dir [(str "x", file 3 1)])])]) 100 [] [].

(** A destination with the empty directories [a] and [a/b] and a
    directory [c] that still holds a file; the source has none of them. *)
Definition stale : world :=
  World (dir [(str "src", dir []);
              (str "dst", dir [(str "a", dir [(str "b", dir [])]);
                               (str "c", dir [(str "keep.json", file 1 1)])])])
        100 [] [].

(** The destination holds an older [x.log], which the source has too,
    and a [keep.json], which the source has not. *)
Definition guarded : world :=
  World (dir [(str "src", dir [(str "a.txt", file 5 8); (str "x.log", file 5 2)]);
              (str "dst", dir [(str "x.log", file 9 7); (str "keep.json", file 1 1)])])
        100 [] [].

Definition quiet : IdaSync := Build [] [] false.
Definition excluding : IdaSync := Build [str "*.log"] [str "*.json"] false.

End Samples.

(** More sample worlds. *)
Module MoreSamples.
Import FS IO.

(** The destination holds the empty directory [e], which the source has
    too, and the empty directories [a] and [a/b], which it has not. *)
Definition hollow : world :=
  World (Samples.dir
           [(str "src", Samples.dir [(str "e", Samples.dir [])]);
            (str "dst", Samples.dir [(str "e", Samples.dir []);
                                     (str "a", Samples.dir [(str "b", Samples.dir [])])])])
        100 [] [].

End MoreSamples.


(** * Properties *)

Module PatternFacts.
Import JS RegExp Pattern PlainPattern.

Lemma ascii_eqb_eq a b : Ascii.eqb a b = true <-> a = b.
Proof. apply Ascii.eqb_eq. Qed.

Lemma same_char_slash ch : same_char slash ch = true <-> ch = slash.
Proof.
  split; [|intros ->; reflexivity].
  destruct ch as [[] [] [] [] [] [] [] []]; vm_compute; congruence.
Qed.

Lemma same_char_refl a : same_char a a = true.
Proof. unfold same_char. apply N.eqb_refl. Qed.

Lemma replaceAll_app c b s t :
  replaceAll c b (s ++ t) = replaceAll c b s ++ replaceAll c b t.
Proof. apply flat_map_app. Qed.

Lemma replaceAll_cons c b a s :
  replaceAll c b (a :: s) = (if Ascii.eqb a c then b else [a]) ++ replaceAll c b s.
Proof. reflexivity. Qed.

Lemma regexPattern_cons a p : regexPattern (a :: p) = piece a ++ regexPattern p.
Proof.
  unfold regexPattern, piece. rewrite (replaceAll_cons backslash).
  destruct (Ascii.eqb a backslash) eqn:E1.
  { rewrite !replaceAll_app. reflexivity. }
  rewrite replaceAll_app, (replaceAll_cons dot). destruct (Ascii.eqb a dot) eqn:E2.
  { rewrite !replaceAll_app. reflexivity. }
  rewrite !replaceAll_app, (replaceAll_cons star). destruct (Ascii.eqb a star) eqn:E3.
  { rewrite !replaceAll_app. reflexivity. }
  rewrite !replaceAll_app, (replaceAll_cons question).
  destruct (Ascii.eqb a question) eqn:E4; reflexivity.
Qed.

Lemma regexPattern_nil : regexPattern [] = [].
Proof. reflexivity. Qed.

Lemma plain_eqb a c : a ∉ special -> c ∈ special -> Ascii.eqb a c = false.
Proof.
  intros Ha Hc. destruct (Ascii.eqb a c) eqn:E; [|done].
  apply ascii_eqb_eq in E. congruence.
Qed.

Lemma lex_piece a rest :
  a ∉ special ->
  lex 0 (piece a ++ rest) = (fun ts => toks a ++ ts) <$> lex 0 rest.
Proof.
  intros Ha. unfold piece, toks.
  rewrite (plain_eqb a backslash) by (done || (unfold special; set_solver)).
  destruct (Ascii.eqb a dot) eqn:E2.
  { apply ascii_eqb_eq in E2. subst a. cbn. by destruct (lex 0 rest). }
  destruct (Ascii.eqb a star) eqn:E3.
  { apply ascii_eqb_eq in E3. subst a. cbn. by destruct (lex 0 rest). }
  destruct (Ascii.eqb a question) eqn:E4.
  { apply ascii_eqb_eq in E4. subst a. cbn. by destruct (lex 0 rest). }
  cbn [app lex].
  rewrite (plain_eqb a backslash), E4, (plain_eqb a lbracket), (plain_eqb a lbrace)
    by (done || (unfold special; set_solver)).
  unfold simple_token.
  rewrite (plain_eqb a caret), (plain_eqb a dollar), (plain_eqb a bar),
    (plain_eqb a lparen), (plain_eqb a rparen), E3, (plain_eqb a plus), E2
    by (done || (unfold special; set_solver)).
  by destruct (lex 0 rest).
Qed.

Lemma lex_pattern p rest :
  plain_pattern p ->
  lex 0 (regexPattern p ++ rest) = (fun ts => flat_map toks p ++ ts) <$> lex 0 rest.
Proof.
  induction 1 as [|a p Ha Hp IH].
  - cbn. by destruct (lex 0 rest).
  - rewrite regexPattern_cons, <- app_assoc, lex_piece, IH by done.
    destruct (lex 0 rest); cbn; [|done]. by rewrite <- app_assoc.
Qed.

Lemma parse_toks a ts stack alts seq last :
  parse (toks a ++ ts) stack alts seq last
  = parse ts stack alts (pstep (seq, last) a).1 (pstep (seq, last) a).2.
Proof.
  unfold toks, pstep.
  destruct (Ascii.eqb a star); [reflexivity|].
  destruct (Ascii.eqb a question); reflexivity.
Qed.

Lemma parse_pattern p ts stack alts sl :
  parse (flat_map toks p ++ ts) stack alts sl.1 sl.2
  = parse ts stack alts (fold_left pstep p sl).1 (fold_left pstep p sl).2.
Proof.
  revert sl. induction p as [|a p IH]; intros [seq last]; [reflexivity|].
  cbn [flat_map fold_left]. rewrite <- app_assoc, parse_toks. apply IH.
Qed.

Lemma compile_pstep sl a x c :
  compile (snoc_term (pstep sl a).1 (pstep sl a).2) x c
  = compile (snoc_term sl.1 sl.2) x (fun y => glob_piece a y c).
Proof.
  unfold pstep, glob_piece.
  destruct (Ascii.eqb a star); [reflexivity|].
  destruct (Ascii.eqb a question); reflexivity.
Qed.

Lemma compile_pattern p sl x c :
  compile (snoc_term (fold_left pstep p sl).1 (fold_left pstep p sl).2) x c
  = compile (snoc_term sl.1 sl.2) x (fun y => glob_matcher p y c).
Proof.
  revert sl c. induction p as [|a p IH]; intros sl c; [reflexivity|].
  cbn [fold_left]. rewrite IH, compile_pstep. reflexivity.
Qed.

Lemma no_slash_spec ch : no_slash ch = true <-> ch <> slash.
Proof.
  unfold no_slash, not_slash. cbn. rewrite orb_false_r.
  destruct (same_char slash ch) eqn:E.
  - apply same_char_slash in E. split; [done|congruence].
  - split; [|done]. intros _ ->. by rewrite same_char_refl in E.
Qed.

Lemma repeat_char_spec q fuel e s c :
  length s < fuel ->
  repeat_matcher (char_matcher q) fuel 0 None (e, s) c = true <->
  exists s1 s2, s = s1 ++ s2 /\ Forall (fun ch => q ch = true) s1
                /\ c (e + length s1, s2) = true.
Proof.
  revert e s. induction fuel as [|fuel IH]; intros e s Hlen; [lia|].
  cbn [repeat_matcher]. rewrite bool_decide_eq_false_2 by done.
  cbn [Nat.eqb]. rewrite orb_true_iff. unfold char_matcher at 1. cbn [fst snd].
  split.
  - intros [H|H].
    + destruct s as [|ch s']; [done|]. apply andb_true_iff in H as [Hq H].
      cbn [andb] in H. replace (S e =? e) with false in H
        by (symmetry; apply Nat.eqb_neq; lia).
      apply IH in H as (s1 & s2 & -> & Hall & Hc); [|cbn in Hlen; lia].
      exists (ch :: s1), s2. split; [done|]. split; [by constructor|].
      cbn [length]. by replace (e + S (length s1)) with (S e + length s1) by lia.
    + exists [], s. split; [done|]. split; [constructor|].
      cbn. by rewrite Nat.add_0_r.
  - intros (s1 & s2 & -> & Hall & Hc). destruct s1 as [|ch s1].
    + right. cbn in Hc. by rewrite Nat.add_0_r in Hc.
    + left. cbn [app]. inversion Hall as [|? ? Hq Hall']; subst.
      rewrite Hq. cbn [andb].
      replace (S e =? e) with false by (symmetry; apply Nat.eqb_neq; lia).
      apply IH; [cbn in Hlen; lia|]. exists s1, s2. split; [done|]. split; [done|].
      cbn [length] in Hc. by replace (S e + length s1) with (e + S (length s1)) by lia.
Qed.

Lemma char_matcher_spec q e s c :
  char_matcher q (e, s) c = true <->
  exists ch s', s = ch :: s' /\ q ch = true /\ c (S e, s') = true.
Proof.
  unfold char_matcher. cbn [fst snd]. destruct s as [|ch s'].
  - split; [done|]. by intros (? & ? & ? & _).
  - rewrite andb_true_iff. split.
    + intros [? ?]. by exists ch, s'.
    + intros (? & ? & [= <- <-] & ? & ?). done.
Qed.

Lemma glob_matcher_spec p e s c :
  glob_matcher p (e, s) c = true <->
  exists s1 s2, s = s1 ++ s2 /\ GlobSpec.glob p s1 /\ c (e + length s1, s2) = true.
Proof.
  revert e s. induction p as [|a p IH]; intros e s.
  - cbn. split.
    + intros H. exists [], s. split; [done|]. split; [constructor|].
      cbn. by rewrite Nat.add_0_r.
    + intros (s1 & s2 & -> & Hg & Hc). inversion Hg; subst.
      cbn in Hc. by rewrite Nat.add_0_r in Hc.
  - cbn [glob_matcher]. unfold glob_piece.
    destruct (Ascii.eqb a star) eqn:E3.
    { apply ascii_eqb_eq in E3. subst a. cbn [snd].
      rewrite repeat_char_spec by lia. split.
      - intros (s1 & s2 & -> & Hall & Hc). apply IH in Hc as (t1 & t2 & -> & Hg & Hc).
        exists (s1 ++ t1), t2. split; [by rewrite app_assoc|]. split.
        + constructor; [|done]. eapply Forall_impl; [exact Hall|].
          intros ch. by rewrite no_slash_spec.
        + rewrite length_app. by rewrite Nat.add_assoc.
      - intros (s1 & s2 & -> & Hg & Hc).
        inversion Hg as [|p' u t Hall Hg'| |]; subst; [|done].
        exists u, (t ++ s2). split; [by rewrite app_assoc|]. split.
        + eapply Forall_impl; [exact Hall|]. intros ch. by rewrite no_slash_spec.
        + apply IH. exists t, s2. split; [done|]. split; [done|].
          rewrite length_app in Hc. by rewrite Nat.add_assoc in Hc. }
    destruct (Ascii.eqb a question) eqn:E4.
    { apply ascii_eqb_eq in E4. subst a. rewrite char_matcher_spec. split.
      - intros (ch & s' & -> & Hq & Hc). apply IH in Hc as (t1 & t2 & -> & Hg & Hc).
        exists (ch :: t1), t2. split; [done|]. split.
        + constructor; [by apply no_slash_spec|done].
        + cbn [length]. by replace (e + S (length t1)) with (S e + length t1) by lia.
      - intros (s1 & s2 & -> & Hg & Hc).
        inversion Hg as [| |p' ch t Hns Hg'|]; subst; [|done].
        exists ch, (t ++ s2). split; [done|]. split; [by apply no_slash_spec|].
        apply IH. exists t, s2. split; [done|]. split; [done|].
        cbn [length] in Hc. by replace (S e + length t) with (e + S (length t)) by lia. }
    rewrite char_matcher_spec. split.
    + intros (ch & s' & -> & Hq & Hc). apply IH in Hc as (t1 & t2 & -> & Hg & Hc).
      exists (ch :: t1), t2. split; [done|]. split.
      * constructor; [| |done|done].
        -- intros ->. done.
        -- intros ->. done.
      * cbn [length]. by replace (e + S (length t1)) with (S e + length t1) by lia.
    + intros (s1 & s2 & -> & Hg & Hc).
      inversion Hg as [|? ? ? ? ?| |a' ch p' t Hs Hq Hsc Hg']; subst;
        try (by rewrite ?Ascii.eqb_refl in E3, E4).
      exists ch, (t ++ s2). split; [done|]. split; [done|].
      apply IH. exists t, s2. split; [done|]. split; [done|].
      cbn [length] in Hc. by replace (S e + length t) with (e + S (length t)) by lia.
Qed.

Lemma new_plain p : plain_pattern p -> new (regexSource p) = Ok (plain_regex p).
Proof.
  intros Hp. unfold new, regexSource. cbn [lex].
  change (Ascii.eqb caret backslash) with false.
  change (Ascii.eqb caret question) with false.
  change (Ascii.eqb caret lbracket) with false.
  change (Ascii.eqb caret lbrace) with false.
  cbn match. rewrite lex_pattern by done. cbn.
  apply (parse_pattern p [TEol] [] None (Cat Eps Bol, None)).
Qed.

Lemma compile_plain p x c :
  compile (plain_regex p) x c
  = (x.1 =? 0) && glob_matcher p x (fun y => match y.2 with [] => c y | _ :: _ => false end).
Proof.
  unfold plain_regex. cbn [compile]. rewrite compile_pattern. reflexivity.
Qed.

Lemma search_plain_later p e s : search (compile (plain_regex p)) (S e) s = false.
Proof.
  revert e. induction s as [|ch s IH]; intros e; cbn [search].
  - by rewrite compile_plain.
  - by rewrite compile_plain, IH.
Qed.

Lemma test_plain p s : test (plain_regex p) s = true <-> GlobSpec.glob p s.
Proof.
  unfold test. assert (search (compile (plain_regex p)) 0 s
    = compile (plain_regex p) (0, s) (fun _ => true)) as ->.
  { destruct s; cbn [search]; [by rewrite orb_false_r|].
    by rewrite search_plain_later, orb_false_r. }
  rewrite compile_plain. cbn [fst Nat.eqb andb]. rewrite glob_matcher_spec. split.
  - intros (s1 & s2 & -> & Hg & Hc). cbn [snd] in Hc.
    destruct s2; [|done]. by rewrite app_nil_r.
  - intros Hg. exists s, []. by rewrite app_nil_r.
Qed.

Lemma matchesOne_plain fileName normalizedPath p :
  plain_pattern p ->
  exists b, matchesOne fileName normalizedPath p = Ok b /\
    (b = true <-> GlobSpec.glob p (if includes slash p then normalizedPath else fileName)).
Proof.
  intros Hp. unfold matchesOne. rewrite new_plain by done. cbn.
  destruct (includes slash p); eexists; (split; [reflexivity|apply test_plain]).
Qed.

Lemma some_spec {A} (f : A -> result bool) (P : A -> Prop) l :
  (forall x, x ∈ l -> exists b, f x = Ok b /\ (b = true <-> P x)) ->
  exists b, some f l = Ok b /\ (b = true <-> exists x, x ∈ l /\ P x).
Proof.
  induction l as [|x l IH]; intros H.
  - exists false. split; [done|]. split; [done|]. intros (x & Hx & _).
    by apply elem_of_nil in Hx.
  - destruct (H x) as (b & Hb & HP); [by left|]. cbn [some]. rewrite Hb. cbn.
    destruct b.
    + exists true. split; [done|]. split; [|done]. intros _. exists x.
      split; [by left|]. by apply HP.
    + destruct IH as (b' & Hb' & HP'); [intros y Hy; apply H; by right|].
      exists b'. split; [done|]. rewrite HP'. split.
      * intros (y & Hy & Py). exists y. split; [by right|done].
      * intros (y & Hy & Py). apply elem_of_cons in Hy as [->|Hy].
        -- apply HP in Py. done.
        -- by exists y.
Qed.

Lemma replaceAll_absent c b s : c ∉ s -> replaceAll c b s = s.
Proof.
  induction s as [|a s IH]; intros H; [done|].
  rewrite replaceAll_cons. destruct (Ascii.eqb a c) eqn:E.
  - apply ascii_eqb_eq in E. subst. exfalso. apply H. by left.
  - cbn. f_equal. apply IH. intros ?. apply H. by right.
Qed.

Lemma plain_no_backslash p : plain_pattern p -> backslash ∉ p.
Proof.
  intros Hp Hin. eapply Forall_forall in Hp; [|exact Hin].
  apply Hp. unfold special. set_solver.
Qed.

Lemma basename_final_segment s :
  last s <> Some slash -> basename s = GlobSpec.final_segment s.
Proof.
  intros H. unfold basename, GlobSpec.final_segment.
  destruct (rev s) as [|c r] eqn:E; [reflexivity|].
  assert (s = rev r ++ [c]) as ->.
  { rewrite <- (rev_involutive s), E. reflexivity. }
  rewrite last_snoc in H. cbn [span].
  destruct (Ascii.eqb slash c) eqn:Ec; [|cbn [snd span]; by rewrite Ec].
  apply ascii_eqb_eq in Ec. congruence.
Qed.

Lemma translated_tail c s : translated (c :: s) = true -> translated s = true.
Proof. cbn [translated]. rewrite !andb_true_iff. tauto. Qed.

Lemma fmap_modelled {A B} (f : A -> B) (r : result A) :
  r <> Err RegExpUnmodelled -> f <$> r <> Err RegExpUnmodelled.
Proof. destruct r; cbn; congruence. Qed.

Lemma lex_class_body_modelled s n acc pend dash esc :
  (if esc : bool then match s with d :: s' => Ascii.eqb d dot = true /\ translated s' = true
                           | [] => True end
   else translated s = true) ->
  lex_class_body s n acc pend dash esc <> Err RegExpUnmodelled.
Proof.
  revert n acc pend dash esc.
  induction s as [|c s IH]; intros n acc pend dash esc H; [done|].
  cbn [lex_class_body]. destruct esc.
  - destruct H as [-> H]. destruct (class_atom dot acc pend dash) as [[[? ?] ?]|]; [|done].
    by apply IH.
  - pose proof (translated_tail _ _ H) as Ht.
    destruct (Ascii.eqb c backslash) eqn:E1.
    { apply IH. cbn [translated] in H. rewrite E1 in H.
      destruct s as [|d s']; [done|]. apply translated_tail in Ht.
      rewrite !andb_true_iff in H. tauto. }
    destruct (Ascii.eqb c rbracket); [done|].
    destruct (_ && _ && _); [by apply IH|].
    destruct (class_atom c acc pend dash) as [[[? ?] ?]|]; [|done].
    by apply IH.
Qed.

Lemma lex_modelled s skip :
  translated s = true -> lex skip s <> Err RegExpUnmodelled.
Proof.
  revert skip. induction s as [|c s IH]; intros skip H; [done|].
  pose proof (translated_tail _ _ H) as Ht.
  cbn [lex]. destruct skip; [|by apply IH].
  cbn [translated] in H. rewrite !andb_true_iff in H. destruct H as [[H1 H2] _].
  destruct (Ascii.eqb c backslash).
  { destruct s as [|d s']; [done|]. rewrite H2. by apply fmap_modelled, IH. }
  destruct (Ascii.eqb c question); [done|].
  destruct (Ascii.eqb c lbracket).
  { unfold lex_class. destruct s as [|d s']; [done|].
    destruct (Ascii.eqb d caret).
    - pose proof (lex_class_body_modelled s' 1 [] None false false
        (translated_tail _ _ Ht)) as Hc.
      destruct (lex_class_body s' 1 [] None false false) as [[items n]|e]; cbn.
      + by apply fmap_modelled, IH.
      + congruence.
    - pose proof (lex_class_body_modelled (d :: s') 0 [] None false false Ht) as Hc.
      destruct (lex_class_body (d :: s') 0 [] None false false) as [[items n]|e]; cbn.
      + by apply fmap_modelled, IH.
      + congruence. }
  destruct (Ascii.eqb c lbrace).
  { destruct (lex_brace s) as [[[mn mx] n]|]; [|by apply fmap_modelled, IH].
    destruct (match mx with Some m => m <? mn | None => false end); [done|].
    by apply fmap_modelled, IH. }
  by apply fmap_modelled, IH.
Qed.

Lemma parse_modelled ts stack alts seq last :
  parse ts stack alts seq last <> Err RegExpUnmodelled.
Proof.
  revert stack alts seq last. induction ts as [|t ts IH]; intros stack alts seq last.
  - cbn. by destruct stack.
  - cbn [parse]. destruct t; try apply IH.
    + destruct last; [apply IH|done].
    + destruct stack as [|[? ?] ?]; [done|apply IH].
Qed.

Lemma translated_piece a rest :
  translated rest = true -> translated (piece a ++ rest) = true.
Proof.
  intros H. unfold piece.
  destruct (Ascii.eqb a backslash) eqn:E1; [exact H|].
  destruct (Ascii.eqb a dot) eqn:E2; [exact H|].
  destruct (Ascii.eqb a star) eqn:E3; [exact H|].
  destruct (Ascii.eqb a question) eqn:E4; [exact H|].
  cbn [app translated]. by rewrite E1, E4, H.
Qed.

Lemma translated_regexSource p : translated (regexSource p) = true.
Proof.
  unfold regexSource. change (translated (regexPattern p ++ [dollar]) = true).
  induction p as [|a p IH]; [done|].
  rewrite regexPattern_cons, <- app_assoc. by apply translated_piece.
Qed.

Lemma new_modelled p : new (regexSource p) <> Err RegExpUnmodelled.
Proof.
  unfold new. pose proof (lex_modelled (regexSource p) 0 (translated_regexSource p)).
  destruct (lex 0 (regexSource p)); cbn; [apply parse_modelled|congruence].
Qed.

Lemma matchesOne_modelled fileName normalizedPath p :
  matchesOne fileName normalizedPath p <> Err RegExpUnmodelled.
Proof.
  unfold matchesOne. pose proof (new_modelled p) as H.
  destruct (new (regexSource p)) as [r|e]; cbn.
  - by destruct (includes slash p).
  - congruence.
Qed.

Lemma matchesPattern_modelled filePath patterns :
  matchesPattern filePath patterns <> Err RegExpUnmodelled.
Proof.
  unfold matchesPattern. destruct patterns as [ps|]; [|done].
  destruct ps as [|p0 ps0]; [done|].
  generalize (p0 :: ps0). intros l. induction l as [|p l IH]; [done|].
  cbn [some].
  pose proof (matchesOne_modelled (basename filePath)
                (replaceAll backslash [slash] filePath) p) as H.
  destruct (matchesOne _ _ p) as [[]|e]; cbn; [done|exact IH|congruence].
Qed.

End PatternFacts.

Module FSFacts.
Import FS IO Engine Walk.

Lemma weight_child t l es x c :
  es !! x = Some c -> weight c < weight (Dir t l es).
Proof.
  intros H. cbn [weight].
  rewrite (map_fold_delete_L _ _ x c es); [lia| |done].
  intros. lia.
Qed.

Lemma node_ind' (P : node -> Prop) :
  (forall t d, P (File t d)) ->
  (forall t, P (Other t)) ->
  (forall t l es, (forall x c, es !! x = Some c -> P c) -> P (Dir t l es)) ->
  forall n, P n.
Proof.
  intros HF HO HD.
  assert (forall k n, weight n < k -> P n) as H.
  { induction k as [|k IH]; intros n Hk; [lia|].
    destruct n as [t d|t l es|t]; [apply HF| |apply HO].
    apply HD. intros x c Hc. apply IH.
    pose proof (weight_child t l es x c Hc). lia. }
  intros n. apply (H (S (weight n))). lia.
Qed.

Lemma resolve_stat_cases p n :
  (exists c, resolve p n = Ok c) \/ ChangeSpec.not_statable p n.
Proof.
  destruct (resolve p n) as [c|e] eqn:E.
  - left. by exists c.
  - right. intros c. congruence.
Qed.

Lemma remove_resolved now p t c :
  resolve p t = Ok c -> p <> [] -> exists t', remove now p t = Ok t'.
Proof.
  revert t. induction p as [|x p IH]; intros t Hr Hp; [done|].
  cbn in *. destruct t as [|tt l es|]; [done| |done].
  destruct (es !! x) as [cx|]; [|done]. destruct p as [|y p]; [by eexists|].
  destruct (IH cx Hr) as [t' ->]; [done|]. by eexists.
Qed.

End FSFacts.

Module WalkFacts.
Import FS IO Engine Walk FSFacts.

Lemma walk_unfold emit t es dirPath rel :
  walk emit (Dir t true es) dirPath rel
  = let rest := foldr (uncurry (step emit (walk emit) dirPath rel)) (Ok [], [])
                      (map_to_list es) in
    (rest.1, Readdir dirPath :: rest.2).
Proof.
  cbn [walk]. rewrite map_fold_foldr. reflexivity.
Qed.

Lemma foldr_step_ext emit w1 w2 dirPath rel (l : list (name * node)) :
  (forall x c, (x, c) ∈ l -> w1 c (dirPath ++ [x]) (rel ++ [x]) = w2 c (dirPath ++ [x]) (rel ++ [x])) ->
  foldr (uncurry (step emit w1 dirPath rel)) (Ok [], []) l
  = foldr (uncurry (step emit w2 dirPath rel)) (Ok [], []) l.
Proof.
  induction l as [|[x c] l IH]; intros H; [done|].
  cbn [foldr uncurry]. rewrite IH by (intros; apply H; by right).
  unfold step. destruct c; [done| |done]. rewrite H by by left. done.
Qed.

Lemma walk_files_gen n dirPath rel :
  walk_files n dirPath rel = walk emit_files n dirPath rel.
Proof.
  revert dirPath rel. induction n as [| |t l es IH] using node_ind'; intros dirPath rel;
    [done|done|].
  destruct l; [|done]. rewrite walk_unfold. cbn [walk_files]. rewrite map_fold_foldr.
  rewrite <- (foldr_step_ext emit_files walk_files (walk emit_files)).
  2:{ intros x c Hc. apply elem_of_map_to_list in Hc. by eapply IH. }
  cbn zeta.
  match goal with |- (?X.1, _ :: ?X.2) = (?Y.1, _ :: ?Y.2) =>
    enough (X = Y) as Hxy by (by rewrite Hxy) end.
  generalize (map_to_list es). intros m.
  induction m as [|[x c] m IHm]; [done|].
  cbn [foldr uncurry]. rewrite IHm.
  generalize (foldr (uncurry (step emit_files walk_files dirPath rel)) (Ok [], []) m).
  intros [[] ?]; unfold step; destruct c; cbn; try done;
    by destruct (walk_files c (dirPath ++ [x]) (rel ++ [x])).1.
Qed.

Lemma walk_dirs_gen n dirPath rel :
  walk_dirs n dirPath rel = walk emit_dirs n dirPath rel.
Proof.
  revert dirPath rel. induction n as [| |t l es IH] using node_ind'; intros dirPath rel;
    [done|done|].
  destruct l; [|done]. rewrite walk_unfold. cbn [walk_dirs]. rewrite map_fold_foldr.
  rewrite <- (foldr_step_ext emit_dirs walk_dirs (walk emit_dirs)).
  2:{ intros x c Hc. apply elem_of_map_to_list in Hc. by eapply IH. }
  cbn zeta.
  match goal with |- (?X.1, _ :: ?X.2) = (?Y.1, _ :: ?Y.2) =>
    enough (X = Y) as Hxy by (by rewrite Hxy) end.
  generalize (map_to_list es). intros m.
  induction m as [|[x c] m IHm]; [done|].
  cbn [foldr uncurry]. rewrite IHm.
  generalize (foldr (uncurry (step emit_dirs walk_dirs dirPath rel)) (Ok [], []) m).
  intros [[] ?]; unfold step; destruct c; cbn; try done;
    by destruct (walk_dirs c (dirPath ++ [x]) (rel ++ [x])).1.
Qed.

Lemma listable_below_leaf n : node_kind n <> KDir -> listable_below n.
Proof.
  intros Hk sub t l es H. destruct sub as [|x sub]; cbn in H.
  - injection H as ->. done.
  - destruct n; done.
Qed.

Lemma listable_below_dir t l es :
  listable_below (Dir t l es) <->
  l = true /\ forall x c, es !! x = Some c -> listable_below c.
Proof.
  split.
  - intros H. split; [by apply (H [] t l es)|].
    intros x c Hc sub t' l' es' Hr. apply (H (x :: sub) t' l' es'). cbn. by rewrite Hc.
  - intros [-> H] sub t' l' es' Hr. destruct sub as [|x sub]; cbn in Hr.
    + by injection Hr as _ <- _.
    + destruct (es !! x) as [c|] eqn:Hc; [|done]. by eapply H.
Qed.

Lemma below_dir_contributes emit rel t l es q :
  (exists sub c, sub <> [] /\ resolve sub (Dir t l es) = Ok c
      /\ q ∈ emit (node_kind c) (rel ++ sub))
  <-> exists x c, es !! x = Some c /\ contributes emit rel x c q.
Proof.
  split.
  - intros (sub & c & Hne & Hr & Hq). destruct sub as [|x sub]; [done|].
    cbn in Hr. destruct (es !! x) as [cx|] eqn:Hx; [|done].
    exists x, cx. split; [done|]. destruct sub as [|y sub].
    + left. cbn in Hr. by injection Hr as ->.
    + right. exists (y :: sub), c. split; [done|]. split; [done|].
      by rewrite <- app_assoc.
  - intros (x & cx & Hx & [Hq|(sub & c & Hne & Hr & Hq)]).
    + exists [x], cx. split; [done|]. cbn. by rewrite Hx.
    + exists (x :: sub), c. split; [done|]. cbn. rewrite Hx. split; [done|].
      by rewrite <- app_assoc in Hq.
Qed.

Lemma step_leaf emit w dirPath rel x c acc :
  node_kind c <> KDir ->
  step emit w dirPath rel x c acc
  = (app (emit (node_kind c) (rel ++ [x])) <$> acc.1, acc.2).
Proof. by destruct c. Qed.

Lemma walk_spec emit n dirPath rel :
  node_kind n = KDir -> walk_post emit n rel (walk emit n dirPath rel).1.
Proof.
  revert dirPath rel. induction n as [| |t l es IH] using node_ind';
    intros dirPath rel Hk; [done|done|].
  destruct l.
  2:{ cbn. split; [done|]. intros H. by specialize (H [] t false es eq_refl). }
  rewrite walk_unfold. cbn zeta. cbn [fst].
  assert (forall m : list (name * node),
    (forall x c, (x, c) ∈ m -> es !! x = Some c) ->
    match (foldr (uncurry (step emit (walk emit) dirPath rel)) (Ok [], []) m).1 with
    | Ok l =>
        (forall x c, (x, c) ∈ m -> listable_below c) /\
        forall q, q ∈ l <-> exists x c, (x, c) ∈ m /\ contributes emit rel x c q
    | Err e => e = FsError EACCES /\ exists x c, (x, c) ∈ m /\ ~ listable_below c
    end) as Hm.
  { induction m as [|[x c] m IHm]; intros Hin.
    - cbn. split; [intros ? ? H; by apply elem_of_nil in H|].
      intros q. split; [intros H; by apply elem_of_nil in H|].
      intros (? & ? & H & _). by apply elem_of_nil in H.
    - cbn [foldr uncurry].
      specialize (IHm (fun x c H => Hin x c (list_elem_of_further _ _ _ H))).
      revert IHm.
      generalize (foldr (uncurry (step emit (walk emit) dirPath rel)) (Ok [], []) m).
      intros [racc tacc] IHm. cbn [fst] in IHm.
      assert (es !! x = Some c) as Hx by (apply Hin; by left).
      destruct (decide (node_kind c = KDir)) as [Hc|Hc].
      + pose proof (IH x c Hx (dirPath ++ [x]) (rel ++ [x]) Hc) as Hw.
        destruct c as [|tc lc esc|]; [done| |done]. unfold step. cbn [fst snd].
        destruct (walk emit (Dir tc lc esc) (dirPath ++ [x]) (rel ++ [x])).1
          as [sub|e]; cbn [walk_post] in Hw.
        * destruct Hw as [Hl Hsub]. destruct racc as [l|e]; cbn [fmap result_fmap fst].
          -- destruct IHm as [Hall Hq]. split.
             ++ intros y cy [[= -> ->]|Hy]%elem_of_cons; [done|by eapply Hall].
             ++ intros q. rewrite !elem_of_app, Hq, Hsub. split.
                ** intros [[H|H]|(y & cy & Hy & Hc')].
                   --- exists x, (Dir tc lc esc). split; [by left|]. by left.
                   --- exists x, (Dir tc lc esc). split; [by left|]. by right.
                   --- exists y, cy. split; [by right|done].
                ** intros (y & cy & [[= -> ->]|Hy]%elem_of_cons & Hc').
                   --- destruct Hc' as [H|H]; left; [by left|by right].
                   --- right. by exists y, cy.
          -- destruct IHm as [-> (y & cy & Hy & Hn)]. split; [done|].
             exists y, cy. split; [by right|done].
        * destruct Hw as [-> Hn]. split; [done|].
          exists x, (Dir tc lc esc). split; [by left|done].
      + rewrite step_leaf by done. cbn [fst snd].
        assert (forall sub c', sub <> [] -> resolve sub c <> Ok c') as Hleaf.
        { intros [|y sub] c' Hne; [done|]. by destruct c. }
        destruct racc as [l|e]; cbn [fmap result_fmap].
        * destruct IHm as [Hall Hq]. split.
          -- intros y cy [[= -> ->]|Hy]%elem_of_cons;
               [by apply listable_below_leaf|by eapply Hall].
          -- intros q. rewrite elem_of_app, Hq. split.
             ++ intros [H|(y & cy & Hy & Hc')].
                ** exists x, c. split; [by left|]. by left.
                ** exists y, cy. split; [by right|done].
             ++ intros (y & cy & [[= -> ->]|Hy]%elem_of_cons & Hc').
                ** destruct Hc' as [H|(sub & c' & Hne & Hr & _)]; [by left|].
                   by destruct (Hleaf sub c' Hne).
                ** right. by exists y, cy.
        * destruct IHm as [-> (y & cy & Hy & Hn)]. split; [done|].
          exists y, cy. split; [by right|done]. }
  specialize (Hm (map_to_list es) (fun x c H => proj1 (elem_of_map_to_list es x c) H)).
  destruct (foldr (uncurry (step emit (walk emit) dirPath rel)) (Ok [], [])
              (map_to_list es)).1 as [l|e]; cbn [walk_post].
  - destruct Hm as [Hall Hq]. split.
    + apply listable_below_dir. split; [done|]. intros x c Hc. apply (Hall x).
      by apply elem_of_map_to_list.
    + intros q. rewrite below_dir_contributes, Hq. split.
      * intros (x & c & Hx & Hc). exists x, c. split; [|done].
        by apply elem_of_map_to_list.
      * intros (x & c & Hx & Hc). exists x, c. split; [|done].
        by apply elem_of_map_to_list.
  - destruct Hm as [-> (x & c & Hx & Hn)]. split; [done|].
    rewrite listable_below_dir. intros [_ H]. apply Hn, (H x).
    by apply elem_of_map_to_list.
Qed.

Lemma walking_root walk dirPath basePath w :
  root (walking walk dirPath basePath w).2 = root w.
Proof.
  unfold walking. destruct (resolve dirPath (root w)) as [n|[[]| | |]]; reflexivity.
Qed.

End WalkFacts.

Module MonadFacts.
Import FS IO Engine Run.

Lemma bind_ok {A B} (m : M A) (f : A -> M B) w b w' :
  (m ≫= f) w = (Ok b, w') ->
  exists a w1, m w = (Ok a, w1) /\ f a w1 = (Ok b, w').
Proof.
  unfold mbind, M_bind. destruct (m w) as [[a|e] w1]; [|done].
  intros H. by exists a, w1.
Qed.

Lemma bind_run {A B} (m : M A) (f : A -> M B) w a w1 :
  m w = (Ok a, w1) -> (m ≫= f) w = f a w1.
Proof. unfold mbind, M_bind. by intros ->. Qed.

Lemma bind_err {A B} (m : M A) (f : A -> M B) w e w1 :
  m w = (Err e, w1) -> (m ≫= f) w = (Err e, w1).
Proof. unfold mbind, M_bind. by intros ->. Qed.

Lemma log_run self m w : log self m w = (Ok tt, logged self m w).
Proof.
  unfold log, logged, console_log. destruct (verbose self); [done|].
  destruct w. cbn. by rewrite app_nil_r.
Qed.

Lemma lift_run {A} (r : result A) w : lift r w = (r, w).
Proof. done. Qed.

Lemma lift_ok {A} (r : result A) w a w1 :
  lift r w = (Ok a, w1) -> r = Ok a /\ w1 = w.
Proof. unfold lift. intros H. by inversion H. Qed.

Lemma try_catch_ok {A} (m : M A) h w a w1 :
  m w = (Ok a, w1) -> try_catch m h w = (Ok a, w1).
Proof. unfold try_catch. by intros ->. Qed.

Lemma try_catch_err {A} (m : M A) h w e w1 :
  m w = (Err e, w1) -> try_catch m h w = h e w1.
Proof. unfold try_catch. by intros ->. Qed.

Lemma fs_access_run p w :
  fs_access p w = ((_ ← resolve p (root w); Ok tt), called (Access p) w).
Proof. done. Qed.

Lemma fs_readdir_run p w :
  fs_readdir p w = ((es ← list_dir p (root w); Ok (es.*1)), called (Readdir p) w).
Proof. done. Qed.

Lemma fs_rmdir_run p w :
  fs_rmdir p w
  = match remove_dir (clock w) p (root w) with
    | Ok r => (Ok tt, World r (clock w + 1) (trace w ++ [Rmdir p]) (console w))
    | Err e => (Err e, called (Rmdir p) w)
    end.
Proof. done. Qed.

Lemma for_of_total {A} (l : list A) (body : A -> M unit) w :
  (forall x w, exists w', body x w = (Ok tt, w')) ->
  exists w', for_of l (fun x _ => body x) tt w = (Ok tt, w').
Proof.
  intros Hb. revert w. induction l as [|x l IH]; intros w; [by eexists|].
  cbn [for_of]. destruct (Hb x w) as [w1 H1]. erewrite bind_run by exact H1. apply IH.
Qed.

End MonadFacts.

Module StepFacts.
Import JS Pattern FS IO Engine Run MonadFacts.

Lemma copyStep_excluded self S D f c s w :
  copy_excluded self f ->
  copyStep self S D f (c, s) w = (Ok (c, Datatypes.S s), logged self (SkippingCopy f) w).
Proof.
  intros H. unfold copyStep. erewrite bind_run by (rewrite lift_run, H; done).
  cbn match. erewrite bind_run by apply log_run. done.
Qed.

Lemma copyStep_ok self S D f c s w c' s' w' :
  copyStep self S D f (c, s) w = (Ok (c', s'), w') ->
  (copy_excluded self f /\ c' = c /\ s' = Datatypes.S s)
  \/ (matchesPattern (rel_string f) (Some (copyExclusions self)) = Ok false
      /\ s' = s /\ (c' = c \/ c' = Datatypes.S c)).
Proof.
  unfold copyStep. intros H. apply bind_ok in H as ([] & w1 & H1 & H).
  - left. apply lift_ok in H1 as [H1 ->].
    apply bind_ok in H as ([] & w2 & _ & H). by injection H as <- <- _.
  - right. apply lift_ok in H1 as [H1 ->]. split; [done|].
    apply bind_ok in H as ([] & w2 & _ & H).
    + apply bind_ok in H as ([] & w3 & _ & H).
      apply bind_ok in H as ([] & w4 & _ & H). injection H as <- <- _. by split; [|right].
    + injection H as <- <- _. by split; [|left].
Qed.

Lemma deleteStep_excluded self D set f n w :
  f ∉ set -> delete_excluded self f ->
  deleteStep self D set f n w = (Ok n, logged self (SkippingDelete f) w).
Proof.
  intros Hf H. unfold deleteStep. rewrite bool_decide_eq_false_2 by done.
  erewrite bind_run by (rewrite lift_run, H; done).
  cbn match. erewrite bind_run by apply log_run. done.
Qed.

Lemma deleteStep_ok self D set f n w n' w' :
  deleteStep self D set f n w = (Ok n', w') ->
  (deletable self set f /\ n' = Datatypes.S n) \/ (~ deletable self set f /\ n' = n).
Proof.
  unfold deleteStep, deletable. case_bool_decide as Hin.
  { intros [= <- _]. right. split; [|done]. by intros [? _]. }
  intros H. apply bind_ok in H as ([] & w1 & H1 & H); apply lift_ok in H1 as [H1 ->].
  - apply bind_ok in H as ([] & w2 & _ & H). injection H as <- _.
    right. split; [|done]. intros [_ ?]. congruence.
  - apply bind_ok in H as ([] & w2 & _ & H).
    apply bind_ok in H as ([] & w3 & _ & H). injection H as <- _. by left.
Qed.

Lemma copy_loop_counts self S D l c s w c' s' w' :
  for_of l (copyStep self S D) (c, s) w = (Ok (c', s'), w') ->
  s' = s + length (filter (copy_excluded self) l)
  /\ c <= c' /\ c' <= c + length (filter (fun f => ~ copy_excluded self f) l).
Proof.
  revert c s w. induction l as [|f l IH]; intros c s w H.
  - injection H as <- <- _. cbn. lia.
  - cbn [for_of] in H. apply bind_ok in H as ([c1 s1] & w1 & H1 & H).
    apply IH in H as [-> Hc]. apply copyStep_ok in H1.
    rewrite !filter_cons.
    destruct H1 as [(He & -> & ->)|(He & -> & Hc1)].
    + rewrite decide_True by done. rewrite decide_False by (intros Hn; by apply Hn).
      cbn [length]. lia.
    + assert (~ copy_excluded self f) as Hn by (unfold copy_excluded; congruence).
      rewrite decide_False by done. rewrite decide_True by done.
      cbn [length]. lia.
Qed.

Lemma delete_loop_counts self D set l n w n' w' :
  for_of l (deleteStep self D set) n w = (Ok n', w') ->
  n' = n + length (filter (deletable self set) l).
Proof.
  revert n w. induction l as [|f l IH]; intros n w H.
  - injection H as <- _. cbn. lia.
  - cbn [for_of] in H. apply bind_ok in H as (n1 & w1 & H1 & H).
    apply IH in H as ->. apply deleteStep_ok in H1. rewrite filter_cons.
    destruct H1 as [[Hd ->]|[Hd ->]].
    + rewrite decide_True by done. cbn [length]. lia.
    + rewrite decide_False by done. lia.
Qed.

End StepFacts.

Module SyncFacts.
Import JS Pattern FS IO Engine Run MonadFacts StepFacts.

Lemma promise_all2_ok {A B} (a : M A) (b : M B) w x y w' :
  promise_all2 a b w = (Ok (x, y), w') <->
  exists w1, a w = (Ok x, w1) /\ b w1 = (Ok y, w').
Proof.
  unfold promise_all2. destruct (a w) as [ra w1]. destruct (b w1) as [rb w2] eqn:Eb.
  split.
  - destruct ra, rb; try done. intros [= -> -> ->]. by exists w1.
  - intros (w1' & [= -> <-] & Hb). rewrite Eb in Hb. by injection Hb as -> ->.
Qed.

Lemma sync_staged self S D w r w' :
  sync self S D w = (Ok r, w') <-> exists st, staged self S D w r w' st.
Proof.
  unfold sync, staged. split.
  - intros H. apply bind_ok in H as ([] & w0 & H0 & H). rewrite log_run in H0.
    injection H0 as <-.
    apply bind_ok in H as ([] & w1 & H1 & H).
    unfold try_catch, fs_access, reading, throw in H1. cbn [root logged] in H1.
    destruct (resolve S (root w)) as [c|e] eqn:Es; [|done]. cbn in H1.
    injection H1 as <-.
    apply bind_ok in H as ([] & w2 & H2 & H).
    apply bind_ok in H as ([sf df] & w3 & H3 & H).
    apply promise_all2_ok in H3 as (w3' & Hsf & Hdf).
    apply bind_ok in H as ([c1 s1] & w4 & H4 & H).
    apply bind_ok in H as (d1 & w5 & H5 & H).
    apply bind_ok in H as ([] & w6 & H6 & H).
    apply bind_ok in H as ([] & w7 & H7 & H). rewrite log_run in H7.
    injection H7 as <-. injection H as <- <-.
    exists (Stages w2 sf df w3 w4 w5 w6). cbn.
    split; [by exists c|]. split; [done|]. split; [by exists w3'|]. done.
  - intros (st & (c & Hc) & H2 & (w2 & Hsf & Hdf) & H4 & H5 & H6 & ->).
    erewrite bind_run by apply log_run.
    erewrite bind_run.
    2:{ unfold try_catch, fs_access, reading. cbn [root logged]. rewrite Hc. done. }
    erewrite bind_run by exact H2.
    erewrite bind_run.
    2:{ apply promise_all2_ok. exists w2. done. }
    cbn match. erewrite bind_run by exact H4.
    cbn match. erewrite bind_run by exact H5.
    erewrite bind_run by exact H6.
    erewrite bind_run by apply log_run. by destruct r.
Qed.

End SyncFacts.

Module CleanupFacts.
Import JS Pattern FS IO Engine Run FSFacts MonadFacts.

Lemma rel_string_app p sub :
  p <> [] -> sub <> [] ->
  rel_string (p ++ sub) = rel_string p ++ slash :: rel_string sub.
Proof.
  intros Hp Hs. induction p as [|x p IH]; [done|].
  destruct p as [|y p].
  - cbn. destruct sub; [done|]. done.
  - cbn [app rel_string] in *. rewrite IH by done. by rewrite <- app_assoc.
Qed.

Lemma depth_child parent sub :
  parent <> [] -> sub <> [] -> depth parent < depth (parent ++ sub).
Proof.
  intros Hp Hs. unfold depth, split_length. rewrite rel_string_app by done.
  rewrite filter_app, filter_cons, decide_True by done.
  rewrite length_app. cbn [length]. lia.
Qed.

Lemma by_depth_le a b : (by_depth a b <= 0)%Z <-> depth b <= depth a.
Proof. unfold by_depth, depth. lia. Qed.

Lemma sort_insert_perm cmp a l : sort_insert cmp a l ≡ₚ a :: l.
Proof.
  induction l as [|b l IH]; [done|]. cbn. destruct (cmp a b <=? 0)%Z; [done|].
  rewrite IH. apply Permutation_swap.
Qed.

Lemma sort_perm cmp l : sort cmp l ≡ₚ l.
Proof.
  induction l as [|a l IH]; [done|]. cbn. by rewrite sort_insert_perm, IH.
Qed.

Lemma sort_insert_sorted a l :
  StronglySorted deeper_first l -> StronglySorted deeper_first (sort_insert by_depth a l).
Proof.
  induction 1 as [|b l Hl IH Hb]; cbn.
  - repeat constructor.
  - destruct (by_depth a b <=? 0)%Z eqn:E.
    + apply Z.leb_le, by_depth_le in E. constructor; [by constructor|].
      constructor; [done|]. eapply Forall_impl; [exact Hb|].
      unfold deeper_first. intros; lia.
    + apply Z.leb_gt in E. assert (depth a < depth b) as Hab.
      { pose proof (by_depth_le a b). lia. }
      constructor; [done|]. rewrite sort_insert_perm. constructor; [|done].
      unfold deeper_first. lia.
Qed.

Lemma sort_sorted l : StronglySorted deeper_first (sort by_depth l).
Proof.
  induction l as [|a l IH]; cbn; [constructor|]. by apply sort_insert_sorted.
Qed.

Lemma cleanupDirectory_spec self D S rel w :
  exists w', cleanupDirectory self D S rel w = (Ok tt, w') /\
    match resolve (S ++ rel) (root w), resolve (D ++ rel) (root w) with
    | Err _, Ok (Dir t true es) =>
        if decide (es = ∅ /\ D ++ rel <> [])
        then remove (clock w) (D ++ rel) (root w) = Ok (root w')
        else root w' = root w
    | _, _ => root w' = root w
    end.
Proof.
  unfold cleanupDirectory.
  destruct (resolve (S ++ rel) (root w)) as [c|e] eqn:Es.
  { exists (called (Access (S ++ rel)) w). split; [|done].
    apply try_catch_ok. rewrite fs_access_run, Es. done. }
  erewrite try_catch_err by (rewrite fs_access_run, Es; done).
  set (w1 := called (Access (S ++ rel)) w).
  assert (forall e' w2, root w2 = root w ->
    (fs_readdir (D ++ rel) ≫= fun entries =>
       if length entries =? 0
       then fs_rmdir (D ++ rel);; log self (RemovedEmptyDirectory rel)
       else mret tt) w1 = (Err e', w2) ->
    exists w', try_catch (fs_readdir (D ++ rel) ≫= fun entries =>
       if length entries =? 0
       then fs_rmdir (D ++ rel);; log self (RemovedEmptyDirectory rel)
       else mret tt) (fun _ => mret tt) w1 = (Ok tt, w') /\ root w' = root w) as Hswallow.
  { intros e' w2 Hw2 H. exists w2. split; [|done]. by erewrite try_catch_err by exact H. }
  unfold list_dir.
  destruct (resolve (D ++ rel) (root w)) as [[|t [] es|]|e'] eqn:Ed;
    try (eapply Hswallow; [|apply bind_err; rewrite fs_readdir_run; unfold list_dir;
                            cbn [root w1 called]; rewrite Ed; reflexivity]; done).
  assert (fs_readdir (D ++ rel) w1
          = (Ok ((prod_map id node_kind <$> map_to_list es).*1),
             called (Readdir (D ++ rel)) w1)) as Hread.
  { rewrite fs_readdir_run. unfold list_dir. cbn [root w1 called]. by rewrite Ed. }
  destruct (decide (es = ∅ /\ D ++ rel <> [])) as [[-> Hne]|Hn].
  - destruct (remove_resolved (clock w) _ _ _ Ed Hne) as [t' Ht'].
    eexists. split.
    + apply try_catch_ok. erewrite bind_run by exact Hread.
      rewrite map_to_list_empty. cbn [fmap list_fmap length Nat.eqb].
      erewrite bind_run.
      2:{ rewrite fs_rmdir_run. unfold remove_dir. cbn [root clock called w1].
          rewrite Ed. cbn. rewrite Ht'. done. }
      apply log_run.
    + done.
  - destruct (length ((prod_map id node_kind <$> map_to_list es).*1) =? 0) eqn:El.
    + apply Nat.eqb_eq in El. rewrite !length_fmap in El.
      apply length_zero_iff_nil, map_to_list_empty_iff in El. subst es.
      assert (D ++ rel = []) as Heq.
      { destruct (decide (D ++ rel = [])); [done|]. destruct Hn. done. }
      eapply Hswallow; [|erewrite bind_run by exact Hread].
      2:{ rewrite map_to_list_empty. cbn [fmap list_fmap length Nat.eqb].
          apply bind_err. rewrite fs_rmdir_run. unfold remove_dir.
          cbn [root clock called w1]. rewrite Ed. cbn. rewrite Heq. cbn. done. }
      done.
    + eexists. split.
      * apply try_catch_ok. erewrite bind_run by exact Hread. rewrite El. done.
      * done.
Qed.

End CleanupFacts.

Module FrameFacts.
Import FS Frame.

Lemma strict_prefix_cons x q p : strict_prefix q p -> strict_prefix (x :: q) (x :: p).
Proof. intros (r & Hr & ->). by exists r. Qed.

Lemma strict_prefix_nil x p : strict_prefix [] (x :: p).
Proof. by exists (x :: p). Qed.

Lemma still_dir_cons x q tm tm' l es c c' :
  es !! x = Some c -> still_dir q c c' ->
  still_dir (x :: q) (Dir tm l es) (Dir tm' l (<[x:=c']> es)).
Proof.
  intros Hx (t1 & t2 & l' & e1 & e2 & H1 & H2).
  exists t1, t2, l', e1, e2. cbn. by rewrite Hx, lookup_insert_eq.
Qed.

Lemma still_dir_here tm tm' l es es' : still_dir [] (Dir tm l es) (Dir tm' l es').
Proof. by exists tm, tm', l, es, es'. Qed.

Lemma resolve_app p r t :
  resolve (p ++ r) t = match resolve p t with Ok c => resolve r c | Err e => Err e end.
Proof.
  revert t. induction p as [|x p IH]; intros t; [done|].
  cbn. destruct t as [|tm l es|]; [done| |done]. destruct (es !! x); [apply IH|done].
Qed.

Lemma put_char now p new t t' :
  put now p new t = Ok t' ->
  forall q,
    (exists r, q = p ++ r /\ resolve q t' = resolve r new)
    \/ resolve q t' = resolve q t
    \/ (strict_prefix q p /\ still_dir q t t').
Proof.
  revert t t'. induction p as [|x p IH]; intros t t' H q.
  { cbn in H. injection H as <-. left. by exists q. }
  cbn in H. destruct t as [|tm l es|]; [done| |done].
  destruct (es !! x) as [c|] eqn:Hx.
  - destruct (put now p new c) as [c'|] eqn:Hc; [|done]. cbn in H. injection H as <-.
    destruct q as [|y q].
    { right. right. split; [apply strict_prefix_nil|apply still_dir_here]. }
    destruct (decide (y = x)) as [->|Hy].
    + cbn. rewrite lookup_insert_eq, Hx.
      destruct (IH c c' Hc q) as [(r & -> & Hr)|[Hr|[Hs Hd]]].
      * left. by exists r.
      * by right; left.
      * right. right. split; [by apply strict_prefix_cons|].
        by eapply still_dir_cons.
    + right. left. cbn. by rewrite lookup_insert_ne.
  - destruct p as [|z p]; [|done]. injection H as <-.
    destruct q as [|y q].
    { right. right. split; [apply strict_prefix_nil|apply still_dir_here]. }
    destruct (decide (y = x)) as [->|Hy].
    + left. exists q. split; [done|]. cbn. by rewrite lookup_insert_eq.
    + right. left. cbn. by rewrite lookup_insert_ne.
Qed.

Lemma remove_char now p t t' :
  remove now p t = Ok t' ->
  forall q,
    (exists r, q = p ++ r /\ resolve q t' = Err (FsError ENOENT))
    \/ resolve q t' = resolve q t
    \/ (strict_prefix q p /\ still_dir q t t').
Proof.
  revert t t'. induction p as [|x p IH]; intros t t' H q; [done|].
  cbn in H. destruct t as [|tm l es|]; [done| |done].
  destruct (es !! x) as [c|] eqn:Hx; [|done].
  destruct p as [|z p].
  - injection H as <-. destruct q as [|y q].
    { right. right. split; [apply strict_prefix_nil|apply still_dir_here]. }
    destruct (decide (y = x)) as [->|Hy].
    + left. exists q. split; [done|]. cbn. by rewrite lookup_delete_eq.
    + right. left. cbn. by rewrite lookup_delete_ne.
  - destruct (remove now (z :: p) c) as [c'|] eqn:Hc; [|done]. cbn in H.
    injection H as <-. destruct q as [|y q].
    { right. right. split; [apply strict_prefix_nil|apply still_dir_here]. }
    destruct (decide (y = x)) as [->|Hy].
    + cbn [resolve]. rewrite lookup_insert_eq, Hx.
      destruct (IH c c' Hc q) as [(r & -> & Hr)|[Hr|[Hs Hd]]].
      * left. by exists r.
      * by right; left.
      * right. right. split; [by apply strict_prefix_cons|].
        by eapply still_dir_cons.
    + right. left. cbn. by rewrite lookup_insert_ne.
Qed.

Lemma mkdirp_char now p t t' :
  mkdirp now p t = Ok t' ->
  forall q,
    resolve q t' = resolve q t
    \/ (q `prefix_of` p /\ resolve q t = Err (FsError ENOENT)
        /\ exists tm es, resolve q t' = Ok (Dir tm true es))
    \/ (strict_prefix q p /\ still_dir q t t').
Proof.
  revert t t'. induction p as [|x p IH]; intros t t' H q.
  { destruct t; cbn in H; try done. injection H as <-. by left. }
  destruct t as [|tm l es|]; [done| |done]. cbn in H.
  destruct (es !! x) as [c|] eqn:Hx.
  - destruct (mkdirp now p c) as [c'|] eqn:Hc; [|done]. cbn in H. injection H as <-.
    destruct q as [|y q].
    { right. right. split; [apply strict_prefix_nil|apply still_dir_here]. }
    destruct (decide (y = x)) as [->|Hy].
    + cbn. rewrite lookup_insert_eq, Hx.
      destruct (IH c c' Hc q) as [Hr|[(Hpre & Hr & Hn)|[Hs Hd]]].
      * by left.
      * right. left. split; [by apply prefix_cons|]. done.
      * right. right. split; [by apply strict_prefix_cons|].
        by eapply still_dir_cons.
    + left. cbn. by rewrite lookup_insert_ne.
  - destruct (mkdirp now p (empty_dir now)) as [c'|] eqn:Hc; [|done]. cbn in H.
    injection H as <-. destruct q as [|y q].
    { right. right. split; [apply strict_prefix_nil|apply still_dir_here]. }
    destruct (decide (y = x)) as [->|Hy].
    + cbn. rewrite lookup_insert_eq, Hx.
      destruct (IH _ c' Hc q) as [Hr|[(Hpre & Hr & Hn)|[Hs Hd]]].
      * rewrite Hr. destruct q as [|z q].
        -- right. left. split; [apply prefix_cons, prefix_nil|]. split; [done|].
           by eexists _, _.
        -- by left.
      * right. left. split; [by apply prefix_cons|]. done.
      * destruct Hd as (t1 & t2 & l' & e1 & e2 & H1 & H2).
        destruct q as [|z q]; [|done]. injection H1 as <- <- <-.
        right. left. split; [apply prefix_cons, prefix_nil|]. split; [done|].
        by eexists _, _.
    + left. cbn. by rewrite lookup_insert_ne.
Qed.

Lemma resolve_below_leaf c r : node_kind c <> KDir -> r <> [] -> forall c', resolve r c <> Ok c'.
Proof. intros Hc Hr c'. destruct r; [done|]. by destruct c. Qed.

Lemma resolve_set_times tms c r : r <> [] -> resolve r (set_times tms c) = resolve r c.
Proof. intros Hr. destruct r; [done|]. by destruct c. Qed.

Lemma agree_eq q t t' : resolve q t' = resolve q t -> agree q t t'.
Proof. intros H c. by rewrite H. Qed.

Lemma agree_neither q t t' :
  (forall c, resolve q t <> Ok c) -> (forall c, resolve q t' <> Ok c) -> agree q t t'.
Proof. intros H H' c. split; intros Hc; [by destruct (H c)|by destruct (H' c)]. Qed.

Lemma mkdirp_creates now p t t' : mkdirp now p t = Ok t' -> creates p t t'.
Proof.
  intros H q. destruct (mkdirp_char now p t t' H q) as [Hr|[(Hp & Hr & Hn)|Hs]].
  - left. by apply agree_eq.
  - right. left. split; [done|]. split; [|done]. intros c. congruence.
  - by right; right.
Qed.

Lemma mkdirp_is_dir now p t t' :
  mkdirp now p t = Ok t' -> exists tm l es, resolve p t' = Ok (Dir tm l es).
Proof.
  revert t t'. induction p as [|x p IH]; intros t t' H.
  { destruct t; cbn in H; try done. injection H as <-. by eexists _, _, _. }
  destruct t as [|tm l es|]; [done| |done]. cbn in H.
  destruct (es !! x) as [c|] eqn:Hx.
  - destruct (mkdirp now p c) as [c'|] eqn:Hc; [|done]. cbn in H. injection H as <-.
    cbn. rewrite lookup_insert_eq. by eapply IH.
  - destruct (mkdirp now p (empty_dir now)) as [c'|] eqn:Hc; [|done]. cbn in H.
    injection H as <-. cbn. rewrite lookup_insert_eq. by eapply IH.
Qed.

Lemma put_at now p new t t' : put now p new t = Ok t' -> resolve p t' = Ok new.
Proof.
  intros H. destruct (put_char now p new t t' H p) as [(r & Hr & Hq)|[Hq|[(r & Hr & Hp) _]]].
  - assert (r = []) as -> by (by apply (app_inv_head p); rewrite app_nil_r).
    by rewrite Hq.
  - revert t t' H Hq. induction p as [|x p IH]; intros t t' H Hq.
    + cbn in H. by injection H as <-.
    + cbn in H. destruct t as [|tm l es|]; [done| |done].
      destruct (es !! x) as [c|] eqn:Hx.
      * destruct (put now p new c) as [c'|] eqn:Hc; [|done]. cbn in H. injection H as <-.
        cbn. rewrite lookup_insert_eq.
        destruct (put_char now p new c c' Hc p) as [(r & Hr & Hq')|[Hq'|[(r & Hr & Hp) _]]].
        -- assert (r = []) as -> by (by apply (app_inv_head p); rewrite app_nil_r).
           by rewrite Hq'.
        -- by eapply IH.
        -- exfalso. apply Hr. apply (app_inv_head p). by rewrite app_nil_r.
      * destruct p; [|done]. injection H as <-. cbn. by rewrite lookup_insert_eq.
  - exfalso. apply Hr. apply (app_inv_head p). by rewrite app_nil_r.
Qed.

Lemma write_file_touches now p d t t' :
  write_file now p d t = Ok t' ->
  touches p t t' /\ exists tm, resolve p t' = Ok (File tm d).
Proof.
  unfold write_file. intros H.
  assert (exists tm, put now p (File tm d) t = Ok t'
            /\ forall r c, r <> [] -> resolve (p ++ r) t <> Ok c) as (tm & Hput & Hbelow).
  { destruct (resolve p t) as [[tm0 d0| |]|e] eqn:Hp; try done.
    - eexists. split; [exact H|]. intros r c Hr. rewrite resolve_app, Hp.
      by apply resolve_below_leaf.
    - destruct e as [[]| | |]; try done. eexists. split; [exact H|].
      intros r c Hr. by rewrite resolve_app, Hp. }
  split; [|exists tm; by eapply put_at].
  intros q. destruct (put_char _ _ _ _ _ Hput q) as [(r & -> & Hq)|[Hq|Hs]].
  - destruct r as [|y r]; [left; by rewrite app_nil_r|].
    right. left. apply agree_neither; [intros c; by apply Hbelow|].
    intros c. rewrite Hq. done.
  - right. left. by apply agree_eq.
  - by right; right.
Qed.

Lemma copy_file_touches now src dst t t' :
  copy_file now src dst t = Ok t' ->
  touches dst t t' /\
  exists ts d tm, resolve src t = Ok (File ts d) /\ resolve dst t' = Ok (File tm d).
Proof.
  unfold copy_file, read_file. intros H.
  destruct (resolve src t) as [[ts d| |]|] eqn:Hs; try done. cbn in H.
  apply write_file_touches in H as [Ht [tm Hd]]. split; [done|]. by exists ts, d, tm.
Qed.

Lemma set_utimes_touches now p a m t t' :
  set_utimes now p a m t = Ok t' ->
  touches p t t' /\
  exists c, resolve p t = Ok c /\ resolve p t' = Ok (set_times (Times m a) c).
Proof.
  unfold set_utimes. intros H. destruct (resolve p t) as [c|] eqn:Hp; [|done]. cbn in H.
  split; [|exists c; split; [done|by eapply put_at]].
  intros q. destruct (put_char _ _ _ _ _ H q) as [(r & -> & Hq)|[Hq|Hs]].
  - destruct r as [|y r]; [left; by rewrite app_nil_r|].
    right. left. apply agree_eq. rewrite Hq, resolve_app, Hp.
    by apply resolve_set_times.
  - right. left. by apply agree_eq.
  - by right; right.
Qed.

Lemma remove_at now p t t' : remove now p t = Ok t' -> forall c, resolve p t' <> Ok c.
Proof.
  revert t t'. induction p as [|x p IH]; intros t t' H c; [done|].
  cbn in H. destruct t as [|tm l es|]; [done| |done].
  destruct (es !! x) as [cx|] eqn:Hx; [|done]. destruct p as [|z p].
  - injection H as <-. cbn. by rewrite lookup_delete_eq.
  - destruct (remove now (z :: p) cx) as [c'|] eqn:Hc; [|done]. cbn in H.
    injection H as <-. cbn [resolve]. rewrite lookup_insert_eq. by eapply IH.
Qed.

Lemma unlink_file_touches now p t t' :
  unlink_file now p t = Ok t' ->
  touches p t t' /\ (forall c, resolve p t' <> Ok c)
  /\ exists c, resolve p t = Ok c /\ node_kind c <> KDir.
Proof.
  unfold unlink_file. intros H. destruct (resolve p t) as [c|] eqn:Hp; [|done]. cbn in H.
  assert (node_kind c <> KDir /\ remove now p t = Ok t') as [Hk Hr] by by destruct c.
  split; [|split; [by eapply remove_at|by exists c]].
  intros q. destruct (remove_char _ _ _ _ Hr q) as [(r & -> & Hq)|[Hq|Hs]].
  - destruct r as [|y r]; [left; by rewrite app_nil_r|].
    right. left. apply agree_neither.
    + intros c'. rewrite resolve_app, Hp. by apply resolve_below_leaf.
    + intros c'. by rewrite Hq.
  - right. left. by apply agree_eq.
  - by right; right.
Qed.

Lemma remove_dir_touches now p t t' :
  remove_dir now p t = Ok t' ->
  touches p t t' /\ exists tm l es, resolve p t = Ok (Dir tm l es).
Proof.
  unfold remove_dir. intros H. destruct (resolve p t) as [c|] eqn:Hp; [|done]. cbn in H.
  destruct c as [|tm l es|]; [done| |done]. case_bool_decide as He; [|done]. subst es.
  split; [|by eexists _, _, _].
  intros q. destruct (remove_char _ _ _ _ H q) as [(r & -> & Hq)|[Hq|Hs]].
  - destruct r as [|y r]; [left; by rewrite app_nil_r|].
    right. left. apply agree_neither.
    + intros c'. rewrite resolve_app, Hp. cbn. by rewrite lookup_empty.
    + intros c'. by rewrite Hq.
  - right. left. by apply agree_eq.
  - by right; right.
Qed.

Lemma touches_leaf p t t' q c :
  touches p t t' -> q <> p -> node_kind c <> KDir ->
  resolve q t = Ok c <-> resolve q t' = Ok c.
Proof.
  intros Ht Hq Hc. destruct (Ht q) as [->|[Ha|[_ Hd]]]; [done|apply Ha|].
  destruct Hd as (t1 & t2 & l & e1 & e2 & H1 & H2). rewrite H1, H2.
  split; intros [= <-]; done.
Qed.

Lemma touches_dir p t t' q l :
  touches p t t' -> q <> p ->
  (exists tm es, resolve q t = Ok (Dir tm l es))
  <-> (exists tm es, resolve q t' = Ok (Dir tm l es)).
Proof.
  intros Ht Hq. destruct (Ht q) as [->|[Ha|[_ Hd]]]; [done| |].
  - split; intros (tm & es & H); exists tm, es; by apply Ha.
  - destruct Hd as (t1 & t2 & l' & e1 & e2 & H1 & H2). rewrite H1, H2.
    split; intros (tm & es & [= _ <- _]); by eexists _, _.
Qed.

Lemma touches_apart p t t' q :
  touches p t t' -> ~ q `prefix_of` p -> agree q t t'.
Proof.
  intros Ht Hq. destruct (Ht q) as [->|[Ha|[(r & _ & ->) _]]]; [|done|].
  - by destruct Hq.
  - destruct Hq. by apply prefix_app_r.
Qed.

Lemma creates_leaf p t t' q c :
  creates p t t' -> node_kind c <> KDir ->
  resolve q t = Ok c <-> resolve q t' = Ok c.
Proof.
  intros Ht Hc. destruct (Ht q) as [Ha|[(_ & Hn & tm & es & Hd)|[_ Hd]]]; [apply Ha| |].
  - split; [intros H; by destruct (Hn c)|]. rewrite Hd. by intros [= <-].
  - destruct Hd as (t1 & t2 & l & e1 & e2 & H1 & H2). rewrite H1, H2.
    split; intros [= <-]; done.
Qed.

Lemma creates_dir_back p t t' q tm l es :
  creates p t t' -> resolve q t' = Ok (Dir tm l es) ->
  (exists tm0 es0, resolve q t = Ok (Dir tm0 l es0)) \/ (l = true /\ q `prefix_of` p).
Proof.
  intros Ht H. destruct (Ht q) as [Ha|[(Hp & Hn & tm1 & es1 & Hd)|[_ Hd]]].
  - left. exists tm, es. by apply Ha.
  - right. rewrite Hd in H. by injection H as _ <- _.
  - destruct Hd as (t1 & t2 & l' & e1 & e2 & H1 & H2). rewrite H2 in H.
    injection H as _ <- _. left. by eexists _, _.
Qed.

Lemma creates_dir_fwd p t t' q tm l es :
  creates p t t' -> resolve q t = Ok (Dir tm l es) ->
  exists tm' es', resolve q t' = Ok (Dir tm' l es').
Proof.
  intros Ht H. destruct (Ht q) as [Ha|[(Hp & Hn & _)|[_ Hd]]].
  - exists tm, es. by apply Ha.
  - by destruct (Hn (Dir tm l es)).
  - destruct Hd as (t1 & t2 & l' & e1 & e2 & H1 & H2). rewrite H1 in H.
    injection H as _ <- _. by eexists _, _.
Qed.

Lemma creates_apart p t t' q :
  creates p t t' -> ~ q `prefix_of` p -> agree q t t'.
Proof.
  intros Ht Hq. destruct (Ht q) as [Ha|[(Hp & _)|[(r & _ & ->) _]]]; [done|done|].
  destruct Hq. by apply prefix_app_r.
Qed.

End FrameFacts.

Module IdemFacts.
Import JS Pattern FS IO Engine Walk Run Frame Idem.
Import FSFacts WalkFacts MonadFacts StepFacts SyncFacts CleanupFacts FrameFacts.

Lemma writing_ok c f w w' :
  writing c f w = (Ok tt, w') ->
  f (clock w) (root w) = Ok (root w').
Proof.
  unfold writing. destruct (f (clock w) (root w)) as [r|e]; [|done].
  by intros [= <-].
Qed.

Lemma fs_mkdir_ok p w w' :
  fs_mkdir_recursive p w = (Ok tt, w') -> mkdirp (clock w) p (root w) = Ok (root w').
Proof. apply writing_ok. Qed.

Lemma fs_copyFile_ok src dst w w' :
  fs_copyFile src dst w = (Ok tt, w') ->
  copy_file (clock w) src dst (root w) = Ok (root w').
Proof. apply writing_ok. Qed.

Lemma fs_utimes_ok p a m w w' :
  fs_utimes p a m w = (Ok tt, w') -> set_utimes (clock w) p a m (root w) = Ok (root w').
Proof. apply writing_ok. Qed.

Lemma fs_unlink_ok p w w' :
  fs_unlink p w = (Ok tt, w') -> unlink_file (clock w) p (root w) = Ok (root w').
Proof. apply writing_ok. Qed.

Lemma fs_rmdir_ok p w w' :
  fs_rmdir p w = (Ok tt, w') -> remove_dir (clock w) p (root w) = Ok (root w').
Proof. apply writing_ok. Qed.

Lemma reading_root {A} c (f : node -> result A) w r w' :
  reading c f w = (r, w') -> r = f (root w) /\ root w' = root w.
Proof. unfold reading. by intros [= <- <-]. Qed.

Lemma log_root self m w : root (logged self m w) = root w.
Proof. done. Qed.

Lemma apart_source_dest S D q rel :
  apart S D -> ~ (S ++ q) `prefix_of` (D ++ rel).
Proof.
  intros [H1 H2] Hp.
  assert (S `prefix_of` D ++ rel) as HS by (etrans; [apply prefix_app_r; reflexivity|exact Hp]).
  assert (D `prefix_of` D ++ rel) as HD by (apply prefix_app_r; reflexivity).
  destruct (prefix_weak_total _ _ _ HS HD); done.
Qed.

Lemma agree_trans q t1 t2 t3 : agree q t1 t2 -> agree q t2 t3 -> agree q t1 t3.
Proof. intros H1 H2 c. etrans; [apply H1|apply H2]. Qed.

Lemma kept_touch S D t1 sf df t t' rel :
  apart S D ->
  kept S D t1 sf df t -> touches (D ++ rel) t t' -> rel <> [] ->
  (forall tm l es, resolve (D ++ rel) t' <> Ok (Dir tm l es)) ->
  (forall tm d, resolve (D ++ rel) t' = Ok (File tm d) -> rel ∈ sf \/ rel ∈ df) ->
  kept S D t1 sf df t'.
Proof.
  intros Hap [Hs Hd Hl Hn Ho] Ht Hrel Hnd Hfile.
  assert (forall q l, D ++ q <> D ++ rel ->
    (exists tm es, resolve (D ++ q) t = Ok (Dir tm l es))
    <-> (exists tm es, resolve (D ++ q) t' = Ok (Dir tm l es))) as Hdir.
  { intros q l Hq. by apply touches_dir with (p := D ++ rel). }
  split.
  - intros q. eapply agree_trans; [apply Hs|].
    eapply touches_apart; [exact Ht|]. by apply apart_source_dest.
  - destruct Hd as (tm & l & es & Hd).
    destruct (proj1 (Hdir [] l ltac:(rewrite app_nil_r; intros Heq;
      apply Hrel; apply (app_inv_head D); by rewrite app_nil_r))) as (tm' & es' & H').
    { exists tm, es. by rewrite app_nil_r. }
    exists tm', l, es'. by rewrite app_nil_r in H'.
  - intros q tm l es Hq. destruct (decide (D ++ q = D ++ rel)) as [Heq|Hne].
    { rewrite Heq in Hq. by destruct (Hnd tm l es). }
    destruct (proj2 (Hdir q l Hne)) as (tm0 & es0 & H0); [by exists tm, es|].
    by eapply Hl.
  - intros f Hf tm l es Hq. destruct (decide (D ++ f = D ++ rel)) as [Heq|Hne].
    { rewrite Heq in Hq. by destruct (Hnd tm l es). }
    destruct (proj2 (Hdir f l Hne)) as (tm0 & es0 & H0); [by exists tm, es|].
    by eapply Hn.
  - intros h tm d Hq. destruct (decide (D ++ h = D ++ rel)) as [Heq|Hne].
    { apply app_inv_head in Heq as ->. by eapply Hfile. }
    eapply Ho. by apply (touches_leaf _ _ _ (D ++ h) (File tm d) Ht Hne).
Qed.

Lemma kept_create S D t1 sf df t t' rel :
  apart S D ->
  kept S D t1 sf df t -> creates (D ++ rel) t t' ->
  (forall g, g ∈ sf -> ~ g `prefix_of` rel) ->
  kept S D t1 sf df t'.
Proof.
  intros Hap [Hs Hd Hl Hn Ho] Ht Hfree. split.
  - intros q. eapply agree_trans; [apply Hs|].
    eapply creates_apart; [exact Ht|]. by apply apart_source_dest.
  - destruct Hd as (tm & l & es & Hd).
    destruct (creates_dir_fwd _ _ _ _ _ _ _ Ht Hd) as (tm' & es' & H').
    by exists tm', l, es'.
  - intros q tm l es Hq.
    destruct (creates_dir_back _ _ _ _ _ _ _ Ht Hq) as [(tm0 & es0 & H0)|[-> _]]; [|done].
    by eapply Hl.
  - intros f Hf tm l es Hq.
    destruct (creates_dir_back _ _ _ _ _ _ _ Ht Hq) as [(tm0 & es0 & H0)|[_ Hp]].
    + by eapply Hn.
    + apply prefix_app_inv in Hp. by eapply Hfree.
  - intros h tm d Hq. eapply Ho. by apply (creates_leaf _ _ _ (D ++ h) (File tm d) Ht).
Qed.

Lemma synced_touch S D t t' rel f :
  apart S D -> synced S D t f -> touches (D ++ rel) t t' -> rel <> f ->
  synced S D t' f.
Proof.
  intros Hap (s & d & Hs & Hd & Hk & Hm & Hz) Ht Hne. exists s, d.
  split; [|split; [|done]].
  - by apply (touches_apart _ _ _ (S ++ f) Ht (apart_source_dest S D f rel Hap)).
  - apply (touches_leaf _ _ _ (D ++ f) d Ht); [|done|done].
    intros Heq. by apply app_inv_head in Heq.
Qed.

Lemma synced_create S D t t' rel f :
  apart S D -> synced S D t f -> creates (D ++ rel) t t' -> synced S D t' f.
Proof.
  intros Hap (s & d & Hs & Hd & Hk & Hm & Hz) Ht. exists s, d.
  split; [|split; [|done]].
  - by apply (creates_apart _ _ _ (S ++ f) Ht (apart_source_dest S D f rel Hap)).
  - by apply (creates_leaf _ _ _ (D ++ f) d Ht).
Qed.

Lemma found_prefix_free S D t1 sf df f g :
  found S D t1 sf df -> f ∈ sf -> g ∈ sf -> ~ g `prefix_of` removelast f.
Proof.
  intros [Hsf _] Hf Hg [r Hr].
  apply Hsf in Hf as (Hfne & tm & d & Hfr). apply Hsf in Hg as (_ & tm' & d' & Hgr).
  destruct (exists_last Hfne) as (f' & x & ->). rewrite removelast_last in Hr. subst f'.
  rewrite <- !app_assoc, app_assoc, resolve_app, Hgr in Hfr.
  destruct r; done.
Qed.

Lemma filesAreDifferent_run s d w :
  exists b,
    filesAreDifferent s d w = (Ok b, calls [Stat s; Stat d] w) /\
    (b = false <->
       exists sn dn, resolve s (root w) = Ok sn /\ resolve d (root w) = Ok dn /\
         st_mtime (stats_of sn) = st_mtime (stats_of dn) /\
         st_size (stats_of sn) = st_size (stats_of dn)).
Proof.
  unfold filesAreDifferent, try_catch, promise_all2, fs_stat, reading, calls, called.
  unfold mbind, M_bind, mret, M_ret. cbn [root clock trace console fst snd].
  destruct (resolve s (root w)) as [sn|e1] eqn:Es;
    destruct (resolve d (root w)) as [dn|e2] eqn:Ed; cbn;
    rewrite <- ?app_assoc; cbn [app].
  - eexists. split; [reflexivity|].
    rewrite orb_false_iff, !negb_false_iff, !Z.eqb_eq. split.
    + intros [Hm Hz]. by exists sn, dn.
    + by intros (? & ? & [= <-] & [= <-] & ? & ?).
  - exists true. split; [reflexivity|]. split; [done|]. by intros (? & ? & _ & ? & _).
  - exists true. split; [reflexivity|]. split; [done|]. by intros (? & ? & ? & _).
  - exists true. split; [reflexivity|]. split; [done|]. by intros (? & ? & ? & _).
Qed.

Lemma copyFile_ok src dst w w' :
  copyFile src dst w = (Ok tt, w') ->
  exists t2 t3 ts data tm,
    creates (dirname dst) (root w) t2 /\
    touches dst t2 t3 /\
    touches dst t3 (root w') /\
    resolve src t2 = Ok (File ts data) /\
    resolve dst t3 = Ok (File tm data) /\
    exists sn, resolve src t3 = Ok sn /\
      resolve dst (root w')
      = Ok (File (Times (st_mtime (stats_of sn)) (st_atime (stats_of sn))) data).
Proof.
  unfold copyFile. intros H.
  apply bind_ok in H as ([] & w2 & H2 & H). apply fs_mkdir_ok in H2 as Hmk.
  apply bind_ok in H as ([] & w3 & H3 & H). apply fs_copyFile_ok in H3 as Hcp.
  apply bind_ok in H as (st & w4 & H4 & H). apply fs_utimes_ok in H as Hut.
  apply reading_root in H4 as [Hst Hr4]. rewrite Hr4 in Hut.
  apply mkdirp_creates in Hmk.
  apply copy_file_touches in Hcp as (Htc & ts & data & tm & Hsrc & Hdst).
  apply set_utimes_touches in Hut as (Htu & c & Hc & Hc').
  destruct (resolve src (root w3)) as [sn|] eqn:Hsn; [|done]. cbn in Hst.
  injection Hst as ->.
  exists (root w2), (root w3), ts, data, tm.
  split; [done|]. split; [done|]. split; [done|]. split; [done|]. split; [done|].
  exists sn. split; [done|]. rewrite Hc'. rewrite Hdst in Hc. by injection Hc as <-.
Qed.

Lemma removelast_app_ne {A} (l1 l2 : list A) :
  l2 <> [] -> removelast (l1 ++ l2) = l1 ++ removelast l2.
Proof. intros H. by apply removelast_app. Qed.

Lemma copyStep_kept self S D t1 sf df f c s w c' s' w' :
  apart S D -> found S D t1 sf df -> f ∈ sf ->
  kept S D t1 sf df (root w) ->
  copyStep self S D f (c, s) w = (Ok (c', s'), w') ->
  kept S D t1 sf df (root w')
  /\ (forall g, synced S D (root w) g -> synced S D (root w') g)
  /\ (copy_excluded self f
      \/ (~ copy_excluded self f
          /\ matchesPattern (rel_string f) (Some (copyExclusions self)) = Ok false
          /\ synced S D (root w') f)).
Proof.
  intros Hap Hfound Hf Hk H. unfold copyStep in H.
  apply bind_ok in H as (b & w1 & H1 & H). apply lift_ok in H1 as [Hb ->].
  destruct b.
  { apply bind_ok in H as ([] & w2 & H2 & H). rewrite log_run in H2.
    injection H2 as <-. injection H as _ _ <-. split; [done|]. split; [done|]. by left. }
  apply bind_ok in H as (different & w2 & H2 & H).
  destruct (filesAreDifferent_run (S ++ f) (D ++ f) w) as (b & Hrun & Hfalse).
  rewrite Hrun in H2. injection H2 as <- <-.
  assert (~ copy_excluded self f) as Hnex by (unfold copy_excluded; congruence).
  destruct b.
  2:{ injection H as _ _ <-. split; [done|]. split; [done|]. right.
      split; [done|]. split; [done|].
      destruct (proj1 Hfalse eq_refl) as (sn & dn & Hs & Hd & Hm & Hz).
      exists sn, dn. split; [done|]. split; [done|]. split; [|done].
      intros Hdir. destruct dn as [|tm l es|]; [done| |done].
      by eapply (kept_no_dir _ _ _ _ _ _ Hk f Hf). }
  apply bind_ok in H as ([] & w3 & H3 & H).
  apply bind_ok in H as ([] & w4 & H4 & H). rewrite log_run in H4.
  injection H4 as <-. injection H as _ _ <-. rewrite log_root.
  apply copyFile_ok in H3 as (t2 & t3 & ts & data & tm & Hcr & Ht1 & Ht2 & Hsrc & Hdst
    & sn & Hsn & Hfin).
  cbn [root calls] in Hcr.
  assert (f <> []) as Hfne by (by apply (found_source _ _ _ _ _ Hfound)).
  unfold dirname in Hcr. rewrite removelast_app_ne in Hcr by done.
  assert (kept S D t1 sf df t2) as Hk2.
  { eapply kept_create; [done|exact Hk|exact Hcr|].
    intros g Hg. by eapply found_prefix_free. }
  assert (kept S D t1 sf df t3) as Hk3.
  { eapply kept_touch; [done|exact Hk2|exact Ht1|done| |].
    - intros tm' l es. by rewrite Hdst.
    - intros; by left. }
  assert (kept S D t1 sf df (root w3)) as Hk4.
  { eapply kept_touch; [done|exact Hk3|exact Ht2|done| |].
    - intros tm' l es. by rewrite Hfin.
    - intros; by left. }
  assert (synced S D (root w3) f) as Hsy.
  { exists sn, (File (Times (st_mtime (stats_of sn)) (st_atime (stats_of sn))) data).
    split.
    { by apply (touches_apart _ _ _ (S ++ f) Ht2 (apart_source_dest S D f f Hap)). }
    split; [done|]. split; [done|]. split; [done|].
    assert (resolve (S ++ f) t2 = Ok sn) as Hsn2.
    { by apply (touches_apart _ _ _ (S ++ f) Ht1 (apart_source_dest S D f f Hap)). }
    rewrite Hsrc in Hsn2. by injection Hsn2 as <-. }
  split; [done|]. split; [|by right].
  intros g Hg. destruct (decide (g = f)) as [->|Hne]; [done|].
  eapply synced_touch; [done| |exact Ht2|done].
  eapply synced_touch; [done| |exact Ht1|done].
  eapply synced_create; [done|exact Hg|exact Hcr].
Qed.

Lemma copy_loop_kept self S D t1 sf df l c s w c' s' w' :
  apart S D -> found S D t1 sf df -> (forall f, f ∈ l -> f ∈ sf) ->
  kept S D t1 sf df (root w) ->
  for_of l (copyStep self S D) (c, s) w = (Ok (c', s'), w') ->
  kept S D t1 sf df (root w')
  /\ (forall g, synced S D (root w) g -> synced S D (root w') g)
  /\ (forall f, f ∈ l -> copy_excluded self f
        \/ (~ copy_excluded self f
            /\ matchesPattern (rel_string f) (Some (copyExclusions self)) = Ok false
            /\ synced S D (root w') f)).
Proof.
  intros Hap Hfound. revert c s w. induction l as [|f l IH]; intros c s w Hl Hk H.
  - injection H as _ _ <-. split; [done|]. split; [done|].
    intros f Hf. by apply elem_of_nil in Hf.
  - cbn [for_of] in H. apply bind_ok in H as ([c1 s1] & w1 & H1 & H).
    eapply copyStep_kept in H1 as (Hk1 & Hs1 & Hf1); [|done|done|apply Hl; by left|done].
    apply IH in H as (Hk2 & Hs2 & Hf2); [|intros; apply Hl; by right|done].
    split; [done|]. split; [intros g Hg; by apply Hs2, Hs1|].
    intros g [->|Hg]%elem_of_cons; [|by apply Hf2].
    destruct Hf1 as [?|(? & ? & ?)]; [by left|right].
    split; [done|]. split; [done|]. by apply Hs2.
Qed.

Lemma touches_files_from D rel t t' :
  touches (D ++ rel) t t' -> (forall c, resolve (D ++ rel) t' <> Ok c) ->
  files_from D t t'.
Proof.
  intros Ht Hgone q tm d Hq. destruct (decide (D ++ q = D ++ rel)) as [Heq|Hne].
  - rewrite Heq in Hq. by destruct (Hgone (File tm d)).
  - by apply (touches_leaf _ _ _ (D ++ q) (File tm d) Ht Hne).
Qed.

Lemma deleteStep_kept self S D t1 sf df h n w n' w' :
  apart S D -> found S D t1 sf df -> h ∈ df ->
  kept S D t1 sf df (root w) ->
  deleteStep self D (list_to_set sf) h n w = (Ok n', w') ->
  kept S D t1 sf df (root w')
  /\ (forall g, g ∈ sf -> synced S D (root w) g -> synced S D (root w') g)
  /\ files_from D (root w) (root w')
  /\ (h ∈ sf \/ delete_excluded self h
      \/ forall tm d, resolve (D ++ h) (root w') <> Ok (File tm d)).
Proof.
  intros Hap Hfound Hh Hk H. unfold deleteStep in H.
  case_bool_decide as Hin.
  { injection H as _ <-. split; [done|]. split; [done|]. split; [by intros ? ? ?|].
    left. by apply elem_of_list_to_set in Hin. }
  apply bind_ok in H as (b & w1 & H1 & H). apply lift_ok in H1 as [Hb ->].
  destruct b.
  { apply bind_ok in H as ([] & w2 & H2 & H). rewrite log_run in H2.
    injection H2 as <-. injection H as _ <-.
    split; [done|]. split; [done|]. split; [by intros ? ? ?|]. right. by left. }
  apply bind_ok in H as ([] & w2 & H2 & H).
  apply bind_ok in H as ([] & w3 & H3 & H). rewrite log_run in H3.
  injection H3 as <-. injection H as _ <-. rewrite log_root.
  apply fs_unlink_ok, unlink_file_touches in H2 as (Ht & Hgone & c & Hc & Hkind).
  assert (h <> []) as Hne by (by apply (found_dest _ _ _ _ _ Hfound)).
  split; [|split; [|split]].
  - eapply kept_touch; [done|exact Hk|exact Ht|done| |].
    + intros tm l es Hd. by destruct (Hgone (Dir tm l es)).
    + intros tm d Hd. by destruct (Hgone (File tm d)).
  - intros g Hg Hsy. eapply synced_touch; [done|exact Hsy|exact Ht|].
    intros ->. apply Hin. by apply elem_of_list_to_set.
  - by eapply touches_files_from.
  - right. right. intros tm d Hd. by destruct (Hgone (File tm d)).
Qed.

Lemma delete_loop_kept self S D t1 sf df l n w n' w' :
  apart S D -> found S D t1 sf df -> (forall h, h ∈ l -> h ∈ df) ->
  kept S D t1 sf df (root w) ->
  for_of l (deleteStep self D (list_to_set sf)) n w = (Ok n', w') ->
  kept S D t1 sf df (root w')
  /\ (forall g, g ∈ sf -> synced S D (root w) g -> synced S D (root w') g)
  /\ files_from D (root w) (root w')
  /\ (forall h, h ∈ l -> h ∈ sf \/ delete_excluded self h
        \/ forall tm d, resolve (D ++ h) (root w') <> Ok (File tm d)).
Proof.
  intros Hap Hfound. revert n w. induction l as [|h l IH]; intros n w Hl Hk H.
  - injection H as _ <-. split; [done|]. split; [done|]. split; [by intros ? ? ?|].
    intros h Hh. by apply elem_of_nil in Hh.
  - cbn [for_of] in H. apply bind_ok in H as (n1 & w1 & H1 & H).
    eapply deleteStep_kept in H1 as (Hk1 & Hs1 & Hf1 & Hh1);
      [|done|done|apply Hl; by left|done].
    apply IH in H as (Hk2 & Hs2 & Hf2 & Hh2); [|intros; apply Hl; by right|done].
    split; [done|]. split; [intros g Hg Hsy; by apply Hs2, Hs1|].
    split; [intros q tm d Hq; by apply Hf1, Hf2|].
    intros g [->|Hg]%elem_of_cons; [|by apply Hh2].
    destruct Hh1 as [?|[?|Hgone]]; [by left|by right; left|].
    right. right. intros tm d Hd. apply Hf2 in Hd. by destruct (Hgone tm d).
Qed.

Lemma cleanupDirectory_kept self S D t1 sf df rel w w' :
  apart S D -> rel <> [] ->
  kept S D t1 sf df (root w) ->
  cleanupDirectory self D S rel w = (Ok tt, w') ->
  kept S D t1 sf df (root w')
  /\ (forall g, synced S D (root w) g -> synced S D (root w') g)
  /\ files_from D (root w) (root w').
Proof.
  intros Hap Hrel Hk H.
  destruct (cleanupDirectory_spec self D S rel w) as (w'' & Hrun & Hspec).
  rewrite Hrun in H. injection H as ->.
  assert (root w' = root w -> kept S D t1 sf df (root w')
    /\ (forall g, synced S D (root w) g -> synced S D (root w') g)
    /\ files_from D (root w) (root w')) as Hsame.
  { intros ->. split; [done|]. split; [done|]. by intros ? ? ?. }
  destruct (resolve (S ++ rel) (root w)); [by apply Hsame|].
  destruct (resolve (D ++ rel) (root w)) as [[|tm [] es|]|] eqn:Hd; try by apply Hsame.
  destruct (decide _) as [[-> Hne]|]; [|by apply Hsame].
  assert (remove_dir (clock w) (D ++ rel) (root w) = Ok (root w')) as Hrm.
  { unfold remove_dir. rewrite Hd. cbn. by rewrite bool_decide_eq_true_2. }
  pose proof (remove_at _ _ _ _ Hspec) as Hgone.
  apply remove_dir_touches in Hrm as [Ht _].
  split; [|split].
  - eapply kept_touch; [done|exact Hk|exact Ht|done| |].
    + intros tm' l es Hq. by destruct (Hgone (Dir tm' l es)).
    + intros tm' d Hq. by destruct (Hgone (File tm' d)).
  - intros g Hsy. eapply synced_touch; [done|exact Hsy|exact Ht|].
    intros ->. destruct Hsy as (s & d & _ & Hdg & Hkind & _).
    rewrite Hd in Hdg. by injection Hdg as <-.
  - by eapply touches_files_from.
Qed.

Lemma cleanup_loop_kept self S D t1 sf df l w w' :
  apart S D -> (forall rel, rel ∈ l -> rel <> []) ->
  kept S D t1 sf df (root w) ->
  for_of l (fun relativeDir _ => cleanupDirectory self D S relativeDir) tt w = (Ok tt, w') ->
  kept S D t1 sf df (root w')
  /\ (forall g, synced S D (root w) g -> synced S D (root w') g)
  /\ files_from D (root w) (root w').
Proof.
  intros Hap. revert w. induction l as [|rel l IH]; intros w Hl Hk H.
  - injection H as <-. split; [done|]. split; [done|]. by intros ? ? ?.
  - cbn [for_of] in H. apply bind_ok in H as ([] & w1 & H1 & H).
    eapply cleanupDirectory_kept in H1 as (Hk1 & Hs1 & Hf1); [|done|apply Hl; by left|done].
    apply IH in H as (Hk2 & Hs2 & Hf2); [|intros; apply Hl; by right|done].
    split; [done|]. split; [intros g Hsy; by apply Hs2, Hs1|].
    intros q tm d Hq. by apply Hf1, Hf2.
Qed.

End IdemFacts.

Module RunFacts.
Import JS Pattern FS IO Engine Walk Run Frame Idem.
Import FSFacts WalkFacts MonadFacts StepFacts SyncFacts CleanupFacts FrameFacts IdemFacts.

Lemma path_relative_self p : path_relative p p = [].
Proof. unfold path_relative. by rewrite drop_all. Qed.

Lemma listable_under D t n :
  resolve D t = Ok n ->
  listable_below n <-> forall q tm l es, resolve (D ++ q) t = Ok (Dir tm l es) -> l = true.
Proof.
  intros Hn. unfold listable_below. split; intros H q tm l es Hq.
  - rewrite resolve_app, Hn in Hq. by eapply H.
  - eapply (H q). by rewrite resolve_app, Hn.
Qed.

(** The walk of an existing root that returns. *)
Lemma walking_found emit P w l w' n :
  resolve P (root w) = Ok n ->
  walking (walk emit) P P w = (Ok l, w') ->
  root w' = root w /\ node_kind n = KDir /\ listable_below n /\
  forall q, q ∈ l <-> exists sub c, sub <> [] /\ resolve (P ++ sub) (root w) = Ok c
                        /\ q ∈ emit (node_kind c) sub.
Proof.
  intros Hn. unfold walking. rewrite Hn, path_relative_self. intros [= Hl <-].
  split; [done|].
  assert (node_kind n = KDir) as Hk.
  { destruct n as [|tm [] es|]; try done. }
  split; [done|]. pose proof (walk_spec emit n P [] Hk) as Hw. rewrite Hl in Hw.
  destruct Hw as [Hlist Hmem]. split; [done|]. intros q. rewrite Hmem.
  split; intros (sub & c & Hne & Hr & Hq); exists sub, c; (split; [done|]).
  - by rewrite resolve_app, Hn.
  - by rewrite resolve_app, Hn in Hr.
Qed.

(** The walk of a listable directory returns. *)
Lemma walking_run emit P w n :
  resolve P (root w) = Ok n -> node_kind n = KDir -> listable_below n ->
  exists l w', walking (walk emit) P P w = (Ok l, w') /\ root w' = root w.
Proof.
  intros Hn Hk Hl. unfold walking. rewrite Hn, path_relative_self.
  pose proof (walk_spec emit n P [] Hk) as Hw.
  destruct (walk emit n P []).1 as [l|e] eqn:E.
  - by eexists _, _.
  - destruct Hw as [_ Hw]. done.
Qed.

Lemma getFiles_gen P w : getFilesRecursively P P w = walking (walk emit_files) P P w.
Proof.
  unfold getFilesRecursively, walking.
  destruct (resolve P (root w)); [|done]. by rewrite walk_files_gen.
Qed.

Lemma getDirs_gen P w :
  getDirectoriesRecursively P P w = walking (walk emit_dirs) P P w.
Proof.
  unfold getDirectoriesRecursively, walking.
  destruct (resolve P (root w)); [|done]. by rewrite walk_dirs_gen.
Qed.

Lemma walking_fst walker P w1 w2 :
  resolve P (root w1) = resolve P (root w2) ->
  (walking walker P P w1).1 = (walking walker P P w2).1.
Proof.
  unfold walking. intros ->. by destruct (resolve P (root w2)) as [n|[[]| | |]].
Qed.

Lemma getFiles_found P w l w' n :
  resolve P (root w) = Ok n ->
  getFilesRecursively P P w = (Ok l, w') ->
  root w' = root w /\ node_kind n = KDir /\ listable_below n /\
  forall f, f ∈ l <-> f <> [] /\ exists tm d, resolve (P ++ f) (root w) = Ok (File tm d).
Proof.
  intros Hn H. rewrite getFiles_gen in H.
  destruct (walking_found _ _ _ _ _ _ Hn H) as (Hr & Hk & Hl & Hmem).
  split; [done|]. split; [done|]. split; [done|]. intros f. rewrite Hmem. split.
  - intros (sub & c & Hne & Hc & Hf). destruct c as [tm d| |]; cbn in Hf;
      try by apply elem_of_nil in Hf.
    apply list_elem_of_singleton in Hf as ->. split; [done|]. by exists tm, d.
  - intros (Hne & tm & d & Hf). exists f, (File tm d). split; [done|]. split; [done|].
    cbn. by apply list_elem_of_singleton.
Qed.

Lemma getDirs_found P w l w' n :
  resolve P (root w) = Ok n ->
  getDirectoriesRecursively P P w = (Ok l, w') ->
  root w' = root w /\ forall q, q ∈ l -> q <> [].
Proof.
  intros Hn H. rewrite getDirs_gen in H.
  destruct (walking_found _ _ _ _ _ _ Hn H) as (Hr & Hk & Hl & Hmem).
  split; [done|]. intros q Hq. apply Hmem in Hq as (sub & c & Hne & Hc & Hq).
  destruct c; cbn in Hq; try by apply elem_of_nil in Hq.
  by apply list_elem_of_singleton in Hq as ->.
Qed.

Lemma cleanup_ok self D S w w' :
  cleanupEmptyDirectories self D S w = (Ok tt, w') ->
  exists dirs w1,
    getDirectoriesRecursively D D w = (Ok dirs, w1) /\
    for_of (sort by_depth dirs)
      (fun relativeDir _ => cleanupDirectory self D S relativeDir) tt w1 = (Ok tt, w').
Proof.
  unfold cleanupEmptyDirectories. intros H.
  apply bind_ok in H as (dirs & w1 & H1 & H). by exists dirs, w1.
Qed.

(** What a run that returns leaves behind. *)
Lemma first_run self S D w r w' st :
  apart S D ->
  (forall f tm d, resolve (S ++ f) (root w) = Ok (File tm d) ->
     forall tm' l es, resolve (D ++ f) (root w) <> Ok (Dir tm' l es)) ->
  staged self S D w r w' st ->
  exists t1 nS,
    found S D t1 (sourceFiles st) (destFiles st) /\
    kept S D t1 (sourceFiles st) (destFiles st) (root w') /\
    resolve S t1 = Ok nS /\
    (getFilesRecursively S S (after_mkdir st)).1 = Ok (sourceFiles st) /\
    root (after_mkdir st) = t1 /\
    (forall f, f ∈ sourceFiles st -> copy_excluded self f
       \/ (~ copy_excluded self f
           /\ matchesPattern (rel_string f) (Some (copyExclusions self)) = Ok false
           /\ synced S D (root w') f)) /\
    (forall h tm d, resolve (D ++ h) (root w') = Ok (File tm d) ->
       h ∈ sourceFiles st \/ delete_excluded self h).
Proof.
  intros Hap Hnodir ((c & Hc) & Hmk & (w2 & Hsf & Hdf) & Hcopy & Hdel & Hclean & ->).
  destruct st as [w1 sf df w3 w4 w5 w6]. cbn [after_mkdir sourceFiles destFiles
    after_walks after_copy after_delete after_cleanup] in *.
  apply fs_mkdir_ok in Hmk. cbn [root clock called logged] in Hmk.
  pose proof (mkdirp_creates _ _ _ _ Hmk) as Hcr.
  destruct (mkdirp_is_dir _ _ _ _ Hmk) as (tmD & lD & esD & HD).
  assert (forall q, agree (S ++ q) (root w) (root w1)) as Hsrc.
  { intros q. eapply creates_apart; [exact Hcr|].
    pose proof (apart_source_dest S D q [] Hap) as H. by rewrite app_nil_r in H. }
  assert (resolve S (root w1) = Ok c) as HS.
  { specialize (Hsrc []). rewrite app_nil_r in Hsrc. by apply Hsrc. }
  pose proof Hsf as Hsf0.
  apply (getFiles_found _ _ _ _ _ HS) in Hsf as (Hr2 & _ & _ & Hsfm).
  rewrite <- Hr2 in HD.
  apply (getFiles_found _ _ _ _ _ HD) in Hdf as (Hr3 & _ & HlD & Hdfm).
  rewrite Hr2 in HD, Hr3, Hdfm.
  assert (found S D (root w1) sf df) as Hfound by by split.
  assert (kept S D (root w1) sf df (root w3)) as Hk3.
  { rewrite Hr3. split.
    - intros q c'. done.
    - by exists tmD, lD, esD.
    - by apply (listable_under D (root w1) _ HD).
    - intros f Hf tm l es Hq. apply Hsfm in Hf as (Hne & tm' & d & Hf).
      destruct (creates_dir_back _ _ _ _ _ _ _ Hcr Hq) as [(tm0 & es0 & H0)|[_ Hp]].
      + eapply Hnodir; [|exact H0]. by apply Hsrc.
      + apply Hne. apply prefix_length in Hp. rewrite length_app in Hp.
        destruct f; [done|]. cbn in Hp. lia.
    - intros h tm d Hq. right. apply Hdfm. split; [|by exists tm, d].
      intros ->. rewrite app_nil_r in Hq. congruence. }
  eapply copy_loop_kept in Hcopy as (Hk4 & Hs4 & Hf4); [|done|done|done|done].
  eapply delete_loop_kept in Hdel as (Hk5 & Hs5 & Hfrom5 & Hh5); [|done|done|done|done].
  apply cleanup_ok in Hclean as (dirs & w5' & Hdirs & Hloop).
  destruct (kept_dest_dir _ _ _ _ _ _ Hk5) as (tm5 & l5 & es5 & HD5).
  apply (getDirs_found _ _ _ _ _ HD5) in Hdirs as (Hr5 & Hne).
  rewrite <- Hr5 in Hk5.
  eapply cleanup_loop_kept in Hloop as (Hk6 & Hs6 & Hfrom6); [|done| |done].
  2:{ intros rel Hrel. apply Hne. by rewrite <- (sort_perm by_depth dirs). }
  rewrite Hr5 in Hs6, Hfrom6.
  exists (root w1), c. rewrite log_root.
  split; [done|]. split; [done|]. split; [done|]. split; [by rewrite Hsf0|].
  split; [done|]. split.
  - intros f Hf. destruct (Hf4 f Hf) as [?|(? & ? & Hsy)]; [by left|right].
    split; [done|]. split; [done|]. by apply Hs6, Hs5.
  - intros h tm d Hq. apply Hfrom6 in Hq.
    destruct (kept_origin _ _ _ _ _ _ Hk5 h tm d) as [?|Hdf]; [by rewrite Hr5|by left|].
    destruct (Hh5 h Hdf) as [?|[?|Hgone]]; [by left|by right|].
    by destruct (Hgone tm d).
Qed.

Lemma mkdirp_existing now p t tm l es :
  resolve p t = Ok (Dir tm l es) -> mkdirp now p t = Ok t.
Proof.
  revert t. induction p as [|x p IH]; intros t H.
  - cbn in H. by injection H as ->.
  - cbn in H. destruct t as [|tm0 l0 es0|]; [done| |done]. cbn.
    destruct (es0 !! x) as [c|] eqn:Hx; [|done].
    rewrite (IH c H). cbn. by rewrite insert_id.
Qed.

Lemma copy_loop_again self S D l c s w :
  (forall f, f ∈ l -> copy_excluded self f
     \/ (~ copy_excluded self f
         /\ matchesPattern (rel_string f) (Some (copyExclusions self)) = Ok false
         /\ synced S D (root w) f)) ->
  exists w', for_of l (copyStep self S D) (c, s) w
             = (Ok (c, s + length (filter (copy_excluded self) l)), w')
             /\ root w' = root w.
Proof.
  revert s w. induction l as [|f l IH]; intros s w H.
  - exists w. cbn. by rewrite Nat.add_0_r.
  - cbn [for_of]. rewrite filter_cons.
    destruct (H f) as [Hex|(Hnex & Hpat & s0 & d0 & Hs & Hd & Hk & Hm & Hz)]; [by left| |].
    + rewrite decide_True by done. erewrite bind_run by by apply copyStep_excluded.
      destruct (IH (Datatypes.S s) (logged self (SkippingCopy f) w)) as (w' & Hrun & Hroot).
      { intros g Hg. apply H. by right. }
      exists w'. rewrite Hrun. cbn [length]. split; [|done]. do 3 f_equal. lia.
    + rewrite decide_False by done.
      destruct (filesAreDifferent_run (S ++ f) (D ++ f) w) as (b & Hrun & Hfalse).
      assert (b = false) as -> by (apply Hfalse; by exists s0, d0).
      erewrite bind_run.
      2:{ unfold copyStep. erewrite bind_run by (rewrite lift_run, Hpat; done).
          cbn match. erewrite bind_run by exact Hrun. done. }
      destruct (IH s (calls [Stat (S ++ f); Stat (D ++ f)] w)) as (w' & Hloop & Hroot).
      { intros g Hg. apply H. by right. }
      exists w'. by rewrite Hloop.
Qed.

Lemma delete_loop_again self D sf l n w :
  (forall h, h ∈ l -> h ∈ sf \/ delete_excluded self h) ->
  exists w', for_of l (deleteStep self D (list_to_set sf)) n w = (Ok n, w')
             /\ root w' = root w.
Proof.
  revert w. induction l as [|h l IH]; intros w H; [by exists w|].
  cbn [for_of].
  assert (exists w1, deleteStep self D (list_to_set sf) h n w = (Ok n, w1)
                     /\ root w1 = root w) as (w1 & Hstep & Hroot).
  { destruct (decide (h ∈ sf)) as [Hin|Hnin].
    - exists w. unfold deleteStep. rewrite bool_decide_eq_true_2; [done|].
      by apply elem_of_list_to_set.
    - destruct (H h) as [?|Hex]; [by left|done|].
      eexists. split; [apply deleteStep_excluded; [|done]|done].
      by rewrite elem_of_list_to_set. }
  erewrite bind_run by exact Hstep.
  destruct (IH w1) as (w' & Hloop & Hroot'); [intros g Hg; apply H; by right|].
  exists w'. split; [done|]. congruence.
Qed.

Lemma copy_loop_patterns self S D l cs w cs' w' :
  for_of l (copyStep self S D) cs w = (Ok cs', w') ->
  forall f, f ∈ l -> copy_excluded self f
     \/ matchesPattern (rel_string f) (Some (copyExclusions self)) = Ok false.
Proof.
  revert cs w. induction l as [|g l IH]; intros [c s] w H f Hf.
  - by apply elem_of_nil in Hf.
  - cbn [for_of] in H. apply bind_ok in H as ([c1 s1] & w1 & H1 & H).
    apply elem_of_cons in Hf as [->|Hf]; [|by eapply IH].
    apply copyStep_ok in H1 as [(? & _)|(? & _)]; [by left|by right].
Qed.

Lemma cleanup_loop_same self D S l w w' :
  (forall rel, rel ∈ l -> exists c, resolve (S ++ rel) (root w) = Ok c) ->
  for_of l (fun relativeDir _ => cleanupDirectory self D S relativeDir) tt w = (Ok tt, w') ->
  root w' = root w.
Proof.
  revert w. induction l as [|rel l IH]; intros w Hl H.
  - by injection H as <-.
  - cbn [for_of] in H. apply bind_ok in H as ([] & w1 & H1 & H).
    destruct (cleanupDirectory_spec self D S rel w) as (w1' & Hrun & Hspec).
    rewrite Hrun in H1. injection H1 as ->.
    destruct (Hl rel) as [c Hc]; [by left|]. rewrite Hc in Hspec.
    rewrite <- Hspec. apply IH; [|done]. intros r Hr. rewrite Hspec. apply Hl. by right.
Qed.

Lemma mkdirp_on_dir now p t t' c :
  mkdirp now p t = Ok t' -> resolve p t = Ok c -> t' = t.
Proof.
  intros Hmk Hc.
  destruct (mkdirp_is_dir _ _ _ _ Hmk) as (tmD & lD & esD & HD).
  assert (exists tm l es, c = Dir tm l es) as (tm & l & es & ->).
  { destruct (mkdirp_creates _ _ _ _ Hmk p)
      as [Hag|[(_ & Hno & _)|(_ & (tm & tm' & l & es & es' & H1 & H2))]].
    - apply Hag in Hc. rewrite HD in Hc. injection Hc as <-. by eexists _, _, _.
    - by destruct (Hno c).
    - rewrite Hc in H1. injection H1 as ->. by eexists _, _, _. }
  rewrite (mkdirp_existing _ _ _ _ _ _ Hc) in Hmk. by injection Hmk as <-.
Qed.

(** A run of a tree onto itself changes nothing. *)
Lemma first_run_self self S w r w' st :
  staged self S S w r w' st ->
  exists t1 nS,
    found S S t1 (sourceFiles st) (destFiles st) /\
    kept S S t1 (sourceFiles st) (destFiles st) (root w') /\
    resolve S t1 = Ok nS /\
    (getFilesRecursively S S (after_mkdir st)).1 = Ok (sourceFiles st) /\
    root (after_mkdir st) = t1 /\
    (forall f, f ∈ sourceFiles st -> copy_excluded self f
       \/ (~ copy_excluded self f
           /\ matchesPattern (rel_string f) (Some (copyExclusions self)) = Ok false
           /\ synced S S (root w') f)) /\
    (forall h tm d, resolve (S ++ h) (root w') = Ok (File tm d) ->
       h ∈ sourceFiles st \/ delete_excluded self h).
Proof.
  intros ((c & Hc) & Hmk & (w2 & Hsf & Hdf) & Hcopy & Hdel & Hclean & ->).
  destruct st as [w1 sf df w3 w4 w5 w6]. cbn [after_mkdir sourceFiles destFiles
    after_walks after_copy after_delete after_cleanup] in *.
  apply fs_mkdir_ok in Hmk. cbn [root clock called logged] in Hmk.
  pose proof (mkdirp_on_dir _ _ _ _ _ Hmk Hc) as Hr1.
  assert (resolve S (root w1) = Ok c) as HS by by rewrite Hr1.
  pose proof Hsf as Hsf0.
  apply (getFiles_found _ _ _ _ _ HS) in Hsf as (Hr2 & Hkind & Hlist & Hsfm).
  rewrite <- Hr2 in HS.
  apply (getFiles_found _ _ _ _ _ HS) in Hdf as (Hr3 & _ & _ & Hdfm).
  rewrite Hr2 in HS, Hr3, Hdfm.
  assert (forall f, f ∈ sf -> synced S S (root w1) f) as Hsy.
  { intros f (_ & tm & d & Hf)%Hsfm. by exists (File tm d), (File tm d). }
  pose proof (copy_loop_patterns _ _ _ _ _ _ _ _ Hcopy) as Hpat.
  assert (forall f, f ∈ sf -> copy_excluded self f
       \/ (~ copy_excluded self f
           /\ matchesPattern (rel_string f) (Some (copyExclusions self)) = Ok false
           /\ synced S S (root w1) f)) as Hagain.
  { intros f Hf. destruct (Hpat f Hf) as [?|Hfalse]; [by left|right].
    split; [unfold copy_excluded; congruence|]. split; [done|by apply Hsy]. }
  destruct (copy_loop_again self S S sf 0 0 w3) as (w4' & Hloop1 & Hr4).
  { by rewrite Hr3. }
  rewrite Hcopy in Hloop1. injection Hloop1 as _ _ <-.
  destruct (delete_loop_again self S sf df 0 w4) as (w5' & Hloop2 & Hr5).
  { intros h Hh. left. by apply Hsfm, Hdfm. }
  rewrite Hdel in Hloop2. injection Hloop2 as _ <-.
  apply cleanup_ok in Hclean as (dirs & w5' & Hdirs & Hloop).
  assert (resolve S (root w5) = Ok c) as HS5 by by rewrite Hr5, Hr4, Hr3.
  rewrite getDirs_gen in Hdirs.
  apply (walking_found _ _ _ _ _ _ HS5) in Hdirs as (Hr5' & _ & _ & Hdirsm).
  apply cleanup_loop_same in Hloop.
  2:{ intros rel Hrel. rewrite (sort_perm by_depth dirs) in Hrel.
      apply Hdirsm in Hrel as (sub & c' & _ & Hsub & Hin).
      destruct (node_kind c'); cbn in Hin; try by apply elem_of_nil in Hin.
      apply list_elem_of_singleton in Hin as ->. rewrite Hr5'. by exists c'. }
  assert (root w6 = root w1) as Hr6 by by rewrite Hloop, Hr5', Hr5, Hr4, Hr3.
  exists (root w1), c. rewrite log_root, Hr6.
  assert (forall h tm d, resolve (S ++ h) (root w1) = Ok (File tm d) -> h ∈ sf) as Horigin.
  { intros h tm d Hh. apply Hsfm. split; [|by exists tm, d].
    intros ->. rewrite app_nil_r in Hh. rewrite HS in Hh. injection Hh as ->. done. }
  split; [by split|]. split.
  { split.
    - intros q c'. done.
    - destruct c as [|tm l es|]; [done| |done]. by exists tm, l, es.
    - by apply (listable_under S (root w1) _ HS).
    - intros f (_ & tm & d & Hf)%Hsfm tm' l es. by rewrite Hf.
    - intros h tm d Hh. left. by eapply Horigin. }
  split; [done|]. split; [by rewrite Hsf0|]. split; [done|].
  split; [done|]. intros h tm d Hh. left. by eapply Horigin.
Qed.

(** What a run that returns leaves, when neither root is strictly inside
    the other. *)
Lemma run_outcome self S D w r w' st :
  ~ strict_prefix S D -> ~ strict_prefix D S ->
  (forall f tm d, resolve (S ++ f) (root w) = Ok (File tm d) ->
     forall tm' l es, resolve (D ++ f) (root w) <> Ok (Dir tm' l es)) ->
  staged self S D w r w' st ->
  exists t1 nS,
    found S D t1 (sourceFiles st) (destFiles st) /\
    kept S D t1 (sourceFiles st) (destFiles st) (root w') /\
    resolve S t1 = Ok nS /\
    (getFilesRecursively S S (after_mkdir st)).1 = Ok (sourceFiles st) /\
    root (after_mkdir st) = t1 /\
    (forall f, f ∈ sourceFiles st -> copy_excluded self f
       \/ (~ copy_excluded self f
           /\ matchesPattern (rel_string f) (Some (copyExclusions self)) = Ok false
           /\ synced S D (root w') f)) /\
    (forall h tm d, resolve (D ++ h) (root w') = Ok (File tm d) ->
       h ∈ sourceFiles st \/ delete_excluded self h).
Proof.
  intros HSD HDS Hnodir Hst. destruct (decide (S = D)) as [<-|Hne].
  { by eapply first_run_self. }
  eapply first_run; [|done|done]. split.
  - intros [k ->]. apply HSD. exists k. split; [|done]. intros ->. by rewrite app_nil_r in Hne.
  - intros [k ->]. apply HDS. exists k. split; [|done]. intros ->. by rewrite app_nil_r in Hne.
Qed.

End RunFacts.

(** What a run leaves alone. *)
Module ExcludeFacts.
Import JS Pattern FS IO Engine Walk Run Frame Idem.
Import FSFacts WalkFacts MonadFacts StepFacts SyncFacts CleanupFacts FrameFacts IdemFacts RunFacts.


Lemma copyStep_leaf self S D g cs w cs' w' q c :
  copyStep self S D g cs w = (Ok cs', w') ->
  node_kind c <> KDir -> q <> D ++ g \/ copy_excluded self g ->
  resolve q (root w) = Ok c -> resolve q (root w') = Ok c.
Proof.
  intros H Hc Hq Hr. destruct cs as [n s]. unfold copyStep in H.
  apply bind_ok in H as (b & w1 & H1 & H). apply lift_ok in H1 as [Hb ->].
  destruct b.
  { apply bind_ok in H as ([] & w2 & H2 & H). rewrite log_run in H2.
    injection H2 as <-. injection H as _ <-. done. }
  destruct Hq as [Hq|Hex]; [|unfold copy_excluded in Hex; congruence].
  apply bind_ok in H as (different & w2 & H2 & H).
  destruct (filesAreDifferent_run (S ++ g) (D ++ g) w) as (b & Hrun & _).
  rewrite Hrun in H2. injection H2 as <- <-.
  destruct b.
  2:{ injection H as _ <-. done. }
  apply bind_ok in H as ([] & w3 & H3 & H).
  apply bind_ok in H as ([] & w4 & H4 & H). rewrite log_run in H4.
  injection H4 as <-. injection H as _ <-. rewrite log_root.
  apply copyFile_ok in H3 as (t2 & t3 & ts & data & tm & Hcr & Ht1 & Ht2 & _).
  cbn [root calls] in Hcr.
  apply (touches_leaf _ _ _ q c Ht2 Hq Hc).
  apply (touches_leaf _ _ _ q c Ht1 Hq Hc).
  by apply (creates_leaf _ _ _ q c Hcr Hc).
Qed.

Lemma copy_loop_leaf self S D l cs w cs' w' q c :
  for_of l (copyStep self S D) cs w = (Ok cs', w') ->
  node_kind c <> KDir ->
  (forall g, g ∈ l -> q <> D ++ g \/ copy_excluded self g) ->
  resolve q (root w) = Ok c -> resolve q (root w') = Ok c.
Proof.
  intros H Hc. revert cs w H. induction l as [|g l IH]; intros cs w H Hl Hr.
  - by injection H as _ <-.
  - cbn [for_of] in H. apply bind_ok in H as (cs1 & w1 & H1 & H).
    eapply IH; [exact H|intros; apply Hl; by right|].
    eapply copyStep_leaf; [exact H1|done|apply Hl; by left|done].
Qed.

Lemma deleteStep_leaf self D set h n w n' w' q c :
  deleteStep self D set h n w = (Ok n', w') ->
  node_kind c <> KDir -> q <> D ++ h \/ h ∈ set \/ delete_excluded self h ->
  resolve q (root w) = Ok c -> resolve q (root w') = Ok c.
Proof.
  intros H Hc Hq Hr. unfold deleteStep in H.
  case_bool_decide as Hin.
  { by injection H as _ <-. }
  apply bind_ok in H as (b & w1 & H1 & H). apply lift_ok in H1 as [Hb ->].
  destruct b.
  { apply bind_ok in H as ([] & w2 & H2 & H). rewrite log_run in H2.
    injection H2 as <-. by injection H as _ <-. }
  destruct Hq as [Hq|[Hq|Hex]]; [|done|unfold delete_excluded in Hex; congruence].
  apply bind_ok in H as ([] & w2 & H2 & H).
  apply bind_ok in H as ([] & w3 & H3 & H). rewrite log_run in H3.
  injection H3 as <-. injection H as _ <-. rewrite log_root.
  apply fs_unlink_ok, unlink_file_touches in H2 as (Ht & _).
  by apply (touches_leaf _ _ _ q c Ht Hq Hc).
Qed.

Lemma delete_loop_leaf self D set l n w n' w' q c :
  for_of l (deleteStep self D set) n w = (Ok n', w') ->
  node_kind c <> KDir ->
  (forall h, h ∈ l -> q <> D ++ h \/ h ∈ set \/ delete_excluded self h) ->
  resolve q (root w) = Ok c -> resolve q (root w') = Ok c.
Proof.
  intros H Hc. revert n w H. induction l as [|h l IH]; intros n w H Hl Hr.
  - by injection H as _ <-.
  - cbn [for_of] in H. apply bind_ok in H as (n1 & w1 & H1 & H).
    eapply IH; [exact H|intros; apply Hl; by right|].
    eapply deleteStep_leaf; [exact H1|done|apply Hl; by left|done].
Qed.

Lemma cleanupDirectory_leaf self D S rel w w' q c :
  cleanupDirectory self D S rel w = (Ok tt, w') ->
  node_kind c <> KDir ->
  resolve q (root w) = Ok c -> resolve q (root w') = Ok c.
Proof.
  intros H Hc Hr.
  destruct (cleanupDirectory_spec self D S rel w) as (w'' & Hrun & Hspec).
  rewrite Hrun in H. injection H as ->.
  destruct (resolve (S ++ rel) (root w)); [by rewrite Hspec|].
  destruct (resolve (D ++ rel) (root w)) as [[|tm [] es|]|] eqn:Hd;
    try by rewrite Hspec.
  destruct (decide _) as [[-> Hne]|]; [|by rewrite Hspec].
  assert (remove_dir (clock w) (D ++ rel) (root w) = Ok (root w')) as Hrm.
  { unfold remove_dir. rewrite Hd. cbn. by rewrite bool_decide_eq_true_2. }
  apply remove_dir_touches in Hrm as [Ht _].
  apply (touches_leaf _ _ _ q c Ht); [|done|done].
  intros ->. rewrite Hd in Hr. by injection Hr as <-.
Qed.

Lemma cleanup_loop_leaf self D S l w w' q c :
  for_of l (fun relativeDir _ => cleanupDirectory self D S relativeDir) tt w = (Ok tt, w') ->
  node_kind c <> KDir ->
  resolve q (root w) = Ok c -> resolve q (root w') = Ok c.
Proof.
  intros H Hc. revert w H. induction l as [|rel l IH]; intros w H Hr.
  - by injection H as <-.
  - cbn [for_of] in H. apply bind_ok in H as ([] & w1 & H1 & H).
    eapply IH; [exact H|]. by eapply cleanupDirectory_leaf.
Qed.

(** A file or other leaf that no copy and no deletion of the run is aimed
    at is the same node after the run. *)
Lemma staged_leaf self S D w r w' st q c :
  staged self S D w r w' st ->
  node_kind c <> KDir ->
  (forall g, g ∈ sourceFiles st -> q = D ++ g -> copy_excluded self g) ->
  (forall h, h ∈ destFiles st -> q = D ++ h ->
     h ∈ sourceFiles st \/ delete_excluded self h) ->
  resolve q (root w) = Ok c -> resolve q (root w') = Ok c.
Proof.
  intros (_ & Hmk & (w2 & Hsf & Hdf) & Hcopy & Hdel & Hclean & ->) Hc Hg Hh Hr.
  rewrite log_root.
  apply cleanup_ok in Hclean as (dirs & w3 & Hdirs & Hloop).
  eapply cleanup_loop_leaf; [exact Hloop|done|].
  pose proof (walking_root walk_dirs D D (after_delete st)) as Hr3.
  unfold getDirectoriesRecursively in Hdirs. rewrite Hdirs in Hr3. cbn [snd] in Hr3.
  rewrite Hr3.
  eapply delete_loop_leaf; [exact Hdel|done| |].
  { intros h Hin. destruct (decide (q = D ++ h)) as [Heq|]; [|by left]. right.
    destruct (Hh h Hin Heq) as [?|?]; [left; by apply elem_of_list_to_set|by right]. }
  eapply copy_loop_leaf; [exact Hcopy|done| |].
  { intros g Hin. destruct (decide (q = D ++ g)) as [Heq|]; [|by left]. right. by apply Hg. }
  pose proof (walking_root walk_files D D w2) as Hr2.
  unfold getFilesRecursively in Hdf. rewrite Hdf in Hr2. cbn [snd] in Hr2.
  pose proof (walking_root walk_files S S (after_mkdir st)) as Hr1.
  unfold getFilesRecursively in Hsf. rewrite Hsf in Hr1. cbn [snd] in Hr1.
  rewrite Hr2, Hr1.
  apply fs_mkdir_ok, mkdirp_creates in Hmk. cbn [root called logged] in Hmk.
  by apply (creates_leaf _ _ _ q c Hmk Hc).
Qed.

(** The source files of a run are the regular files below the source
    root at the call. *)
Lemma staged_source_files self S D w r w' st f :
  staged self S D w r w' st ->
  f ∈ sourceFiles st <-> f <> [] /\ exists tm d, resolve (S ++ f) (root w) = Ok (File tm d).
Proof.
  intros (_ & Hmk & (w2 & Hsf & _) & _).
  apply fs_mkdir_ok, mkdirp_creates in Hmk. cbn [root called logged] in Hmk.
  destruct (resolve S (root (after_mkdir st))) as [n|e] eqn:Hn.
  - eapply getFiles_found in Hsf as (_ & _ & _ & Hiff); [|exact Hn].
    rewrite Hiff. split; intros (Hne & tm & d & Hf); (split; [done|]); exists tm, d.
    + by apply (creates_leaf _ _ _ (S ++ f) (File tm d) Hmk).
    + by apply (creates_leaf _ _ _ (S ++ f) (File tm d) Hmk).
  - unfold getFilesRecursively, walking in Hsf. rewrite Hn in Hsf.
    destruct e as [[]| | |]; try done.
    injection Hsf as <- _. split; [by intros ?%elem_of_nil|].
    intros (_ & tm & d & Hf).
    apply (creates_leaf _ _ _ (S ++ f) (File tm d) Hmk) in Hf; [|done].
    rewrite resolve_app, Hn in Hf. done.
Qed.

Lemma source_root_dir self S D w r w' st :
  staged self S D w r w' st -> forall tm d, resolve S (root w) <> Ok (File tm d).
Proof.
  intros Hst tm d Hf. pose proof Hst as (_ & Hmk & (w2 & Hsf & _) & _).
  apply fs_mkdir_ok, mkdirp_creates in Hmk. cbn [root called logged] in Hmk.
  apply (creates_leaf _ _ _ S (File tm d) Hmk) in Hf; [|done].
  unfold getFilesRecursively, walking in Hsf. rewrite Hf in Hsf. done.
Qed.

(** A regular file of the destination whose path is that of a source
    file matching a copy exclusion, or is in the destination only and
    matches a delete exclusion, is the same after a run that returns. *)
Lemma sync_keeps_excluded self S D w r w' f tm d :
  sync self S D w = (Ok r, w') ->
  resolve (D ++ f) (root w) = Ok (File tm d) ->
  (copy_excluded self f /\ exists tm' d', resolve (S ++ f) (root w) = Ok (File tm' d'))
  \/ (delete_excluded self f /\ forall tm' d', resolve (S ++ f) (root w) <> Ok (File tm' d')) ->
  resolve (D ++ f) (root w') = Ok (File tm d).
Proof.
  intros Hrun Hd Hex. apply sync_staged in Hrun as [st Hst].
  eapply staged_leaf; [exact Hst|done| | |done].
  - intros g Hg ->%app_inv_head. destruct Hex as [[? _]|[_ Hno]]; [done|].
    apply (staged_source_files _ _ _ _ _ _ _ _ Hst) in Hg as (_ & tm' & d' & Hg).
    by destruct (Hno tm' d').
  - intros h Hh ->%app_inv_head. destruct Hex as [[_ (tm' & d' & Hs)]|[? _]]; [left|by right].
    apply (staged_source_files _ _ _ _ _ _ _ _ Hst). split; [|by exists tm', d'].
    intros ->. rewrite app_nil_r in Hs.
    by destruct (source_root_dir _ _ _ _ _ _ _ Hst tm' d').
Qed.

End ExcludeFacts.

Module PreserveFacts.
Import JS Pattern FS IO Engine Walk Run Frame Idem Preserve.
Import FSFacts WalkFacts MonadFacts FrameFacts IdemFacts.

Lemma near_below D rel : near D (D ++ rel).
Proof. right. by apply prefix_app_r. Qed.

Lemma near_dirname D rel : near D (dirname (D ++ rel)).
Proof.
  unfold dirname. destruct (decide (rel = [])) as [->|Hne].
  - left. rewrite app_nil_r. destruct (decide (D = [])) as [->|HD]; [done|].
    rewrite (app_removelast_last inhabitant HD) at 2. by apply prefix_app_r.
  - rewrite removelast_app_ne by done. apply near_below.
Qed.

Section Rules.
Context (R : world -> world -> Prop) `{!PreOrder R}.
#[local] Set Default Proof Using "All".

Lemma preserves_ret {A} (a : A) : preserves R (mret a).
Proof. intros w. reflexivity. Qed.

Lemma preserves_throw {A} e : preserves R (throw (A:=A) e).
Proof. intros w. reflexivity. Qed.

Lemma preserves_lift {A} (r : result A) : preserves R (lift r).
Proof. intros w. reflexivity. Qed.

Lemma preserves_bind {A B} (m : M A) (f : A -> M B) :
  preserves R m -> (forall a, preserves R (f a)) -> preserves R (m ≫= f).
Proof.
  intros Hm Hf w. specialize (Hm w). unfold mbind, M_bind.
  destruct (m w) as [[a|e] w1]; cbn [snd] in *; [|done].
  etrans; [exact Hm|apply Hf].
Qed.

Lemma preserves_try_catch {A} (m : M A) h :
  preserves R m -> (forall e, preserves R (h e)) -> preserves R (try_catch m h).
Proof.
  intros Hm Hh w. specialize (Hm w). unfold try_catch.
  destruct (m w) as [[a|e] w1]; cbn [snd] in *; [done|].
  etrans; [exact Hm|apply Hh].
Qed.

Lemma preserves_promise_all2 {A B} (a : M A) (b : M B) :
  preserves R a -> preserves R b -> preserves R (promise_all2 a b).
Proof.
  intros Ha Hb w. specialize (Ha w). unfold promise_all2.
  destruct (a w) as [ra w1]. specialize (Hb w1). destruct (b w1) as [rb w2].
  cbn [snd] in *. by etrans.
Qed.

Lemma preserves_for_of {A St} (l : list A) (body : A -> St -> M St) s :
  (forall x s, preserves R (body x s)) -> preserves R (for_of l body s).
Proof.
  intros Hb. revert s. induction l as [|x l IH]; intros s; cbn [for_of].
  - apply preserves_ret.
  - apply preserves_bind; [apply Hb|apply IH].
Qed.

(** The engine, given what the calls of [fs] and the console keep. *)
Context (self : IdaSync) (S D : path).
Hypothesis called_kept : forall c w, R w (called c w).
Hypothesis traced_kept : forall cs w,
  R w (World (root w) (clock w) (trace w ++ cs) (console w)).
Hypothesis log_kept : forall m, preserves R (log self m).
Hypothesis mkdir_kept : forall p, near D p -> preserves R (fs_mkdir_recursive p).
Hypothesis copy_kept : forall src p, near D p -> preserves R (fs_copyFile src p).
Hypothesis utimes_kept : forall p a m, near D p -> preserves R (fs_utimes p a m).
Hypothesis unlink_kept : forall p, near D p -> preserves R (fs_unlink p).
Hypothesis rmdir_kept : forall p, near D p -> preserves R (fs_rmdir p).

Lemma preserves_reading {A} c (f : node -> result A) : preserves R (reading c f).
Proof. intros w. apply called_kept. Qed.

Lemma preserves_walking walker P B : preserves R (walking walker P B).
Proof.
  intros w. unfold walking.
  destruct (resolve P (root w)) as [n|[[]| | |]]; cbn [snd];
    solve [apply called_kept|apply traced_kept].
Qed.

Lemma preserves_filesAreDifferent s d : preserves R (filesAreDifferent s d).
Proof.
  apply preserves_try_catch; [|intros; apply preserves_ret].
  apply preserves_bind; [|intros []; apply preserves_ret].
  apply preserves_promise_all2; apply preserves_reading.
Qed.

Lemma preserves_copyFile src rel : preserves R (copyFile src (D ++ rel)).
Proof.
  unfold copyFile. apply preserves_bind; [apply mkdir_kept, near_dirname|]. intros _.
  apply preserves_bind; [apply copy_kept, near_below|]. intros _.
  apply preserves_bind; [apply preserves_reading|]. intros st.
  apply utimes_kept, near_below.
Qed.

Lemma preserves_copyStep f cs : preserves R (copyStep self S D f cs).
Proof.
  destruct cs as [c s]. unfold copyStep.
  apply preserves_bind; [apply preserves_lift|]. intros [].
  - apply preserves_bind; [apply log_kept|]. intros _. apply preserves_ret.
  - apply preserves_bind; [apply preserves_filesAreDifferent|]. intros [].
    + apply preserves_bind; [apply preserves_copyFile|]. intros _.
      apply preserves_bind; [apply log_kept|]. intros _. apply preserves_ret.
    + apply preserves_ret.
Qed.

Lemma preserves_deleteStep set h n : preserves R (deleteStep self D set h n).
Proof.
  unfold deleteStep. case_bool_decide; [apply preserves_ret|].
  apply preserves_bind; [apply preserves_lift|]. intros [].
  - apply preserves_bind; [apply log_kept|]. intros _. apply preserves_ret.
  - apply preserves_bind; [apply unlink_kept, near_below|]. intros _.
    apply preserves_bind; [apply log_kept|]. intros _. apply preserves_ret.
Qed.

Lemma preserves_cleanupDirectory rel : preserves R (cleanupDirectory self D S rel).
Proof.
  unfold cleanupDirectory.
  apply preserves_try_catch; [apply preserves_reading|]. intros _.
  apply preserves_try_catch; [|intros; apply preserves_ret].
  apply preserves_bind; [apply preserves_reading|]. intros entries.
  destruct (length entries =? 0); [|apply preserves_ret].
  apply preserves_bind; [apply rmdir_kept, near_below|]. intros _. apply log_kept.
Qed.

Lemma preserves_cleanup : preserves R (cleanupEmptyDirectories self D S).
Proof.
  unfold cleanupEmptyDirectories.
  apply preserves_bind; [apply preserves_walking|]. intros dirs.
  apply preserves_for_of. intros rel []. apply preserves_cleanupDirectory.
Qed.

Lemma preserves_sync : preserves R (sync self S D).
Proof.
  unfold sync.
  apply preserves_bind; [apply log_kept|]. intros _.
  apply preserves_bind.
  { apply preserves_try_catch; [apply preserves_reading|]. intros; apply preserves_throw. }
  intros _.
  apply preserves_bind; [apply mkdir_kept; by left|]. intros _.
  apply preserves_bind; [apply preserves_promise_all2; apply preserves_walking|].
  intros [sf df].
  apply preserves_bind; [apply preserves_for_of; intros; apply preserves_copyStep|].
  intros [c s].
  apply preserves_bind; [apply preserves_for_of; intros; apply preserves_deleteStep|].
  intros d.
  apply preserves_bind; [apply preserves_cleanup|]. intros _.
  apply preserves_bind; [apply log_kept|]. intros _. apply preserves_ret.
Qed.

End Rules.

Global Instance same_at_preorder q : PreOrder (same_at q).
Proof.
  split.
  - intros w c. done.
  - intros w1 w2 w3 H1 H2. by eapply agree_trans.
Qed.

Global Instance same_console_preorder : PreOrder same_console.
Proof.
  split; [done|]. intros w1 w2 w3 H1 H2. unfold same_console in *. congruence.
Qed.

Lemma apart_near q D p : apart q D -> near D p -> ~ q `prefix_of` p.
Proof.
  intros [H1 H2] [Hp|Hp] Hq.
  - apply H1. by etrans.
  - destruct (prefix_weak_total _ _ _ Hq Hp); done.
Qed.

Lemma writing_same_at q c f :
  (forall now t t', f now t = Ok t' -> agree q t t') -> preserves (same_at q) (writing c f).
Proof.
  intros Hf w. unfold writing, same_at.
  destruct (f (clock w) (root w)) as [t'|e] eqn:E; cbn [snd root called]; [|done].
  by eapply Hf.
Qed.

(** Whatever the outcome of [sync], the tree is the same at every path
    that is neither above nor below the destination. *)
Lemma sync_same_at self S D q : apart q D -> preserves (same_at q) (sync self S D).
Proof.
  intros Hq. apply preserves_sync; try apply _.
  - intros c w. done.
  - intros cs w. done.
  - intros m w. rewrite log_run. done.
  - intros p Hp. apply writing_same_at. intros now t t' H.
    eapply creates_apart; [by eapply mkdirp_creates|by eapply apart_near].
  - intros src p Hp. apply writing_same_at. intros now t t' H.
    apply copy_file_touches in H as [H _].
    eapply touches_apart; [done|by eapply apart_near].
  - intros p a m Hp. apply writing_same_at. intros now t t' H.
    apply set_utimes_touches in H as [H _].
    eapply touches_apart; [done|by eapply apart_near].
  - intros p Hp. apply writing_same_at. intros now t t' H.
    apply unlink_file_touches in H as [H _].
    eapply touches_apart; [done|by eapply apart_near].
  - intros p Hp. apply writing_same_at. intros now t t' H.
    apply remove_dir_touches in H as [H _].
    eapply touches_apart; [done|by eapply apart_near].
Qed.

Lemma apart_below S D f : apart S D -> apart (S ++ f) D.
Proof.
  intros Hap. split.
  - pose proof (apart_source_dest S D f [] Hap) as H. by rewrite app_nil_r in H.
  - intros HD. destruct Hap as [H1 H2].
    destruct (prefix_weak_total D S (S ++ f) HD (prefix_app_r S S f (reflexivity S))); done.
Qed.

Lemma resolve_forget q t :
  resolve q (forget_atime t) = forget_atime <$> resolve q t.
Proof.
  revert t. induction q as [|x q IH]; intros t; [done|].
  destruct t as [|tm l es|]; [done| |done]. cbn [forget_atime resolve].
  rewrite lookup_fmap. destruct (es !! x) as [c|]; [apply IH|done].
Qed.

Lemma agree_forget q t t' :
  agree q t t' -> agree q (forget_atime t) (forget_atime t').
Proof.
  intros H c. rewrite !resolve_forget. split.
  - destruct (resolve q t) as [c0|] eqn:E; [|done]. apply H in E. by rewrite E.
  - destruct (resolve q t') as [c0|] eqn:E; [|done]. apply H in E. by rewrite E.
Qed.

Lemma writing_same_console c f : preserves same_console (writing c f).
Proof.
  intros w. unfold writing, same_console.
  by destruct (f (clock w) (root w)).
Qed.

End PreserveFacts.

Module ListingFacts.
Import FS IO Engine Walk Run Frame Listing.
Import FSFacts WalkFacts MonadFacts FrameFacts RunFacts.

Section Listing.
Context (emit : kind -> path -> list path).
Hypothesis emit_one : forall k r, emit k r = [] \/ emit k r = [r].
#[local] Set Default Proof Using "All".

Lemma emit_elem k r q : q ∈ emit k r -> q = r.
Proof.
  destruct (emit_one k r) as [->| ->].
  - by intros ?%elem_of_nil.
  - by intros ->%list_elem_of_singleton.
Qed.

Lemma emit_nodup k r : NoDup (emit k r).
Proof. destruct (emit_one k r) as [->| ->]; [constructor|apply NoDup_singleton]. Qed.

(** Every path of a walk lies strictly below the directory walked. *)
Lemma walk_below n dirPath rel l q :
  (walk emit n dirPath rel).1 = Ok l -> q ∈ l -> exists s, s <> [] /\ q = rel ++ s.
Proof.
  intros Hl Hq. destruct (decide (node_kind n = KDir)) as [Hk|Hk].
  - pose proof (walk_spec emit n dirPath rel Hk) as H. rewrite Hl in H.
    destruct H as [_ H]. apply H in Hq as (sub & c & Hne & _ & Hq).
    exists sub. split; [done|]. by apply emit_elem in Hq.
  - destruct n; done.
Qed.

Lemma fold_below (walker : node -> path -> path -> walk_result) dirPath rel
    (m : list (name * node)) l q :
  (forall x c l' q', (x, c) ∈ m -> (walker c (dirPath ++ [x]) (rel ++ [x])).1 = Ok l' ->
     q' ∈ l' -> exists s, s <> [] /\ q' = (rel ++ [x]) ++ s) ->
  (foldr (uncurry (step emit walker dirPath rel)) (Ok [], []) m).1 = Ok l ->
  q ∈ l -> exists x c s, (x, c) ∈ m /\ q = rel ++ x :: s.
Proof.
  revert l. induction m as [|[x c] m IH]; intros l Hw Hl Hq.
  - cbn in Hl. injection Hl as <-. by apply elem_of_nil in Hq.
  - cbn [foldr uncurry] in Hl.
    assert (forall l0, (foldr (uncurry (step emit walker dirPath rel)) (Ok [], []) m).1 = Ok l0 ->
              q ∈ l0 -> exists y cy s, (y, cy) ∈ (x, c) :: m /\ q = rel ++ y :: s) as IH'.
    { intros l0 H0 Hq0. destruct (IH l0) as (y & cy & s & Hy & ->); [|done|done|].
      - intros y cy l' q' Hy. apply Hw. by right.
      - exists y, cy, s. split; [by right|done]. }
    destruct (foldr (uncurry (step emit walker dirPath rel)) (Ok [], []) m) as [[l0|e] tr];
      cbn [fst snd] in *.
    + unfold step in Hl. destruct (decide (node_kind c = KDir)) as [Hk|Hk].
      * destruct c as [|tc lc esc|]; [done| |done].
        destruct (walker (Dir tc lc esc) (dirPath ++ [x]) (rel ++ [x])).1 as [sub|e] eqn:Hsub;
          cbn in Hl; [|done].
        injection Hl as <-. apply elem_of_app in Hq as [Hq|Hq]; [|by eapply IH'].
        apply elem_of_app in Hq as [Hq|Hq].
        -- apply emit_elem in Hq as ->. exists x, (Dir tc lc esc), []. split; [by left|done].
        -- destruct (Hw x (Dir tc lc esc) sub q) as (s & _ & ->); [by left|done|done|].
           exists x, (Dir tc lc esc), s. split; [by left|]. by rewrite <- app_assoc.
      * assert (l = emit (node_kind c) (rel ++ [x]) ++ l0) as ->.
        { destruct c; try done; cbn in Hl; by injection Hl as <-. }
        apply elem_of_app in Hq as [Hq|Hq]; [|by eapply IH'].
        apply emit_elem in Hq as ->. exists x, c, []. split; [by left|done].
    + unfold step in Hl. destruct c as [|tc lc esc|]; cbn in Hl; try done.
      by destruct (walker (Dir tc lc esc) (dirPath ++ [x]) (rel ++ [x])).1.
Qed.

Lemma fold_nodup (walker : node -> path -> path -> walk_result) dirPath rel
    (m : list (name * node)) l :
  NoDup m.*1 ->
  (forall x c l' q', (x, c) ∈ m -> (walker c (dirPath ++ [x]) (rel ++ [x])).1 = Ok l' ->
     q' ∈ l' -> exists s, s <> [] /\ q' = (rel ++ [x]) ++ s) ->
  (forall x c l', (x, c) ∈ m -> (walker c (dirPath ++ [x]) (rel ++ [x])).1 = Ok l' ->
     NoDup l') ->
  (foldr (uncurry (step emit walker dirPath rel)) (Ok [], []) m).1 = Ok l ->
  NoDup l.
Proof.
  revert l. induction m as [|[x c] m IH]; intros l Hnd Hw Hsub Hl.
  - cbn in Hl. injection Hl as <-. constructor.
  - cbn [foldr uncurry] in Hl. cbn in Hnd. apply NoDup_cons in Hnd as [Hx Hnd].
    pose proof (fun l0 => IH l0 Hnd
                  (fun y cy l' q' Hy => Hw y cy l' q' (list_elem_of_further _ _ _ Hy))
                  (fun y cy l' Hy => Hsub y cy l' (list_elem_of_further _ _ _ Hy))) as IH'.
    pose proof (fun l0 q => fold_below walker dirPath rel m l0 q
                  (fun y cy l' q' Hy => Hw y cy l' q' (list_elem_of_further _ _ _ Hy)))
      as Hbelow.
    destruct (foldr (uncurry (step emit walker dirPath rel)) (Ok [], []) m) as [[l0|e] tr];
      cbn [fst snd] in *.
    2:{ unfold step in Hl. destruct c as [|tc lc esc|]; cbn in Hl; try done.
        by destruct (walker (Dir tc lc esc) (dirPath ++ [x]) (rel ++ [x])).1. }
    specialize (IH' l0 eq_refl).
    assert (forall q s, q = rel ++ x :: s -> q ∉ l0) as Hfresh.
    { intros q s -> Hq. destruct (Hbelow l0 _ eq_refl Hq) as (y & cy & s' & Hy & Heq).
      apply app_inv_head in Heq. injection Heq as <- _.
      apply Hx. apply list_elem_of_fmap. by exists (x, cy). }
    unfold step in Hl. destruct (decide (node_kind c = KDir)) as [Hk|Hk].
    + destruct c as [|tc lc esc|]; [done| |done].
      destruct (walker (Dir tc lc esc) (dirPath ++ [x]) (rel ++ [x])).1 as [sub|e] eqn:Hs;
        cbn in Hl; [|done].
      injection Hl as <-. apply NoDup_app. split; [|split; [|done]].
      * apply NoDup_app. split; [apply emit_nodup|]. split; [|by eapply Hsub; [left|]].
        intros q ->%emit_elem Hq.
        destruct (Hw x (Dir tc lc esc) sub (rel ++ [x])) as (s & Hne & Heq); [by left|done|done|].
        rewrite <- (app_nil_r (rel ++ [x])) in Heq at 1. apply app_inv_head in Heq. done.
      * intros q [Hq|Hq]%elem_of_app.
        -- apply emit_elem in Hq as ->. by apply (Hfresh _ []).
        -- destruct (Hw x (Dir tc lc esc) sub q) as (s & _ & ->); [by left|done|done|].
           apply (Hfresh _ s). by rewrite <- app_assoc.
    + assert (l = emit (node_kind c) (rel ++ [x]) ++ l0) as ->.
      { destruct c; try done; cbn in Hl; by injection Hl as <-. }
      apply NoDup_app. split; [apply emit_nodup|]. split; [|done].
      intros q ->%emit_elem. by apply (Hfresh _ []).
Qed.

Lemma walk_nodup n dirPath rel l :
  (walk emit n dirPath rel).1 = Ok l -> NoDup l.
Proof.
  revert dirPath rel l. induction n as [| |t ls es IH] using node_ind';
    intros dirPath rel l Hl; [done|done|].
  destruct ls; [|done]. rewrite walk_unfold in Hl. cbn zeta in Hl. cbn [fst] in Hl.
  eapply fold_nodup; [apply NoDup_fst_map_to_list| | |exact Hl].
  - intros x c l' q' _ Hl' Hq'. by eapply walk_below.
  - intros x c l' Hc%elem_of_map_to_list Hl'. by eapply IH.
Qed.

End Listing.

Lemma emit_files_one k r : emit_files k r = [] \/ emit_files k r = [r].
Proof. destruct k; (by left) || (by right). Qed.

Lemma emit_dirs_one k r : emit_dirs k r = [] \/ emit_dirs k r = [r].
Proof. destruct k; (by left) || (by right). Qed.

(** A walk that returns is the walk of the node at its root. *)
Lemma walking_walk walker P w n :
  resolve P (root w) = Ok n ->
  (walking walker P P w).1 = (walker n P []).1.
Proof. intros H. unfold walking. rewrite H. cbn [fst]. by rewrite path_relative_self. Qed.

Lemma fold_dirs_order (walker : node -> path -> path -> walk_result) dirPath rel
    (m : list (name * node)) l :
  (forall x c l' q', (x, c) ∈ m -> (walker c (dirPath ++ [x]) (rel ++ [x])).1 = Ok l' ->
     q' ∈ l' -> exists s, s <> [] /\ q' = (rel ++ [x]) ++ s) ->
  (forall x c l', (x, c) ∈ m -> (walker c (dirPath ++ [x]) (rel ++ [x])).1 = Ok l' ->
     parents_first (rel ++ [x]) l') ->
  (foldr (uncurry (step emit_dirs walker dirPath rel)) (Ok [], []) m).1 = Ok l ->
  parents_first rel l.
Proof.
  revert l. induction m as [|[x c] m IH]; intros l Hw Hsub Hl.
  - cbn in Hl. injection Hl as <-. intros [|] ? ? ?; done.
  - cbn [foldr uncurry] in Hl.
    pose proof (fun l0 => IH l0
                  (fun y cy l' q' Hy => Hw y cy l' q' (list_elem_of_further _ _ _ Hy))
                  (fun y cy l' Hy => Hsub y cy l' (list_elem_of_further _ _ _ Hy))) as IH'.
    destruct (foldr (uncurry (step emit_dirs walker dirPath rel)) (Ok [], []) m)
      as [[l0|e] tr]; cbn [fst snd] in *.
    2:{ unfold step in Hl. destruct c as [|tc lc esc|]; cbn in Hl; try done.
        by destruct (walker (Dir tc lc esc) (dirPath ++ [x]) (rel ++ [x])).1. }
    specialize (IH' l0 eq_refl). unfold step in Hl.
    destruct c as [|tc lc esc|]; cbn in Hl; try (by injection Hl as <-).
    destruct (walker (Dir tc lc esc) (dirPath ++ [x]) (rel ++ [x])).1 as [sub|e] eqn:Hs;
      cbn in Hl; [|done].
    injection Hl as <-. intros l1 q l2 Heq p Hrp Hpq.
    change ((rel ++ [x]) :: sub ++ l0) with (((rel ++ [x]) :: sub) ++ l0) in Heq.
    apply app_eq_inv in Heq as [(k & Hchunk & Hk)|(k & -> & Hk)].
    2:{ apply elem_of_app. right. by eapply IH'. }
    destruct k as [|q' k].
    { cbn in Hk. symmetry in Hk. change (q :: l2) with ([] ++ q :: l2) in Hk.
      pose proof (IH' [] q l2 Hk p Hrp Hpq) as Hnil. by apply elem_of_nil in Hnil. }
    cbn in Hk. injection Hk as <- _.
    destruct Hrp as (r & Hr & ->). destruct Hpq as (r' & Hr' & ->).
    destruct l1 as [|h l1]; cbn in Hchunk; injection Hchunk as Hh Hchunk.
    { apply (f_equal length) in Hh. rewrite !length_app in Hh. cbn in Hh.
      destruct r; [done|]. destruct r'; [done|]. cbn in Hh. lia. }
    subst h.
    destruct (Hw x (Dir tc lc esc) sub ((rel ++ r) ++ r')) as (s & Hs' & Heq);
      [by left|done|rewrite Hchunk; apply elem_of_app; right; by left|].
    rewrite <- !app_assoc in Heq. apply app_inv_head in Heq.
    destruct r as [|y r]; [done|]. cbn in Heq. injection Heq as -> Heq.
    destruct r as [|z r]; [by left|]. right.
    eapply (Hsub x (Dir tc lc esc) sub (list_elem_of_here _ _) Hs l1 _ k);
      [exact Hchunk| |by exists r'].
    exists (z :: r). split; [done|]. by rewrite <- app_assoc.
Qed.

Lemma walk_dirs_order n dirPath rel l :
  (walk emit_dirs n dirPath rel).1 = Ok l -> parents_first rel l.
Proof.
  revert dirPath rel l. induction n as [| |t ls es IH] using node_ind';
    intros dirPath rel l Hl; [done|done|].
  destruct ls; [|done]. rewrite walk_unfold in Hl. cbn zeta in Hl. cbn [fst] in Hl.
  eapply fold_dirs_order; [| |exact Hl].
  - intros x c l' q' _ Hl' Hq'. by eapply (walk_below emit_dirs emit_dirs_one).
  - intros x c l' Hc%elem_of_map_to_list Hl'. by eapply IH.
Qed.

Lemma listable_below_list t (es : list (name * node)) :
  Forall (fun xc => listable_below xc.2) es ->
  listable_below (Dir t true (list_to_map es)).
Proof.
  intros H. apply listable_below_dir. split; [done|]. intros x c Hc.
  apply elem_of_list_to_map_2 in Hc. rewrite Forall_forall in H. by apply (H (x, c)).
Qed.

End ListingFacts.

Module CopyFacts.
Import FS IO Engine Run Frame.
Import FSFacts MonadFacts FrameFacts IdemFacts.

Lemma prefix_removelast (q p : path) :
  q `prefix_of` removelast p -> q `prefix_of` p.
Proof.
  intros H. destruct (decide (p = [])) as [->|Hp]; [done|].
  rewrite (app_removelast_last inhabitant Hp). by apply prefix_app_r.
Qed.

End CopyFacts.

Module MirrorFacts.
Import JS Pattern FS IO Engine Walk Run Frame Idem Mirror.
Import FSFacts WalkFacts MonadFacts StepFacts SyncFacts CleanupFacts FrameFacts IdemFacts.
Import RunFacts ExcludeFacts ListingFacts CopyFacts.

Lemma agree_sym q t t' : agree q t t' -> agree q t' t.
Proof. intros H c. by rewrite (H c). Qed.

Lemma agree_resolve q t t' :
  agree q t t' ->
  match resolve q t, resolve q t' with
  | Ok c, Ok c' => c = c'
  | Err _, Err _ => True
  | _, _ => False
  end.
Proof.
  intros H. destruct (resolve q t) as [c|e] eqn:E.
  - apply H in E. by rewrite E.
  - destruct (resolve q t') as [c'|e'] eqn:E'; [|done]. apply H in E'. congruence.
Qed.

Lemma stale_agree S D t t' f :
  agree (S ++ f) t t' -> agree (D ++ f) t t' -> stale S D t f = stale S D t' f.
Proof.
  intros Hs%agree_resolve Hd%agree_resolve. unfold stale.
  destruct (resolve (S ++ f) t), (resolve (S ++ f) t'); try done;
    destruct (resolve (D ++ f) t), (resolve (D ++ f) t'); try done; by subst.
Qed.

Lemma filesAreDifferent_stale S D f w :
  filesAreDifferent (S ++ f) (D ++ f) w
  = (Ok (stale S D (root w) f), calls [Stat (S ++ f); Stat (D ++ f)] w).
Proof.
  unfold filesAreDifferent, try_catch, promise_all2, fs_stat, reading, calls, called, stale.
  unfold mbind, M_bind, mret, M_ret. cbn [root clock trace console fst snd].
  destruct (resolve (S ++ f) (root w)) as [sn|e1];
    destruct (resolve (D ++ f) (root w)) as [dn|e2]; cbn;
    rewrite <- ?app_assoc; reflexivity.
Qed.

(** Two files of the source have destinations of which neither is above
    the other. *)
Lemma distinct_files S D t1 sf df f g :
  found S D t1 sf df -> f ∈ sf -> g ∈ sf -> f <> g -> ~ (D ++ f) `prefix_of` (D ++ g).
Proof.
  intros Hfound Hf Hg Hne [k Hk]. rewrite <- app_assoc in Hk. apply app_inv_head in Hk.
  apply (found_prefix_free S D t1 sf df g f Hfound Hg Hf).
  destruct (decide (k = [])) as [->|Hk']; [by rewrite app_nil_r in Hk|].
  subst g. destruct (exists_last Hk') as (k' & x & ->).
  rewrite app_assoc, removelast_last. by apply prefix_app_r.
Qed.

Lemma apart_distinct S D f : apart S D -> S ++ f <> D ++ f.
Proof. intros [H _] ->%app_inv_tail. by apply H. Qed.

(** What a copy that returns has done. *)
Lemma copyFile_post src dst w w' :
  copyFile src dst w = (Ok tt, w') -> src <> dst ->
  exists tm data,
    resolve src (root w) = Ok (File tm data) /\
    resolve dst (root w') = Ok (File (Times (mtime tm) (atime tm)) data) /\
    forall q, ~ q `prefix_of` dst -> agree q (root w) (root w').
Proof.
  intros H Hne.
  apply copyFile_ok in H as (t2 & t3 & ts & data & tm & Hcr & Ht1 & Ht2 & Hsrc & Hdst
    & sn & Hsn & Hfin).
  assert (resolve src t3 = Ok (File ts data)) as Hs3
    by by apply (touches_leaf _ _ _ src (File ts data) Ht1 Hne).
  rewrite Hs3 in Hsn. injection Hsn as <-.
  exists ts, data. split; [by apply (creates_leaf _ _ _ src (File ts data) Hcr)|].
  split; [done|]. intros q Hq.
  eapply agree_trans; [|eapply agree_trans].
  - eapply creates_apart; [exact Hcr|]. intros Hp. by apply Hq, prefix_removelast.
  - by eapply touches_apart.
  - by eapply touches_apart.
Qed.

(** The three ways one round of the copy loop can return. *)
Lemma copyStep_cases self S D g c s w c' s' w' :
  copyStep self S D g (c, s) w = (Ok (c', s'), w') ->
  (copy_excluded self g /\ c' = c /\ s' = Datatypes.S s /\ root w' = root w)
  \/ (~ copy_excluded self g /\ stale S D (root w) g = false
      /\ c' = c /\ s' = s /\ root w' = root w)
  \/ (~ copy_excluded self g /\ stale S D (root w) g = true
      /\ c' = Datatypes.S c /\ s' = s
      /\ exists w0 w1, root w0 = root w /\ root w' = root w1
           /\ copyFile (S ++ g) (D ++ g) w0 = (Ok tt, w1)).
Proof.
  intros H. unfold copyStep in H.
  apply bind_ok in H as (b & w1 & H1 & H). apply lift_ok in H1 as [Hb ->].
  destruct b.
  { apply bind_ok in H as ([] & w2 & H2 & H). rewrite log_run in H2.
    injection H2 as <-. injection H as <- <- <-. by left. }
  assert (~ copy_excluded self g) as Hnex by (unfold copy_excluded; congruence).
  apply bind_ok in H as (different & w2 & H2 & H).
  rewrite filesAreDifferent_stale in H2. injection H2 as <- <-.
  destruct (stale S D (root w) g) eqn:Hst.
  2:{ injection H as <- <- <-. right. left. done. }
  apply bind_ok in H as ([] & w3 & H3 & H).
  apply bind_ok in H as ([] & w4 & H4 & H). rewrite log_run in H4.
  injection H4 as <-. injection H as <- <- <-. right. right.
  split; [done|]. split; [done|]. split; [done|]. split; [done|].
  by exists (calls [Stat (S ++ g); Stat (D ++ g)] w), w3.
Qed.

Lemma copy_loop_mirror self S D t1 sf df l c s w c' s' w' :
  apart S D -> found S D t1 sf df -> NoDup l -> (forall f, f ∈ l -> f ∈ sf) ->
  (forall f, agree (S ++ f) t1 (root w)) ->
  (forall f, f ∈ l -> agree (D ++ f) t1 (root w)) ->
  for_of l (copyStep self S D) (c, s) w = (Ok (c', s'), w') ->
  c' = c + length (filter (fun f => ~ copy_excluded self f /\ stale S D t1 f = true) l)
  /\ (forall q,
        (forall f, f ∈ l -> ~ copy_excluded self f -> stale S D t1 f = true ->
           ~ q `prefix_of` (D ++ f)) ->
        agree q (root w) (root w'))
  /\ (forall f tm data, f ∈ l -> ~ copy_excluded self f -> stale S D t1 f = true ->
        resolve (S ++ f) t1 = Ok (File tm data) ->
        resolve (D ++ f) (root w') = Ok (File (Times (mtime tm) (atime tm)) data)).
Proof.
  intros Hap Hfound. revert c s w.
  induction l as [|g l IH]; intros c s w Hnd Hl Hsrc Hdst H.
  - injection H as <- _ <-. split; [cbn; lia|]. split; [done|].
    intros f tm data Hf. by apply elem_of_nil in Hf.
  - cbn [for_of] in H. apply bind_ok in H as ([c1 s1] & w1 & H1 & H).
    apply NoDup_cons in Hnd as [Hg Hnd].
    assert (stale S D t1 g = stale S D (root w) g) as Hstale.
    { apply stale_agree; [apply Hsrc|apply Hdst; by left]. }
    rewrite filter_cons.
    apply copyStep_cases in H1
      as [(Hex & -> & -> & Hr)|[(Hnex & Hst & -> & -> & Hr)
         |(Hnex & Hst & -> & -> & w0 & w1' & Hr0 & Hr & Hcp)]].
    + rewrite decide_False by (by intros [? _]).
      rewrite <- Hr in Hsrc, Hdst |- *.
      destruct (IH _ _ _ Hnd (fun f Hf => Hl f (list_elem_of_further _ _ _ Hf)) Hsrc
                  (fun f Hf => Hdst f (list_elem_of_further _ _ _ Hf)) H)
        as (Hc & Hframe & Hmir).
      split; [done|]. split.
      * intros q Hq. apply Hframe. intros f Hf. apply Hq. by right.
      * intros f tm data [->|Hf]%elem_of_cons; [done|by apply Hmir].
    + rewrite decide_False by (intros [_ ?]; congruence).
      rewrite <- Hr in Hsrc, Hdst |- *.
      destruct (IH _ _ _ Hnd (fun f Hf => Hl f (list_elem_of_further _ _ _ Hf)) Hsrc
                  (fun f Hf => Hdst f (list_elem_of_further _ _ _ Hf)) H)
        as (Hc & Hframe & Hmir).
      split; [done|]. split.
      * intros q Hq. apply Hframe. intros f Hf. apply Hq. by right.
      * intros f tm data [->|Hf]%elem_of_cons; [congruence|by apply Hmir].
    + rewrite decide_True by (split; [done|congruence]).
      apply copyFile_post in Hcp as (tm & data & Hs0 & Hd1 & Hframe1);
        [|by apply apart_distinct].
      rewrite Hr0 in Hs0, Hframe1. rewrite <- Hr in Hd1, Hframe1.
      assert (g ∈ sf) as Hgsf by (apply Hl; by left).
      assert (forall f, agree (S ++ f) t1 (root w1)) as Hsrc1.
      { intros f. eapply agree_trans; [apply Hsrc|]. apply Hframe1.
        by apply apart_source_dest. }
      assert (forall f, f ∈ l -> agree (D ++ f) t1 (root w1)) as Hdst1.
      { intros f Hf. eapply agree_trans; [apply Hdst; by right|]. apply Hframe1.
        eapply distinct_files; [done|apply Hl; by right|done|]. intros ->. done. }
      destruct (IH _ _ _ Hnd (fun f Hf => Hl f (list_elem_of_further _ _ _ Hf)) Hsrc1
                  Hdst1 H) as (Hc & Hframe & Hmir).
      split; [cbn [length]; lia|]. split.
      * intros q Hq. eapply agree_trans.
        -- apply Hframe1. apply Hq; [by left|done|congruence].
        -- apply Hframe. intros f Hf. apply Hq. by right.
      * intros f tm' data' [->|Hf]%elem_of_cons Hnex' Hst' Hsf; [|by apply Hmir].
        apply Hsrc in Hsf. rewrite Hs0 in Hsf. injection Hsf as <- <-.
        apply (Hframe (D ++ g)); [|done].
        intros f Hf _ _. eapply distinct_files; [done|done|apply Hl; by right|].
        intros ->. done.
Qed.

Lemma getFiles_nodup P w l w' n :
  resolve P (root w) = Ok n -> getFilesRecursively P P w = (Ok l, w') -> NoDup l.
Proof.
  intros Hn H. apply (walk_nodup emit_files emit_files_one n P []).
  rewrite <- walk_files_gen, <- (walking_walk walk_files P w n Hn).
  unfold getFilesRecursively in H. by rewrite H.
Qed.

(** The two walks of a run that returns. *)
Lemma staged_walks self S D w r w' st :
  staged self S D w r w' st ->
  creates D (root w) (root (after_mkdir st)) /\
  root (after_walks st) = root (after_mkdir st) /\
  (exists tm l es, resolve D (root (after_mkdir st)) = Ok (Dir tm l es)) /\
  NoDup (sourceFiles st) /\ NoDup (destFiles st) /\
  found S D (root (after_mkdir st)) (sourceFiles st) (destFiles st).
Proof.
  intros ((c & Hc) & Hmk & (w2 & Hsf & Hdf) & _).
  apply fs_mkdir_ok in Hmk. cbn [root clock called logged] in Hmk.
  pose proof (mkdirp_creates _ _ _ _ Hmk) as Hcr.
  destruct (mkdirp_is_dir _ _ _ _ Hmk) as (tmD & lD & esD & HD).
  assert (exists n, resolve S (root (after_mkdir st)) = Ok n) as [n Hn].
  { destruct (Hcr S) as [Hag|[(_ & Hno & _)|(_ & tm & tm' & l & es & es' & _ & H2)]].
    - exists c. by apply Hag.
    - by destruct (Hno c).
    - by eexists. }
  pose proof (getFiles_nodup _ _ _ _ _ Hn Hsf) as Hnd1.
  apply (getFiles_found _ _ _ _ _ Hn) in Hsf as (Hr2 & _ & _ & Hsfm).
  rewrite <- Hr2 in HD.
  pose proof (getFiles_nodup _ _ _ _ _ HD Hdf) as Hnd2.
  apply (getFiles_found _ _ _ _ _ HD) in Hdf as (Hr3 & _ & _ & Hdfm).
  rewrite Hr2 in HD, Hr3, Hdfm.
  split; [done|]. split; [done|]. split; [by eexists _, _, _|].
  split; [done|]. split; [done|]. by split.
Qed.

(** A leaf that stands after the copy loop and that the delete loop is
    not aimed at stands after the run. *)
Lemma later_leaf self S D w r w' st q c :
  staged self S D w r w' st -> node_kind c <> KDir ->
  (forall h, h ∈ destFiles st -> q = D ++ h ->
     h ∈ sourceFiles st \/ delete_excluded self h) ->
  resolve q (root (after_copy st)) = Ok c -> resolve q (root w') = Ok c.
Proof.
  intros (_ & _ & _ & _ & Hdel & Hclean & ->) Hc Hh Hr. rewrite log_root.
  apply cleanup_ok in Hclean as (dirs & w3 & Hdirs & Hloop).
  eapply cleanup_loop_leaf; [exact Hloop|done|].
  pose proof (walking_root walk_dirs D D (after_delete st)) as Hr3.
  unfold getDirectoriesRecursively in Hdirs. rewrite Hdirs in Hr3. cbn [snd] in Hr3.
  rewrite Hr3.
  eapply delete_loop_leaf; [exact Hdel|done| |done].
  intros h Hin. destruct (decide (q = D ++ h)) as [Heq|]; [|by left]. right.
  destruct (Hh h Hin Heq) as [?|?]; [left; by apply elem_of_list_to_set|by right].
Qed.

Lemma filter_ext_in {A} (P Q : A -> Prop) `{!forall x, Decision (P x)}
    `{!forall x, Decision (Q x)} (l : list A) :
  (forall x, x ∈ l -> P x <-> Q x) -> filter P l = filter Q l.
Proof.
  induction l as [|x l IH]; intros Hext; [done|]. rewrite !filter_cons.
  rewrite IH by (intros; apply Hext; by right).
  destruct (decide (P x)) as [HP|HP], (decide (Q x)) as [HQ|HQ]; try done.
  - destruct HQ. apply Hext; [by left|done].
  - destruct HP. apply Hext; [by left|done].
Qed.

Lemma delete_loop_patterns self D set l n w n' w' :
  for_of l (deleteStep self D set) n w = (Ok n', w') ->
  forall h, h ∈ l -> h ∈ set \/ delete_excluded self h
     \/ matchesPattern (rel_string h) (Some (deleteExclusions self)) = Ok false.
Proof.
  revert n w. induction l as [|g l IH]; intros n w H h Hh.
  - by apply elem_of_nil in Hh.
  - cbn [for_of] in H. apply bind_ok in H as (n1 & w1 & H1 & H).
    apply elem_of_cons in Hh as [->|Hh]; [|by eapply IH].
    unfold deleteStep in H1. case_bool_decide; [by left|]. right.
    apply bind_ok in H1 as ([] & w2 & H2 & _); apply lift_ok in H2 as [H2 _];
      [by left|by right].
Qed.

End MirrorFacts.

Module PruneFacts.
Import JS Pattern FS IO Engine Walk Run Frame Idem Mirror Prune.
Import FSFacts WalkFacts MonadFacts StepFacts SyncFacts CleanupFacts FrameFacts IdemFacts.
Import RunFacts ExcludeFacts ListingFacts CopyFacts MirrorFacts.

Lemma touches_absent p t t' q :
  touches p t t' -> (q = p -> absent p t') -> absent q t -> absent q t'.
Proof.
  intros Ht Hp Hq. destruct (Ht q) as [->|[Hag|(_ & tm & tm' & l & es & es' & H1 & _)]].
  - by apply Hp.
  - intros c Hc. apply Hag in Hc. by destruct (Hq c).
  - by destruct (Hq (Dir tm l es)).
Qed.

(** One round of the delete loop, when it returns. *)
Lemma deleteStep_cases self D set h n w n' w' :
  deleteStep self D set h n w = (Ok n', w') ->
  ((h ∈ set \/ delete_excluded self h) /\ n' = n /\ root w' = root w)
  \/ ((h ∉ set) /\ ~ delete_excluded self h /\ n' = Datatypes.S n
      /\ touches (D ++ h) (root w) (root w') /\ absent (D ++ h) (root w')
      /\ exists c, resolve (D ++ h) (root w) = Ok c /\ node_kind c <> KDir).
Proof.
  intros H. unfold deleteStep in H. case_bool_decide as Hin.
  { injection H as <- <-. left. split; [by left|done]. }
  apply bind_ok in H as (b & w1 & H1 & H). apply lift_ok in H1 as [Hb ->].
  destruct b.
  { apply bind_ok in H as ([] & w2 & H2 & H). rewrite log_run in H2.
    injection H2 as <-. injection H as <- <-. left. split; [by right|done]. }
  apply bind_ok in H as ([] & w2 & H2 & H).
  apply bind_ok in H as ([] & w3 & H3 & H). rewrite log_run in H3.
  injection H3 as <-. injection H as <- <-. rewrite log_root.
  apply fs_unlink_ok, unlink_file_touches in H2 as (Ht & Hgone & Hc).
  right. split; [done|]. split; [unfold delete_excluded; congruence|]. done.
Qed.

(** One round of the cleanup loop. *)
Lemma cleanupDirectory_cases self D S rel w w' :
  cleanupDirectory self D S rel w = (Ok tt, w') ->
  root w' = root w
  \/ (touches (D ++ rel) (root w) (root w') /\ absent (D ++ rel) (root w')
      /\ exists tm l es, resolve (D ++ rel) (root w) = Ok (Dir tm l es)).
Proof.
  intros H. destruct (cleanupDirectory_spec self D S rel w) as (w'' & Hrun & Hspec).
  rewrite Hrun in H. injection H as ->.
  destruct (resolve (S ++ rel) (root w)); [by left|].
  destruct (resolve (D ++ rel) (root w)) as [[|tm [] es|]|] eqn:Hd; try by left.
  destruct (decide _) as [[-> Hne]|]; [|by left]. right.
  assert (remove_dir (clock w) (D ++ rel) (root w) = Ok (root w')) as Hrm.
  { unfold remove_dir. rewrite Hd. cbn. by rewrite bool_decide_eq_true_2. }
  pose proof (remove_at _ _ _ _ Hspec) as Hgone.
  apply remove_dir_touches in Hrm as [Ht _].
  split; [done|]. split; [done|]. by eexists _, _, _.
Qed.

Section Loops.
Context (self : IdaSync) (S D : path).

Lemma delete_loop_absent set l n w n' w' q :
  for_of l (deleteStep self D set) n w = (Ok n', w') ->
  absent q (root w) -> absent q (root w').
Proof.
  revert n w. induction l as [|h l IH]; intros n w H Hq.
  - by injection H as _ <-.
  - cbn [for_of] in H. apply bind_ok in H as (n1 & w1 & H1 & H).
    eapply IH; [exact H|].
    apply deleteStep_cases in H1 as [(_ & _ & ->)|(_ & _ & _ & Ht & Hgone & _)]; [done|].
    eapply touches_absent; [exact Ht|done|done].
Qed.

Lemma cleanup_loop_absent l w w' q :
  for_of l (fun relativeDir _ => cleanupDirectory self D S relativeDir) tt w = (Ok tt, w') ->
  absent q (root w) -> absent q (root w').
Proof.
  revert w. induction l as [|rel l IH]; intros w H Hq.
  - by injection H as <-.
  - cbn [for_of] in H. apply bind_ok in H as ([] & w1 & H1 & H).
    eapply IH; [exact H|].
    apply cleanupDirectory_cases in H1 as [->|(Ht & Hgone & _)]; [done|].
    eapply touches_absent; [exact Ht|done|done].
Qed.

(** A file that the delete loop is to remove is gone after the loop. *)
Lemma delete_loop_gone set l n w n' w' h c :
  for_of l (deleteStep self D set) n w = (Ok n', w') ->
  h ∉ set -> ~ delete_excluded self h -> node_kind c <> KDir ->
  (resolve (D ++ h) (root w) = Ok c /\ h ∈ l) \/ absent (D ++ h) (root w) ->
  absent (D ++ h) (root w').
Proof.
  intros H Hset Hex Hc. revert n w H. induction l as [|g l IH]; intros n w H Hh.
  - injection H as _ <-. destruct Hh as [[_ Hh]|Hh]; [by apply elem_of_nil in Hh|done].
  - cbn [for_of] in H. apply bind_ok in H as (n1 & w1 & H1 & H).
    apply (IH _ _ H). destruct Hh as [[Hr Hin]|Hab].
    + destruct (decide (g = h)) as [->|Hne].
      * right. apply deleteStep_cases in H1 as [([?|?] & _)|(_ & _ & _ & _ & Hgone & _)];
          done.
      * left. split; [|apply elem_of_cons in Hin as [->|?]; done].
        eapply deleteStep_leaf; [exact H1|done| |done]. left. intros ?%app_inv_head. done.
    + right. eapply (delete_loop_absent set [g]); [|exact Hab].
      cbn [for_of]. erewrite bind_run by exact H1. reflexivity.
Qed.

(** A leaf that stands after a loop stood there before it, unless the
    loop put it there. *)
Lemma delete_loop_back set l n w n' w' q c :
  for_of l (deleteStep self D set) n w = (Ok n', w') ->
  node_kind c <> KDir -> resolve q (root w') = Ok c ->
  resolve q (root w) = Ok c
  /\ forall h, h ∈ l -> q = D ++ h -> h ∈ set \/ delete_excluded self h.
Proof.
  intros H Hc. revert n w H. induction l as [|g l IH]; intros n w H Hq.
  - injection H as _ <-. split; [done|]. intros h Hh. by apply elem_of_nil in Hh.
  - cbn [for_of] in H. apply bind_ok in H as (n1 & w1 & H1 & H).
    destruct (IH _ _ H Hq) as [Hq1 Hl].
    apply deleteStep_cases in H1 as [(Hg & _ & Hr)|(_ & _ & _ & Ht & Hgone & _)].
    + rewrite <- Hr. split; [done|]. intros h [->|Hh]%elem_of_cons; [done|by apply Hl].
    + assert (q <> D ++ g) as Hne by (intros ->; by destruct (Hgone c)).
      split; [by apply (touches_leaf _ _ _ q c Ht Hne Hc)|].
      intros h [->|Hh]%elem_of_cons; [done|by apply Hl].
Qed.

Lemma cleanup_loop_back l w w' q c :
  for_of l (fun relativeDir _ => cleanupDirectory self D S relativeDir) tt w = (Ok tt, w') ->
  node_kind c <> KDir -> resolve q (root w') = Ok c -> resolve q (root w) = Ok c.
Proof.
  intros H Hc. revert w H. induction l as [|rel l IH]; intros w H Hq.
  - by injection H as <-.
  - cbn [for_of] in H. apply bind_ok in H as ([] & w1 & H1 & H).
    specialize (IH _ H Hq).
    apply cleanupDirectory_cases in H1 as [<-|(Ht & Hgone & _)]; [done|].
    assert (q <> D ++ rel) as Hne by (intros ->; by destruct (Hgone c)).
    by apply (touches_leaf _ _ _ q c Ht Hne Hc).
Qed.

Lemma copy_loop_back l cs w cs' w' q c :
  for_of l (copyStep self S D) cs w = (Ok cs', w') ->
  node_kind c <> KDir -> resolve q (root w') = Ok c ->
  (exists g, g ∈ l /\ q = D ++ g) \/ resolve q (root w) = Ok c.
Proof.
  intros H Hc. revert cs w H. induction l as [|g l IH]; intros cs w H Hq.
  - injection H as _ <-. by right.
  - cbn [for_of] in H. apply bind_ok in H as ([c1 s1] & w1 & H1 & H).
    destruct (IH _ _ H Hq) as [(g' & Hg' & ->)|Hq1].
    { left. exists g'. split; [by right|done]. }
    destruct (decide (q = D ++ g)) as [->|Hne].
    { left. exists g. split; [by left|done]. }
    right. destruct cs as [c0 s0].
    apply copyStep_cases in H1
      as [(_ & _ & _ & <-)|[(_ & _ & _ & _ & <-)|(_ & _ & _ & _ & w0 & w2 & <- & Hr & Hcp)]];
      [done|done|].
    rewrite Hr in Hq1.
    apply copyFile_ok in Hcp as (t2 & t3 & ts & data & tm & Hcr & Ht1 & Ht2 & _).
    apply (creates_leaf _ _ _ q c Hcr Hc).
    apply (touches_leaf _ _ _ q c Ht1 Hne Hc).
    by apply (touches_leaf _ _ _ q c Ht2 Hne Hc).
Qed.

(** A directory that no round is aimed at stays a directory. *)
Lemma copy_loop_dir l cs w cs' w' q :
  for_of l (copyStep self S D) cs w = (Ok cs', w') ->
  (forall g, g ∈ l -> q <> D ++ g) ->
  is_dir q (root w) -> is_dir q (root w').
Proof.
  intros H. revert cs w H. induction l as [|g l IH]; intros cs w H Hl Hq.
  - by injection H as _ <-.
  - cbn [for_of] in H. apply bind_ok in H as ([c1 s1] & w1 & H1 & H).
    eapply IH; [exact H|intros; apply Hl; by right|]. destruct cs as [c0 s0].
    apply copyStep_cases in H1
      as [(_ & _ & _ & ->)|[(_ & _ & _ & _ & ->)|(_ & _ & _ & _ & w0 & w2 & Hr0 & -> & Hcp)]];
      [done|done|].
    rewrite <- Hr0 in Hq.
    apply copyFile_ok in Hcp as (t2 & t3 & ts & data & tm & Hcr & Ht1 & Ht2 & _).
    destruct Hq as (tq & lq & esq & Hq).
    destruct (creates_dir_fwd _ _ _ _ _ _ _ Hcr Hq) as (tm2 & es2 & H2).
    assert (q <> D ++ g) as Hne by (apply Hl; by left).
    destruct (proj1 (touches_dir _ _ _ q lq Ht1 Hne)) as (tm3 & es3 & H3); [by eexists _, _|].
    destruct (proj1 (touches_dir _ _ _ q lq Ht2 Hne)) as (tm4 & es4 & H4); [by eexists _, _|].
    by exists tm4, lq, es4.
Qed.

Lemma delete_loop_dir set l n w n' w' q :
  for_of l (deleteStep self D set) n w = (Ok n', w') ->
  is_dir q (root w) -> is_dir q (root w').
Proof.
  revert n w. induction l as [|h l IH]; intros n w H Hq.
  - by injection H as _ <-.
  - cbn [for_of] in H. apply bind_ok in H as (n1 & w1 & H1 & H).
    eapply IH; [exact H|].
    apply deleteStep_cases in H1 as [(_ & _ & ->)|(_ & _ & _ & Ht & _ & c & Hc & Hk)];
      [done|].
    destruct Hq as (tq & lq & esq & Hq).
    assert (q <> D ++ h) as Hne.
    { intros ->. rewrite Hc in Hq. by injection Hq as ->. }
    destruct (proj1 (touches_dir _ _ _ q lq Ht Hne)) as (tm3 & es3 & H3); [by eexists _, _|].
    by exists tm3, lq, es3.
Qed.

Lemma cleanup_loop_dir l w w' q :
  for_of l (fun relativeDir _ => cleanupDirectory self D S relativeDir) tt w = (Ok tt, w') ->
  (forall rel, rel ∈ l -> q <> D ++ rel) ->
  is_dir q (root w) -> is_dir q (root w').
Proof.
  revert w. induction l as [|rel l IH]; intros w H Hl Hq.
  - by injection H as <-.
  - cbn [for_of] in H. apply bind_ok in H as ([] & w1 & H1 & H).
    eapply IH; [exact H|intros; apply Hl; by right|].
    apply cleanupDirectory_cases in H1 as [->|(Ht & _)]; [done|].
    destruct Hq as (tq & lq & esq & Hq).
    assert (q <> D ++ rel) as Hne by (apply Hl; by left).
    destruct (proj1 (touches_dir _ _ _ q lq Ht Hne)) as (tm3 & es3 & H3); [by eexists _, _|].
    by exists tm3, lq, es3.
Qed.

End Loops.
End PruneFacts.

Module MatchFacts.
Import JS RegExp Pattern PlainPattern Case.
Import PatternFacts.

(** The result for one pattern is that of the callback of [some]. *)
Lemma matchesPattern_single filePath p :
  matchesPattern filePath (Some [p])
  = matchesOne (basename filePath) (replaceAll backslash [slash] filePath) p.
Proof.
  unfold matchesPattern. cbn [some].
  by destruct (matchesOne _ _ p) as [[]|].
Qed.

Lemma matchesPattern_some filePath ps :
  matchesPattern filePath (Some ps)
  = some (matchesOne (basename filePath) (replaceAll backslash [slash] filePath)) ps.
Proof. by destruct ps. Qed.

Lemma some_ext {A} (f g : A -> result bool) l :
  (forall x, x ∈ l -> f x = g x) -> some f l = some g l.
Proof.
  induction l as [|x l IH]; intros H; [done|]. cbn [some].
  rewrite (H x) by by left. rewrite IH by (intros; apply H; by right). done.
Qed.

Lemma span_all (p : ascii -> bool) s :
  Forall (fun c => p c = true) s -> span p s = (s, []).
Proof.
  induction s as [|c s IH]; intros H; [done|]. apply Forall_cons in H as [Hc H].
  cbn [span]. by rewrite Hc, IH.
Qed.

Lemma span_stop (p : ascii -> bool) a x b :
  Forall (fun c => p c = true) a -> p x = false -> span p (a ++ x :: b) = (a, x :: b).
Proof.
  induction a as [|c a IH]; intros H Hx; cbn [span app].
  - by rewrite Hx.
  - apply Forall_cons in H as [Hc H]. by rewrite Hc, IH.
Qed.

Lemma not_slash_spec c : negb (Ascii.eqb slash c) = true <-> c <> slash.
Proof.
  rewrite negb_true_iff. split.
  - intros H ->. by rewrite Ascii.eqb_refl in H.
  - intros H. destruct (Ascii.eqb slash c) eqn:E; [|done].
    apply Ascii.eqb_eq in E. congruence.
Qed.

Lemma elem_of_rev_1 (c : ascii) s : c ∈ rev s -> c ∈ s.
Proof. rewrite !list_elem_of_In. apply in_rev. Qed.

Lemma basename_segment name : slash ∉ name -> basename name = name.
Proof.
  intros H. unfold basename.
  assert (Forall (fun c => negb (Ascii.eqb slash c) = true) (rev name)) as Hall.
  { apply Forall_forall. intros c Hc. apply not_slash_spec. intros ->.
    apply H. by apply elem_of_rev_1. }
  destruct (rev name) as [|c r] eqn:E.
  - cbn. by rewrite <- (rev_involutive name), E.
  - assert (Ascii.eqb slash c = false) as Hc.
    { apply Forall_cons in Hall as [Hc _]. by apply negb_true_iff. }
    cbn [span]. rewrite Hc. cbn [snd]. rewrite span_all by done. cbn [fst].
    by rewrite <- E, rev_involutive.
Qed.

Lemma basename_below dir name :
  slash ∉ name -> name <> [] -> basename (dir ++ slash :: name) = name.
Proof.
  intros H Hne. unfold basename.
  rewrite rev_app_distr. cbn [rev]. rewrite <- app_assoc. cbn [app].
  assert (Forall (fun c => negb (Ascii.eqb slash c) = true) (rev name)) as Hall.
  { apply Forall_forall. intros c Hc. apply not_slash_spec. intros ->.
    apply H. by apply elem_of_rev_1. }
  destruct (rev name) as [|c r] eqn:E.
  { apply (f_equal (@rev _)) in E. rewrite rev_involutive in E. done. }
  assert (Ascii.eqb slash c = false) as Hc.
  { apply Forall_cons in Hall as [Hc _]. by apply negb_true_iff. }
  cbn [span app]. rewrite Hc. cbn [snd].
  change (c :: r ++ slash :: rev dir) with ((c :: r) ++ slash :: rev dir).
  rewrite span_stop; [|done|by rewrite Ascii.eqb_refl]. cbn [fst].
  by rewrite <- E, rev_involutive.
Qed.

Lemma canonicalize_slash c : canonicalize c = canonicalize slash -> c = slash.
Proof. destruct c as [[] [] [] [] [] [] [] []]; vm_compute; congruence. Qed.

Lemma canonicalize_backslash c : canonicalize c = canonicalize backslash -> c = backslash.
Proof. destruct c as [[] [] [] [] [] [] [] []]; vm_compute; congruence. Qed.

Lemma same_case_sym s s' : same_case s s' -> same_case s' s.
Proof. intros H. apply Forall2_flip. eapply Forall2_impl; [exact H|]. by intros ? ? ->. Qed.

Lemma same_case_slash c c' :
  canonicalize c = canonicalize c' -> Ascii.eqb slash c = Ascii.eqb slash c'.
Proof.
  intros H. destruct (Ascii.eqb slash c) eqn:E, (Ascii.eqb slash c') eqn:E'; try done.
  - apply Ascii.eqb_eq in E. subst c. symmetry in H. apply canonicalize_slash in H.
    subst c'. by rewrite Ascii.eqb_refl in E'.
  - apply Ascii.eqb_eq in E'. subst c'. apply canonicalize_slash in H.
    subst c. by rewrite Ascii.eqb_refl in E.
Qed.

Lemma same_case_span (p : ascii -> bool) s s' :
  (forall c c', canonicalize c = canonicalize c' -> p c = p c') ->
  same_case s s' ->
  same_case (span p s).1 (span p s').1 /\ same_case (span p s).2 (span p s').2.
Proof.
  intros Hp H. induction H as [|c c' s s' Hc H IH]; [by split; constructor|].
  cbn [span]. rewrite <- (Hp c c' Hc). destruct (p c).
  - destruct (span p s), (span p s'). cbn in *. destruct IH. split; [by constructor|done].
  - split; [constructor|by constructor].
Qed.

Lemma same_case_rev s s' : same_case s s' -> same_case (rev s) (rev s').
Proof. intros H. rewrite !rev_alt. by apply Forall2_reverse. Qed.

Lemma same_case_basename s s' : same_case s s' -> same_case (basename s) (basename s').
Proof.
  intros H. unfold basename. apply same_case_rev.
  apply same_case_span; [intros c c' Hc; by rewrite (same_case_slash c c' Hc)|].
  apply same_case_span; [apply same_case_slash|]. by apply same_case_rev.
Qed.

Lemma same_case_normalize s s' :
  same_case s s' ->
  same_case (replaceAll backslash [slash] s) (replaceAll backslash [slash] s').
Proof.
  intros H. induction H as [|c c' s s' Hc H IH]; [constructor|].
  unfold replaceAll in *. cbn [flat_map].
  assert (Ascii.eqb c backslash = Ascii.eqb c' backslash) as <-.
  { destruct (Ascii.eqb c backslash) eqn:E, (Ascii.eqb c' backslash) eqn:E'; try done.
    - apply Ascii.eqb_eq in E. subst c. symmetry in Hc.
      apply canonicalize_backslash in Hc. subst c'. by rewrite Ascii.eqb_refl in E'.
    - apply Ascii.eqb_eq in E'. subst c'. apply canonicalize_backslash in Hc.
      subst c. by rewrite Ascii.eqb_refl in E. }
  destruct (Ascii.eqb c backslash); cbn [app]; constructor; done.
Qed.

Lemma glob_same_case p s s' : same_case s s' -> GlobSpec.glob p s -> GlobSpec.glob p s'.
Proof.
  intros H Hg. revert s' H. induction Hg as [|p s t Hs Hg IH|p c t Hc Hg IH|a c p t Ha1 Ha2 Hc Hg IH];
    intros s' H.
  - apply Forall2_nil_inv_l in H as ->. constructor.
  - apply Forall2_app_inv_l in H as (s1 & t1 & H1 & H2 & ->).
    constructor; [|by apply IH].
    clear -Hs H1. induction H1 as [|c c' s s' Hc H1 IH]; [constructor|].
    apply Forall_cons in Hs as [Hc' Hs]. constructor; [|by apply IH].
    intros ->. by apply canonicalize_slash in Hc.
  - apply Forall2_cons_inv_l in H as (c' & t' & Hcc & H & ->).
    constructor; [|by apply IH]. intros ->. by apply canonicalize_slash in Hcc.
  - apply Forall2_cons_inv_l in H as (c' & t' & Hcc & H & ->).
    constructor; [done|done| |by apply IH].
    unfold same_char in *. by rewrite <- Hcc.
Qed.

End MatchFacts.

Module CLIFacts.
Import JS FS IO Engine CLI.

Lemma parse_copy ps rest o :
  parse_options (flat_map (fun p => [str "--copy-exclude"; p]) ps ++ rest) o
  = parse_options rest
      (CliOptions (cli_copyExclusions o ++ ps) (cli_deleteExclusions o) (cli_verbose o)).
Proof.
  revert o. induction ps as [|p ps IH]; intros o.
  - cbn. rewrite app_nil_r. by destruct o.
  - cbn [flat_map app parse_options]. rewrite bool_decide_eq_true_2 by done.
    rewrite IH. cbn. by rewrite <- app_assoc.
Qed.

Lemma parse_delete ps rest o :
  parse_options (flat_map (fun p => [str "--delete-exclude"; p]) ps ++ rest) o
  = parse_options rest
      (CliOptions (cli_copyExclusions o) (cli_deleteExclusions o ++ ps) (cli_verbose o)).
Proof.
  revert o. induction ps as [|p ps IH]; intros o.
  - cbn. rewrite app_nil_r. by destruct o.
  - cbn [flat_map app parse_options]. rewrite bool_decide_eq_false_2 by done.
    rewrite bool_decide_eq_true_2 by done.
    rewrite IH. cbn. by rewrite <- app_assoc.
Qed.

Lemma parse_command_line o rest :
  parse_options (flat_map (fun p => [str "--copy-exclude"; p]) (cli_copyExclusions o)
                 ++ flat_map (fun p => [str "--delete-exclude"; p]) (cli_deleteExclusions o)
                 ++ rest) (CliOptions [] [] false)
  = parse_options rest
      (CliOptions (cli_copyExclusions o) (cli_deleteExclusions o) false).
Proof. by rewrite parse_copy, parse_delete. Qed.

Lemma no_help_length args : wants_help args = false ->
  forall source destination rest, args = source :: destination :: rest ->
  (length args <? 2) || wants_help args = false.
Proof. intros H source destination rest ->. by rewrite H. Qed.

Lemma parse_unknown arg tail o :
  is_verbose_flag arg = false ->
  (arg = str "--copy-exclude" \/ arg = str "--delete-exclude" -> tail = []) ->
  parse_options (arg :: tail) o = inr arg.
Proof.
  intros Hv Hlast. cbn [parse_options]. rewrite Hv. destruct tail as [|value tail]; [done|].
  rewrite !bool_decide_eq_false_2; [done| |]; intros ->;
    (assert (value :: tail = []) by (apply Hlast; auto)); done.
Qed.

End CLIFacts.

Module SweepFacts.
Import JS Pattern FS IO Engine Walk Run Frame Idem Mirror Prune Sweep.
Import FSFacts WalkFacts MonadFacts StepFacts SyncFacts CleanupFacts FrameFacts IdemFacts.
Import RunFacts ExcludeFacts ListingFacts CopyFacts MirrorFacts PruneFacts.

Lemma for_of_app {A St} (l1 l2 : list A) (body : A -> St -> M St) s w s' w' :
  for_of (l1 ++ l2) body s w = (Ok s', w') ->
  exists s1 w1, for_of l1 body s w = (Ok s1, w1) /\ for_of l2 body s1 w1 = (Ok s', w').
Proof.
  revert s w. induction l1 as [|x l1 IH]; intros s w H.
  - by exists s, w.
  - cbn [app for_of] in *. apply bind_ok in H as (s0 & w0 & H0 & H).
    destruct (IH _ _ H) as (s1 & w1 & H1 & H2). exists s1, w1.
    split; [|done]. by erewrite bind_run by exact H0.
Qed.

Section Sweep.
Context (self : IdaSync) (S D : path).

(** The cleanup makes no directory. *)
Lemma cleanup_loop_dir_back l w w' q tm ls es :
  sweep self D S l w = (Ok tt, w') ->
  resolve q (root w') = Ok (Dir tm ls es) ->
  exists tm0 es0, resolve q (root w) = Ok (Dir tm0 ls es0).
Proof.
  unfold sweep. revert w. induction l as [|rel l IH]; intros w H Hq.
  - injection H as <-. by eexists _, _.
  - cbn [for_of] in H. apply bind_ok in H as ([] & w1 & H1 & H).
    destruct (IH _ H Hq) as (tm1 & es1 & Hq1).
    apply cleanupDirectory_cases in H1 as [<-|(Ht & Hgone & _)]; [by eexists _, _|].
    assert (q <> D ++ rel) as Hne by (intros ->; by destruct (Hgone (Dir tm1 ls es1))).
    apply (touches_dir _ _ _ q ls Ht Hne). by eexists _, _.
Qed.

(** What is gone after the cleanup was the aim of one of its rounds. *)
Lemma cleanup_loop_removed l w w' q c :
  sweep self D S l w = (Ok tt, w') ->
  resolve q (root w) = Ok c -> absent q (root w') ->
  exists r, r ∈ l /\ q = D ++ r.
Proof.
  unfold sweep. revert w c. induction l as [|rel l IH]; intros w c H Hq Hgone.
  - injection H as <-. by destruct (Hgone c).
  - cbn [for_of] in H. apply bind_ok in H as ([] & w1 & H1 & H).
    destruct (resolve q (root w1)) as [c1|e1] eqn:Hq1.
    { destruct (IH _ _ H Hq1 Hgone) as (r & Hr & ->). exists r. split; [by right|done]. }
    apply cleanupDirectory_cases in H1 as [Hr|(Ht & _)]; [congruence|].
    destruct (Ht q) as [->|[Hag|(_ & tm & tm' & ls & es & es' & _ & H2)]].
    + exists rel. split; [by left|done].
    + apply Hag in Hq. congruence.
    + congruence.
Qed.

(** An empty directory that is left has a counterpart in the source. *)
Lemma cleanup_loop_no_empty l w w' rel tm :
  sweep self D S l w = (Ok tt, w') ->
  StronglySorted deeper_first l -> rel ∈ l -> rel <> [] ->
  resolve (D ++ rel) (root w') = Ok (Dir tm true ∅) ->
  exists c, resolve (S ++ rel) (root w) = Ok c.
Proof.
  intros H Hsorted Hin Hne Hend.
  apply list_elem_of_split in Hin as (l1 & l2 & ->).
  apply StronglySorted_app_1_r, StronglySorted_inv in Hsorted as [_ Hl2].
  unfold sweep in H. apply for_of_app in H as ([] & wa & Ha & H).
  cbn [for_of] in H. apply bind_ok in H as ([] & wb & Hb & H).
  destruct (cleanup_loop_dir_back _ _ _ _ _ _ _ H Hend) as (tmb & esb & Hdb).
  destruct (cleanupDirectory_spec self D S rel wa) as (wb' & Hrun & Hspec).
  rewrite Hrun in Hb. injection Hb as ->.
  destruct (resolve (S ++ rel) (root wa)) as [c|e] eqn:Hs.
  { destruct (resolve (S ++ rel) (root w)) as [c0|e0] eqn:Hs0; [by exists c0|].
    assert (absent (S ++ rel) (root wa)) as Hab.
    { eapply cleanup_loop_absent; [exact Ha|]. intros c'. congruence. }
    by destruct (Hab c). }
  exfalso.
  destruct (resolve (D ++ rel) (root wa)) as [[|ta [] ea|]|] eqn:Hda;
    try (rewrite Hspec in Hdb; congruence).
  destruct (decide (ea = ∅ /\ D ++ rel <> [])) as [[-> _]|Hno].
  { pose proof (remove_at _ _ _ _ Hspec) as Hgone. by destruct (Hgone (Dir tmb true esb)). }
  rewrite Hspec, Hda in Hdb. injection Hdb as _ <-.
  assert (ea <> ∅) as Hea.
  { intros ->. apply Hno. split; [done|]. intros [? ->]%app_eq_nil. done. }
  apply map_choose in Hea as (x & cx & Hx).
  destruct (cleanup_loop_removed l2 wb w' ((D ++ rel) ++ [x]) cx) as (r & Hr & Heq).
  - exact H.
  - rewrite resolve_app, Hspec, Hda. cbn. by rewrite Hx.
  - intros c'. rewrite resolve_app, Hend. cbn. by rewrite lookup_empty.
  - rewrite <- app_assoc in Heq. apply app_inv_head in Heq. subst r.
    rewrite Forall_forall in Hl2. specialize (Hl2 _ Hr). unfold deeper_first in Hl2.
    assert ([x] <> []) as Hx' by done.
    pose proof (depth_child rel [x] Hne Hx'). lia.
Qed.

End Sweep.
End SweepFacts.

Module InvalidFacts.
Import JS RegExp Pattern FS IO Engine Run.
Import PatternFacts MonadFacts MatchFacts.

(** When the callback throws at [bad], [some] returns only if an earlier
    element gave [true]. *)
Lemma some_before {A} (f : A -> result bool) l1 bad l2 b e :
  f bad = Err e -> some f (l1 ++ bad :: l2) = Ok b ->
  exists x, x ∈ l1 /\ f x = Ok true.
Proof.
  intros Hbad. induction l1 as [|x l1 IH]; cbn [app some]; intros H.
  - by rewrite Hbad in H.
  - destruct (f x) as [[]|e'] eqn:Hx; cbn in H; [|apply IH in H as (y & Hy & Hfy)|done].
    + exists x. split; [by left|done].
    + exists y. split; [by right|done].
Qed.

Lemma matchesOne_invalid fileName normalizedPath p e :
  RegExp.new (regexSource p) = Err e -> matchesOne fileName normalizedPath p = Err e.
Proof. intros H. unfold matchesOne. by rewrite H. Qed.

Lemma matchesPattern_before filePath ps1 bad ps2 b e :
  RegExp.new (regexSource bad) = Err e ->
  matchesPattern filePath (Some (ps1 ++ bad :: ps2)) = Ok b ->
  exists p, p ∈ ps1 /\ matchesPattern filePath (Some [p]) = Ok true.
Proof.
  intros Hbad H. rewrite matchesPattern_some in H.
  eapply some_before in H as (p & Hp & Hm); [|by apply matchesOne_invalid].
  exists p. split; [done|]. by rewrite matchesPattern_single.
Qed.

End InvalidFacts.

Module LogFacts.
Import JS Pattern FS IO Engine Walk Run Preserve Mirror Sweep Log.
Import MonadFacts StepFacts SyncFacts CleanupFacts RunFacts PreserveFacts MirrorFacts.

Lemma count_app p ms1 ms2 : count p (ms1 ++ ms2) = count p ms1 + count p ms2.
Proof. unfold count. by rewrite filter_app, length_app. Qed.

Lemma count_nil p : count p [] = 0.
Proof. done. Qed.

Lemma count_cons p m ms : count p (m :: ms) = (if p m then 1 else 0) + count p ms.
Proof.
  unfold count. rewrite filter_cons. destruct (p m); [by rewrite decide_True|].
  by rewrite decide_False.
Qed.

Lemma tally_app ms1 ms2 :
  tally (ms1 ++ ms2)
  = Result (copied (tally ms1) + copied (tally ms2))
           (deleted (tally ms1) + deleted (tally ms2))
           (skipped (tally ms1) + skipped (tally ms2)).
Proof. unfold tally. by rewrite !count_app. Qed.

Lemma wrote_nil w w' : console w' = console w -> wrote [] w w'.
Proof. unfold wrote. intros ->. by rewrite app_nil_r. Qed.

Lemma wrote_trans ms1 ms2 w1 w2 w3 :
  wrote ms1 w1 w2 -> wrote ms2 w2 w3 -> wrote (ms1 ++ ms2) w1 w3.
Proof. unfold wrote. intros H1 ->. by rewrite H1, app_assoc. Qed.

Global Instance wrote_uncounted_preorder : PreOrder wrote_uncounted.
Proof.
  split.
  - intros w. exists []. split; [by apply wrote_nil|done].
  - intros w1 w2 w3 (ms1 & H1 & T1) (ms2 & H2 & T2). exists (ms1 ++ ms2).
    split; [by eapply wrote_trans|]. rewrite tally_app, T1, T2. done.
Qed.

Lemma reading_console {A} c (f : node -> result A) : preserves same_console (reading c f).
Proof. intros w. done. Qed.

Lemma walking_console walker P B : preserves same_console (walking walker P B).
Proof.
  intros w. unfold walking.
  by destruct (resolve P (root w)) as [n|[[]| | |]].
Qed.

Lemma copyFile_console src dst : preserves same_console (copyFile src dst).
Proof.
  unfold copyFile.
  apply preserves_bind; [apply _|apply writing_same_console|]. intros _.
  apply preserves_bind; [apply _|apply writing_same_console|]. intros _.
  apply preserves_bind; [apply _|apply reading_console|]. intros st.
  apply writing_same_console.
Qed.

Lemma logged_wrote self m w : verbose self = true -> wrote [m] w (logged self m w).
Proof. intros Hv. unfold wrote, logged. cbn. by rewrite Hv. Qed.

Section Verbose.
Context (self : IdaSync) (S D : path).
Hypothesis Hverbose : verbose self = true.
#[local] Set Default Proof Using "All".

Lemma copyStep_log f c s w c' s' w' :
  copyStep self S D f (c, s) w = (Ok (c', s'), w') ->
  exists ms, wrote ms w w'
    /\ c' = c + count is_copied ms /\ s' = s + count is_skipped ms
    /\ count is_deleted ms = 0.
Proof.
  intros H. unfold copyStep in H.
  apply bind_ok in H as (b & w1 & H1 & H). apply lift_ok in H1 as [Hb ->].
  destruct b.
  { apply bind_ok in H as ([] & w2 & H2 & H). rewrite log_run in H2.
    injection H2 as <-. injection H as <- <- <-. exists [SkippingCopy f].
    split; [by apply logged_wrote|]. rewrite ?count_cons, ?count_nil. cbn [is_copied is_skipped is_deleted]. lia. }
  apply bind_ok in H as (different & w2 & H2 & H).
  rewrite filesAreDifferent_stale in H2. injection H2 as <- <-.
  destruct (stale S D (root w) f).
  2:{ injection H as <- <- <-. exists []. split; [by apply wrote_nil|].
      rewrite ?count_cons, ?count_nil. cbn [is_copied is_skipped is_deleted]. lia. }
  apply bind_ok in H as ([] & w3 & H3 & H).
  apply bind_ok in H as ([] & w4 & H4 & H). rewrite log_run in H4.
  injection H4 as <-. injection H as <- <- <-. exists [Copied f].
  split.
  - pose proof (copyFile_console (S ++ f) (D ++ f)
                  (calls [Stat (S ++ f); Stat (D ++ f)] w)) as Hc.
    rewrite H3 in Hc. unfold same_console in Hc. cbn [snd calls console] in Hc.
    unfold wrote, logged. cbn. by rewrite Hverbose, Hc.
  - rewrite ?count_cons, ?count_nil. cbn [is_copied is_skipped is_deleted]. lia.
Qed.

Lemma copy_loop_log l c s w c' s' w' :
  for_of l (copyStep self S D) (c, s) w = (Ok (c', s'), w') ->
  exists ms, wrote ms w w'
    /\ c' = c + count is_copied ms /\ s' = s + count is_skipped ms
    /\ count is_deleted ms = 0.
Proof.
  revert c s w. induction l as [|f l IH]; intros c s w H.
  - injection H as <- <- <-. exists []. split; [by apply wrote_nil|].
    rewrite ?count_cons, ?count_nil. cbn [is_copied is_skipped is_deleted]. lia.
  - cbn [for_of] in H. apply bind_ok in H as ([c1 s1] & w1 & H1 & H).
    apply copyStep_log in H1 as (ms1 & Hw1 & -> & -> & Hd1).
    apply IH in H as (ms2 & Hw2 & -> & -> & Hd2).
    exists (ms1 ++ ms2). split; [by eapply wrote_trans|].
    rewrite !count_app. lia.
Qed.

Lemma deleteStep_log set h n w n' w' :
  deleteStep self D set h n w = (Ok n', w') ->
  exists ms, wrote ms w w'
    /\ n' = n + count is_deleted ms /\ count is_copied ms = 0
    /\ count is_skipped ms = 0.
Proof.
  intros H. unfold deleteStep in H. case_bool_decide as Hin.
  { injection H as <- <-. exists []. split; [by apply wrote_nil|].
    rewrite ?count_cons, ?count_nil. cbn [is_copied is_skipped is_deleted]. lia. }
  apply bind_ok in H as (b & w1 & H1 & H). apply lift_ok in H1 as [Hb ->].
  destruct b.
  { apply bind_ok in H as ([] & w2 & H2 & H). rewrite log_run in H2.
    injection H2 as <-. injection H as <- <-. exists [SkippingDelete h].
    split; [by apply logged_wrote|]. rewrite ?count_cons, ?count_nil. cbn [is_copied is_skipped is_deleted]. lia. }
  apply bind_ok in H as ([] & w2 & H2 & H).
  apply bind_ok in H as ([] & w3 & H3 & H). rewrite log_run in H3.
  injection H3 as <-. injection H as <- <-. exists [Deleted h].
  split.
  - pose proof (writing_same_console (Unlink (D ++ h))
                  (fun now => unlink_file now (D ++ h)) w) as Hc.
    unfold fs_unlink in H2. rewrite H2 in Hc. unfold same_console in Hc. cbn [snd] in Hc.
    unfold wrote, logged. cbn. by rewrite Hverbose, Hc.
  - rewrite ?count_cons, ?count_nil. cbn [is_copied is_skipped is_deleted]. lia.
Qed.

Lemma delete_loop_log set l n w n' w' :
  for_of l (deleteStep self D set) n w = (Ok n', w') ->
  exists ms, wrote ms w w'
    /\ n' = n + count is_deleted ms /\ count is_copied ms = 0
    /\ count is_skipped ms = 0.
Proof.
  revert n w. induction l as [|h l IH]; intros n w H.
  - injection H as <- <-. exists []. split; [by apply wrote_nil|].
    rewrite ?count_cons, ?count_nil. cbn [is_copied is_skipped is_deleted]. lia.
  - cbn [for_of] in H. apply bind_ok in H as (n1 & w1 & H1 & H).
    apply deleteStep_log in H1 as (ms1 & Hw1 & -> & Hc1 & Hs1).
    apply IH in H as (ms2 & Hw2 & -> & Hc2 & Hs2).
    exists (ms1 ++ ms2). split; [by eapply wrote_trans|].
    rewrite !count_app. lia.
Qed.

End Verbose.

Lemma same_console_uncounted w w' : same_console w w' -> wrote_uncounted w w'.
Proof. intros H. exists []. split; [by apply wrote_nil|done]. Qed.

Lemma cleanupDirectory_log self D S rel :
  preserves wrote_uncounted (cleanupDirectory self D S rel).
Proof.
  unfold cleanupDirectory.
  apply preserves_try_catch; [apply _|intros w; by apply same_console_uncounted|].
  intros _.
  apply preserves_try_catch; [apply _| |intros; apply preserves_ret, _].
  apply preserves_bind; [apply _|intros w; by apply same_console_uncounted|].
  intros entries. destruct (length entries =? 0); [|apply preserves_ret, _].
  apply preserves_bind; [apply _| |].
  - intros w. apply same_console_uncounted, writing_same_console.
  - intros _ w. rewrite log_run. exists (if verbose self then [RemovedEmptyDirectory rel] else []).
    split; [done|]. destruct (verbose self); unfold tally; by rewrite ?count_cons, ?count_nil.
Qed.

Lemma cleanup_log self D S : preserves wrote_uncounted (cleanupEmptyDirectories self D S).
Proof.
  unfold cleanupEmptyDirectories.
  apply preserves_bind; [apply _| |].
  - intros w. apply same_console_uncounted, walking_console.
  - intros dirs. apply preserves_for_of; [apply _|]. intros rel [].
    apply cleanupDirectory_log.
Qed.

End LogFacts.

Module AgainFacts.
Import JS Pattern FS IO Engine Walk Run Frame Idem Mirror Prune Sweep Idle.
Import FSFacts WalkFacts MonadFacts StepFacts SyncFacts CleanupFacts FrameFacts IdemFacts.
Import RunFacts ExcludeFacts ListingFacts CopyFacts MirrorFacts PruneFacts SweepFacts.

Lemma cleanup_loop_idle self D S l w :
  (forall rel, rel ∈ l -> idle S D (root w) rel) ->
  exists w', sweep self D S l w = (Ok tt, w') /\ root w' = root w.
Proof.
  unfold sweep. revert w. induction l as [|rel l IH]; intros w Hl; [by exists w|].
  cbn [for_of]. destruct (cleanupDirectory_spec self D S rel w) as (w1 & Hrun & Hspec).
  erewrite bind_run by exact Hrun.
  assert (root w1 = root w) as Hr.
  { destruct (Hl rel) as [[c Hc]|Hno]; [by left|by rewrite Hc in Hspec|].
    destruct (resolve (S ++ rel) (root w)); [done|].
    destruct (resolve (D ++ rel) (root w)) as [[|tm [] es|]|] eqn:Hd; try done.
    destruct (decide _) as [[-> _]|]; [|done]. destruct Hno. by exists tm. }
  destruct (IH w1) as (w' & Hloop & Hr'); [intros; rewrite Hr; apply Hl; by right|].
  exists w'. split; [done|congruence].
Qed.

(** After a run, every directory of the destination is one that the
    cleanup leaves alone. *)
Lemma after_run_idle self S D w r w' st rel tm :
  staged self S D w r w' st -> S = D \/ apart S D ->
  resolve (D ++ rel) (root w') = Ok (Dir tm true ∅) -> rel <> [] ->
  exists c, resolve (S ++ rel) (root w') = Ok c.
Proof.
  intros Hst Hsd Hend Hne. destruct Hsd as [->|Hap]; [by eexists|].
  pose proof Hst as (_ & _ & _ & _ & _ & Hclean & ->). rewrite log_root in *.
  apply cleanup_ok in Hclean as (dirs & w1 & Hdirs & Hloop).
  destruct (cleanup_loop_dir_back self S D _ _ _ _ _ _ _ Hloop Hend) as (tm1 & es1 & H1).
  pose proof (walking_root walk_dirs D D (after_delete st)) as Hr.
  pose proof Hdirs as Hdirs'.
  unfold getDirectoriesRecursively in Hdirs'. rewrite Hdirs' in Hr. cbn [snd] in Hr.
  destruct (resolve D (root (after_delete st))) as [n|e] eqn:HD.
  2:{ rewrite Hr, resolve_app, HD in H1. done. }
  rewrite getDirs_gen in Hdirs.
  destruct (walking_found emit_dirs D _ dirs w1 n HD Hdirs) as (_ & _ & _ & Hmem).
  destruct (cleanup_loop_no_empty self S D (sort by_depth dirs) w1 _ rel tm Hloop)
    as [c Hc]; [apply sort_sorted| |done|done|].
  { rewrite (sort_perm by_depth dirs). apply Hmem. rewrite Hr in H1.
    exists rel, (Dir tm1 true es1). split; [done|]. split; [done|]. by left. }
  destruct (decide (node_kind c = KDir)) as [Hk|Hk].
  - destruct c as [|tc lc ec|]; [done| |done].
    destruct (cleanup_loop_dir self S D (sort by_depth dirs) w1 _ (S ++ rel) Hloop)
      as (t2 & l2 & e2 & H2); [|by eexists _, _, _|by eexists].
    intros r' _ Heq. destruct Hap as [Ha1 Ha2].
    assert (S `prefix_of` (S ++ rel)) as P1 by by apply prefix_app_r.
    assert (D `prefix_of` (S ++ rel)) as P2 by (rewrite Heq; by apply prefix_app_r).
    destruct (prefix_weak_total _ _ _ P1 P2); done.
  - exists c. by eapply (cleanup_loop_leaf self D S).
Qed.

End AgainFacts.

Module OrderFacts.
Import JS Pattern FS IO Engine Walk Run Frame Idem Preserve Prune Sweep Order.
Import FSFacts WalkFacts MonadFacts StepFacts SyncFacts CleanupFacts FrameFacts IdemFacts.
Import RunFacts ExcludeFacts PreserveFacts PruneFacts SweepFacts.

Global Instance unchecked_preorder : PreOrder unchecked.
Proof.
  split.
  - intros w. exists []. by rewrite app_nil_r.
  - intros w1 w2 w3 (cs1 & H1 & Hc1) (cs2 & H2 & Hc2). exists (cs1 ++ cs2). split.
    + by rewrite H2, H1, app_assoc.
    + unfold checked in *. by rewrite omap_app, Hc1, Hc2.
Qed.

Global Instance no_new_unlistable_preorder : PreOrder no_new_unlistable.
Proof.
  split.
  - intros w q tm es H. by eexists _, _.
  - intros w1 w2 w3 H1 H2 q tm es H.
    destruct (H2 _ _ _ H) as (tm2 & es2 & H'). by eapply H1.
Qed.

Lemma unchecked_reading {A} c (f : node -> result A) :
  checked [c] = [] -> preserves unchecked (reading c f).
Proof. intros Hc w. by exists [c]. Qed.

Lemma unchecked_writing c f : checked [c] = [] -> preserves unchecked (writing c f).
Proof.
  intros Hc w. unfold writing.
  destruct (f (clock w) (root w)); by exists [c].
Qed.

Lemma unchecked_log self m : preserves unchecked (log self m).
Proof. intros w. rewrite log_run. exists []. by rewrite app_nil_r. Qed.

(** One step of the cleanup checks its directory under the source,
    once, before anything else. *)
Lemma cleanupDirectory_trace self D S rel w :
  exists cs, trace (cleanupDirectory self D S rel w).2 = trace w ++ Access (S ++ rel) :: cs
             /\ checked cs = [].
Proof.
  unfold cleanupDirectory, try_catch at 1. rewrite fs_access_run.
  destruct (resolve (S ++ rel) (root w)) as [c|e]; cbn [mbind result_bind].
  { by exists []. }
  assert (preserves unchecked
    (try_catch
       (entries ← fs_readdir (D ++ rel);
        if length entries =? 0
        then fs_rmdir (D ++ rel);; log self (RemovedEmptyDirectory rel)
        else mret tt)
       (fun _ => mret tt))) as Hin.
  { apply preserves_try_catch; [apply _| |intros; apply preserves_ret, _].
    apply preserves_bind; [apply _|by apply unchecked_reading|]. intros entries.
    destruct (length entries =? 0); [|apply preserves_ret, _].
    apply preserves_bind; [apply _|by apply unchecked_writing|]. intros _.
    apply unchecked_log. }
  destruct (Hin (called (Access (S ++ rel)) w)) as (cs & Ht & Hc).
  exists cs. split; [|done]. rewrite Ht. cbn [trace called]. by rewrite <- app_assoc.
Qed.

Lemma sweep_trace self D S l w :
  exists cs, trace (sweep self D S l w).2 = trace w ++ cs
             /\ checked cs = (fun rel => S ++ rel) <$> l.
Proof.
  unfold sweep. revert w. induction l as [|rel l IH]; intros w.
  { exists []. by rewrite app_nil_r. }
  cbn [for_of]. destruct (cleanupDirectory_spec self D S rel w) as (w1 & Hrun & _).
  erewrite bind_run by exact Hrun.
  destruct (cleanupDirectory_trace self D S rel w) as (cs1 & H1 & Hc1).
  rewrite Hrun in H1. cbn [snd] in H1.
  destruct (IH w1) as (cs2 & H2 & Hc2).
  exists (Access (S ++ rel) :: cs1 ++ cs2). split.
  - by rewrite H2, H1, <- app_assoc.
  - unfold checked in *. cbn [omap list_omap]. rewrite omap_app, Hc1, Hc2. done.
Qed.

Lemma sweep_total self D S l w : exists w', sweep self D S l w = (Ok tt, w').
Proof.
  apply for_of_total. intros rel w2.
  destruct (cleanupDirectory_spec self D S rel w2) as (w3 & -> & _). by eexists.
Qed.

(** One step either leaves the tree alone or removes an empty directory
    that has no counterpart under the source. *)
Lemma cleanupDirectory_removal self D S rel w w' :
  cleanupDirectory self D S rel w = (Ok tt, w') ->
  root w' = root w
  \/ (absent (S ++ rel) (root w) /\ touches (D ++ rel) (root w) (root w')
      /\ absent (D ++ rel) (root w')
      /\ exists tm, resolve (D ++ rel) (root w) = Ok (Dir tm true ∅)).
Proof.
  intros H. destruct (cleanupDirectory_spec self D S rel w) as (w'' & Hrun & Hspec).
  rewrite Hrun in H. injection H as ->.
  destruct (resolve (S ++ rel) (root w)) eqn:Hs; [by left|].
  destruct (resolve (D ++ rel) (root w)) as [[|tm [] es|]|] eqn:Hd; try by left.
  destruct (decide _) as [[-> Hne]|]; [|by left]. right.
  assert (remove_dir (clock w) (D ++ rel) (root w) = Ok (root w')) as Hrm.
  { unfold remove_dir. rewrite Hd. cbn. by rewrite bool_decide_eq_true_2. }
  pose proof (remove_at _ _ _ _ Hspec) as Hgone.
  apply remove_dir_touches in Hrm as [Ht _].
  split; [intros c Hc; congruence|]. split; [done|]. split; [done|]. by exists tm.
Qed.

(** A directory that the loop removed had, when it went, no counterpart
    under the source, and has none afterwards. *)
Lemma sweep_removed_source self D S l w w' q :
  sweep self D S l w = (Ok tt, w') ->
  is_dir q (root w) -> absent q (root w') ->
  exists rel, rel ∈ l /\ q = D ++ rel /\ absent (S ++ rel) (root w').
Proof.
  unfold sweep. revert w. induction l as [|rel l IH]; intros w H Hq Hgone.
  { injection H as <-. destruct Hq as (tm & ls & es & Hq). by destruct (Hgone _ Hq). }
  cbn [for_of] in H. apply bind_ok in H as ([] & w1 & H1 & H).
  assert (is_dir q (root w1) ->
          exists rel0, rel0 ∈ rel :: l /\ q = D ++ rel0 /\ absent (S ++ rel0) (root w')) as Hrest.
  { intros Hq1. destruct (IH w1 H Hq1 Hgone) as (rel0 & Hin & Heq & Hs).
    exists rel0. split; [by right|done]. }
  pose proof H1 as Hstep.
  apply cleanupDirectory_removal in H1 as [Hr|(Hs & Ht & Hd & tm & Hwas)].
  { apply Hrest. by rewrite Hr. }
  destruct (decide (q = D ++ rel)) as [->|Hne].
  - exists rel. split; [by left|]. split; [done|].
    eapply cleanup_loop_absent; [exact H|].
    eapply touches_absent; [exact Ht|done|done].
  - apply Hrest. destruct Hq as (tq & lq & esq & Hq).
    destruct (proj1 (touches_dir _ _ _ q lq Ht Hne)) as (tq' & esq' & Hq'); [by eexists _, _|].
    by eexists _, _, _.
Qed.

(** ** No step of a run makes a directory that cannot be listed *)

Lemma writing_no_new c f :
  (forall now t t', f now t = Ok t' ->
     forall q tm es, resolve q t' = Ok (Dir tm false es) ->
       exists tm0 es0, resolve q t = Ok (Dir tm0 false es0)) ->
  preserves no_new_unlistable (writing c f).
Proof.
  intros Hf w. unfold writing, no_new_unlistable.
  destruct (f (clock w) (root w)) as [t'|e] eqn:E; cbn [snd root called].
  - by eapply Hf.
  - intros q tm es H. by eexists _, _.
Qed.

Lemma touches_no_new p t t' :
  touches p t t' -> (forall tm es, resolve p t' = Ok (Dir tm false es) ->
                       exists tm0 es0, resolve p t = Ok (Dir tm0 false es0)) ->
  forall q tm es, resolve q t' = Ok (Dir tm false es) ->
    exists tm0 es0, resolve q t = Ok (Dir tm0 false es0).
Proof.
  intros Ht Hp q tm es H. destruct (decide (q = p)) as [->|Hne]; [by eapply Hp|].
  apply (touches_dir _ _ _ q false Ht Hne). by eexists _, _.
Qed.

Lemma mkdir_no_new p : preserves no_new_unlistable (fs_mkdir_recursive p).
Proof.
  apply writing_no_new. intros now t t' H q tm es Hq.
  apply mkdirp_creates in H.
  destruct (creates_dir_back _ _ _ _ _ _ _ H Hq) as [?|[? _]]; done.
Qed.

Lemma copy_no_new src p : preserves no_new_unlistable (fs_copyFile src p).
Proof.
  apply writing_no_new. intros now t t' H.
  apply copy_file_touches in H as (Ht & ts & d & tm & _ & Hd).
  apply (touches_no_new _ _ _ Ht). intros tm' es' H'. congruence.
Qed.

Lemma utimes_no_new p a m : preserves no_new_unlistable (fs_utimes p a m).
Proof.
  apply writing_no_new. intros now t t' H.
  apply set_utimes_touches in H as (Ht & c & Hc & Hc').
  apply (touches_no_new _ _ _ Ht). intros tm' es' H'. rewrite Hc' in H'.
  destruct c; try done. cbn in H'. injection H' as <- <- <-. by eexists _, _.
Qed.

Lemma unlink_no_new p : preserves no_new_unlistable (fs_unlink p).
Proof.
  apply writing_no_new. intros now t t' H.
  apply unlink_file_touches in H as (Ht & Hgone & _).
  apply (touches_no_new _ _ _ Ht). intros tm' es' H'. by destruct (Hgone _ H').
Qed.

Lemma rmdir_no_new p : preserves no_new_unlistable (fs_rmdir p).
Proof.
  apply writing_no_new. intros now t t' H.
  pose proof H as Hrm. apply remove_dir_touches in H as (Ht & _).
  apply (touches_no_new _ _ _ Ht). intros tm' es' H'.
  unfold remove_dir in Hrm. destruct (resolve p t) as [[|? ? es0|]|]; try done.
  cbn in Hrm. destruct (bool_decide _); [|done].
  by destruct (remove_at _ _ _ _ Hrm _ H').
Qed.

Section Steps.
Context (self : IdaSync) (S D : path).
#[local] Set Default Proof Using "All".

Lemma copy_loop_no_new l cs : preserves no_new_unlistable (for_of l (copyStep self S D) cs).
Proof.
  apply preserves_for_of; [apply _|]. intros f cs'.
  apply (preserves_copyStep no_new_unlistable self S D).
  - intros c w q tm es H. by eexists _, _.
  - intros c w q tm es H. by eexists _, _.
  - intros m w. rewrite log_run. intros q tm es H. by eexists _, _.
  - intros; apply mkdir_no_new.
  - intros; apply copy_no_new.
  - intros; apply utimes_no_new.
  - intros; apply unlink_no_new.
  - intros; apply rmdir_no_new.
Qed.

Lemma delete_loop_no_new set l n :
  preserves no_new_unlistable (for_of l (deleteStep self D set) n).
Proof.
  apply preserves_for_of; [apply _|]. intros h n'.
  apply (preserves_deleteStep no_new_unlistable self S D).
  - intros c w q tm es H. by eexists _, _.
  - intros c w q tm es H. by eexists _, _.
  - intros m w. rewrite log_run. intros q tm es H. by eexists _, _.
  - intros; apply mkdir_no_new.
  - intros; apply copy_no_new.
  - intros; apply utimes_no_new.
  - intros; apply unlink_no_new.
  - intros; apply rmdir_no_new.
Qed.

(** The files of a walk are strictly below its root. *)
Lemma walked_files_below P w sf w' :
  getFilesRecursively P P w = (Ok sf, w') -> forall f, f ∈ sf -> f <> [].
Proof.
  intros H f Hf. destruct (resolve P (root w)) as [n|e] eqn:Hn.
  - apply (getFiles_found _ _ _ _ _ Hn) in H as (_ & _ & _ & Hm). by apply Hm in Hf as [? _].
  - unfold getFilesRecursively, walking in H. rewrite Hn in H.
    destruct e as [[]| | |]; try done; injection H as <- _; by apply elem_of_nil in Hf.
Qed.

(** Once the walks, the copies and the deletions of a run have returned,
    the directories of the destination can be enumerated. *)
Lemma enumerable_in_sync w0 wa sf w2 df wb cs wc n wd :
  fs_mkdir_recursive D w0 = (Ok tt, wa) ->
  getFilesRecursively S S wa = (Ok sf, w2) ->
  getFilesRecursively D D w2 = (Ok df, wb) ->
  for_of sf (copyStep self S D) (0, 0) wb = (Ok cs, wc) ->
  for_of df (deleteStep self D (list_to_set sf)) 0 wc = (Ok n, wd) ->
  exists dirs w1, getDirectoriesRecursively D D wd = (Ok dirs, w1).
Proof.
  intros Hmk Hsf Hdf Hcopy Hdel.
  apply fs_mkdir_ok, mkdirp_is_dir in Hmk as (tm & l & es & HD).
  pose proof (walking_root walk_files S S wa) as Hr2.
  unfold getFilesRecursively in Hsf. rewrite Hsf in Hr2. cbn [snd] in Hr2.
  rewrite <- Hr2 in HD.
  pose proof (walked_files_below S wa sf w2 Hsf) as Hne.
  destruct (getFiles_found _ _ _ _ _ HD Hdf) as (Hrb & _ & Hlist & _).
  assert (is_dir D (root wd)) as (tm' & l' & es' & HD').
  { eapply delete_loop_dir; [exact Hdel|].
    eapply copy_loop_dir; [exact Hcopy| |].
    - intros g Hg Heq. apply (Hne g Hg).
      rewrite <- (app_nil_r D) in Heq at 1. by apply app_inv_head in Heq.
    - rewrite Hrb. by eexists _, _, _. }
  assert (no_new_unlistable wb wd) as Hnew.
  { etrans; [apply (copy_loop_no_new sf (0, 0) wb)|]. rewrite Hcopy. cbn [snd].
    pose proof (delete_loop_no_new (list_to_set sf) df 0 wc) as H. by rewrite Hdel in H. }
  assert (listable_below (Dir tm' l' es')) as Hlist'.
  { apply (listable_under D (root wd) _ HD'). intros q tq lq esq Hq.
    destruct lq; [done|]. destruct (Hnew _ _ _ Hq) as (t0 & e0 & H0).
    rewrite Hrb in H0.
    by apply (proj1 (listable_under D (root w2) _ HD) Hlist q t0 false e0). }
  destruct (walking_run emit_dirs D wd _ HD' eq_refl Hlist') as (dirs & w1 & Hdirs & _).
  exists dirs, w1. by rewrite getDirs_gen.
Qed.

End Steps.

(** The directories of a walk are strictly below its root. *)
Lemma walked_dirs_below P w dirs w' :
  getDirectoriesRecursively P P w = (Ok dirs, w') -> forall q, q ∈ dirs -> q <> [].
Proof.
  intros H q Hq. destruct (resolve P (root w)) as [n|e] eqn:Hn.
  - apply (getDirs_found _ _ _ _ _ Hn) in H as (_ & Hm). by apply Hm.
  - unfold getDirectoriesRecursively, walking in H. rewrite Hn in H.
    destruct e as [[]| | |]; try done; injection H as <- _; by apply elem_of_nil in Hq.
Qed.

Lemma checked_elem p cs : Access p ∈ cs -> p ∈ checked cs.
Proof. intros H. unfold checked. apply list_elem_of_omap. by exists (Access p). Qed.

(** Whatever its outcome, the cleanup leaves the tree as it was at every
    path that is neither above nor below the destination. *)
Lemma cleanup_same_at self S D q :
  apart q D -> preserves (same_at q) (cleanupEmptyDirectories self D S).
Proof.
  intros Hq. apply preserves_cleanup; try apply _.
  - intros c w. done.
  - intros cs w. done.
  - intros m w. rewrite log_run. done.
  - intros p Hp. apply writing_same_at. intros now t t' H.
    eapply creates_apart; [by eapply mkdirp_creates|by eapply apart_near].
  - intros src p Hp. apply writing_same_at. intros now t t' H.
    apply copy_file_touches in H as [H _].
    eapply touches_apart; [done|by eapply apart_near].
  - intros p a m Hp. apply writing_same_at. intros now t t' H.
    apply set_utimes_touches in H as [H _].
    eapply touches_apart; [done|by eapply apart_near].
  - intros p Hp. apply writing_same_at. intros now t t' H.
    apply unlink_file_touches in H as [H _].
    eapply touches_apart; [done|by eapply apart_near].
  - intros p Hp. apply writing_same_at. intros now t t' H.
    apply remove_dir_touches in H as [H _].
    eapply touches_apart; [done|by eapply apart_near].
Qed.

End OrderFacts.


(** * The claims *)

Import JS RegExp Pattern PlainPattern FS IO Engine Walk Run Frame Idem.
Import PatternFacts FSFacts WalkFacts MonadFacts StepFacts SyncFacts CleanupFacts.
Import FrameFacts IdemFacts RunFacts ExcludeFacts.

(** C1, amended.  [filesAreDifferent] makes the two [stat] calls and
    nothing else, and answers [true] exactly when the source or the
    destination cannot be statted, or the modification times differ, or
    the sizes differ.  Contents are never read: two regular files of the
    same length and modification time give [false] whatever they hold. *)
Theorem filesAreDifferent_spec sourcePath destPath w :
  exists b,
    filesAreDifferent sourcePath destPath w
      = (Ok b, calls [Stat sourcePath; Stat destPath] w) /\
    (b = true <->
       ChangeSpec.not_statable sourcePath (root w)
       \/ ChangeSpec.needs_copy (root w) sourcePath destPath) /\
    (forall t1 d1 t2 d2,
       resolve sourcePath (root w) = Ok (File t1 d1) ->
       resolve destPath (root w) = Ok (File t2 d2) ->
       mtime t1 = mtime t2 -> length d1 = length d2 -> b = false).
Proof.
  unfold filesAreDifferent, try_catch, promise_all2, fs_stat, reading, calls, called.
  unfold mbind, M_bind, mret, M_ret, ChangeSpec.needs_copy, ChangeSpec.not_statable.
  cbn [root clock trace console fst snd].
  destruct (resolve sourcePath (root w)) as [s|e1] eqn:Es;
    destruct (resolve destPath (root w)) as [d|e2] eqn:Ed; cbn;
    rewrite <- ?app_assoc; cbn [app].
  - eexists. split; [reflexivity|]. split.
    + rewrite orb_true_iff, !negb_true_iff, !Z.eqb_neq. split.
      * intros H. right. right. by exists s, d.
      * intros [H|[H|(s' & d' & [= <-] & [= <-] & H)]];
          [by destruct (H s)|by destruct (H d)|done].
    + intros t1 d1 t2 d2 [= ->] [= ->] Hm Hl. cbn.
      rewrite Hm, Hl, !Z.eqb_refl. done.
  - exists true. split; [reflexivity|]. split; [|done].
    split; [|done]. intros _. right. left. congruence.
  - exists true. split; [reflexivity|]. split; [|done].
    split; [|done]. intros _. left. congruence.
  - exists true. split; [reflexivity|]. split; [|done].
    split; [|done]. intros _. left. congruence.
Qed.

(** C1 as stated fails: with the source missing and the destination in
    place, the detector answers [true] although none of the three
    conditions of the claim holds. *)
Lemma filesAreDifferent_source_missing :
  (filesAreDifferent [str "nosrc"; str "existing.txt"] [str "dst"; str "existing.txt"]
     Samples.only_dest).1 = Ok true /\
  ~ ChangeSpec.needs_copy (root Samples.only_dest)
      [str "nosrc"; str "existing.txt"] [str "dst"; str "existing.txt"].
Proof.
  split; [reflexivity|]. intros [H|(s & d & Hs & _)].
  - eapply H. reflexivity.
  - vm_compute in Hs. discriminate.
Qed.

(** C2.  When the source root does not exist, [sync] throws the "source
    missing" error; the only [fs] call made is the existence probe, and
    the file system and the clock are as before (only the first log line
    is written, when verbose). *)
Theorem sync_source_missing self source destination w :
  ChangeSpec.not_statable source (root w) ->
  sync self source destination w
  = (Err (SourceMissing source),
     World (root w) (clock w) (trace w ++ [Access source])
           (console w ++ if verbose self then [Syncing source destination] else [])).
Proof.
  intros H. unfold sync, log, try_catch, fs_access, reading, throw, called, console_log.
  unfold mbind, M_bind, mret, M_ret.
  destruct (verbose self); cbn.
  - destruct (resolve source (root w)) as [c|e] eqn:E; [by destruct (H c)|]. reflexivity.
  - destruct (resolve source (root w)) as [c|e] eqn:E; [by destruct (H c)|].
    cbn. by rewrite app_nil_r.
Qed.

Lemma sync_source_missing_witness :
  ChangeSpec.not_statable [str "nosrc"] (root Samples.only_dest) /\
  sync (Build [] [] true) [str "nosrc"] [str "dst"] Samples.only_dest
  = (Err (SourceMissing [str "nosrc"]),
     World (root Samples.only_dest) 100 [Access [str "nosrc"]]
           [Syncing [str "nosrc"] [str "dst"]]).
Proof.
  assert (ChangeSpec.not_statable [str "nosrc"] (root Samples.only_dest)) as H.
  { intros c Hc. vm_compute in Hc. discriminate. }
  split; [exact H|].
  exact (sync_source_missing (Build [] [] true) [str "nosrc"] [str "dst"]
           Samples.only_dest H).
Defined.

(** C3, the code at the input of the repository's tests: with a missing
    source and a destination that holds [existing.txt], [sync] throws
    instead of returning the all-zero result; the destination is
    untouched. *)
Theorem sync_missing_source_throws :
  let r := sync (Build [] [] true) [str "nosrc"] [str "dst"] Samples.only_dest in
  r.1 = Err (SourceMissing [str "nosrc"]) /\
  r.1 <> Ok (Result 0 0 0) /\
  root r.2 = root Samples.only_dest.
Proof. split; [reflexivity|]. split; [discriminate|reflexivity]. Qed.

(** C4, on the patterns the code gets right: for patterns without a
    backslash or a RegExp operator character, and a path without a
    backslash that does not end in a separator, [matchesPattern] returns
    a boolean, which is [true] exactly when the rule of the
    specification matches. *)
Theorem matchesPattern_glob filePath patterns :
  plain_patterns patterns ->
  backslash ∉ filePath ->
  last filePath <> Some slash ->
  exists b, matchesPattern filePath patterns = Ok b /\
            (b = true <-> GlobSpec.matches filePath patterns).
Proof.
  intros Hplain Hbs Hlast. unfold GlobSpec.matches.
  destruct patterns as [ps|].
  2:{ exists false. split; [done|]. split; [done|]. by intros (? & ? & ? & _). }
  unfold plain_patterns in Hplain. cbn [default] in Hplain.
  assert (forall p, p ∈ ps ->
    exists b, matchesOne (basename filePath) (replaceAll backslash [slash] filePath) p = Ok b
      /\ (b = true <-> GlobSpec.pattern_matches filePath p)) as Hone.
  { intros p Hp. eapply Forall_forall in Hplain; [|exact Hp].
    destruct (matchesOne_plain (basename filePath)
                (replaceAll backslash [slash] filePath) p Hplain) as (b & Hb & Hg).
    exists b. split; [done|]. rewrite Hg. unfold GlobSpec.pattern_matches, GlobSpec.normalize.
    rewrite (replaceAll_absent _ _ p) by by apply plain_no_backslash.
    rewrite (replaceAll_absent _ _ filePath) by done.
    rewrite basename_final_segment by done. by destruct (includes slash p). }
  apply some_spec in Hone as (b & Hb & HP).
  exists b. split.
  - unfold matchesPattern. destruct ps; [|done]. cbn in Hb. congruence.
  - rewrite HP. split.
    + intros (p & Hp & Hm). by exists ps, p.
    + intros (ps' & p & [= <-] & Hp & Hm). by exists p.
Qed.

Lemma matchesPattern_glob_witness :
  exists b, matchesPattern (str "dir/a.log") (Some [str "*.log"]) = Ok b /\
            (b = true <-> GlobSpec.matches (str "dir/a.log") (Some [str "*.log"])).
Proof.
  apply (matchesPattern_glob (str "dir/a.log") (Some [str "*.log"])).
  - compute_done.
  - compute_done.
  - compute_done.
Defined.

(** C4, the code at a failing input: the pattern [a+] does not match the
    file name [a+], which the rule of the specification matches (every
    character other than the two wildcards stands for itself). *)
Theorem matchesPattern_plus_not_literal :
  matchesPattern (str "a+") (Some [str "a+"]) = Ok false /\
  GlobSpec.matches (str "a+") (Some [str "a+"]).
Proof.
  split; [reflexivity|].
  exists [str "a+"], (str "a+"). split; [done|]. split; [by left|].
  unfold GlobSpec.pattern_matches. cbn.
  constructor; [done|done|reflexivity|].
  constructor; [done|done|reflexivity|]. constructor.
Qed.

(** C5, the code at the examples: all hold but one; [temp/*] does not
    match the deeper path [temp/sub/a.tmp]. *)
Theorem pattern_examples :
  matchesPattern (str "a.log") (Some [str "*.log"]) = Ok true /\
  matchesPattern (str "dir/a.log") (Some [str "*.log"]) = Ok true /\
  matchesPattern (str "temp/a.tmp") (Some [str "temp/*"]) = Ok true /\
  matchesPattern (str "temp/sub/a.tmp") (Some [str "temp/*"]) = Ok false /\
  matchesPattern (str "tempfoo/a.tmp") (Some [str "temp/*"]) = Ok false /\
  matchesPattern (str "file.log") (Some [str "*.LOG"]) = Ok true.
Proof. repeat split; reflexivity. Qed.

(** C6.  A source file that matches a copy exclusion adds one to
    [skipped] and nothing else: no [fs] call is made and the file system
    is as before.  A destination-only file that matches a delete
    exclusion changes no counter and no file.  In a run that returns,
    [skipped] is the number of source files matching a copy exclusion,
    [copied] counts only other source files, and [deleted] is the number
    of destination-only files that match no delete exclusion; and a
    regular file of the destination that is at the path of a source file
    matching a copy exclusion, or is in the destination only and matches
    a delete exclusion, is the same file after the run, whatever the
    source holds. *)
Theorem exclusions_and_counters self S D :
  (forall f c s w, copy_excluded self f ->
     copyStep self S D f (c, s) w
     = (Ok (c, Datatypes.S s), logged self (SkippingCopy f) w)) /\
  (forall set f n w, f ∉ set -> delete_excluded self f ->
     deleteStep self D set f n w = (Ok n, logged self (SkippingDelete f) w)) /\
  (forall w r w' st, staged self S D w r w' st ->
     skipped r = length (filter (copy_excluded self) (sourceFiles st)) /\
     copied r <= length (filter (fun f => ~ copy_excluded self f) (sourceFiles st)) /\
     deleted r = length (filter (deletable self (list_to_set (sourceFiles st)))
                                (destFiles st))) /\
  (forall w r w' f tm d, sync self S D w = (Ok r, w') ->
     resolve (D ++ f) (root w) = Ok (File tm d) ->
     (copy_excluded self f
      /\ exists tm' d', resolve (S ++ f) (root w) = Ok (File tm' d'))
     \/ (delete_excluded self f
         /\ forall tm' d', resolve (S ++ f) (root w) <> Ok (File tm' d')) ->
     resolve (D ++ f) (root w') = Ok (File tm d)).
Proof.
  split; [intros; by apply copyStep_excluded|].
  split; [intros; by apply deleteStep_excluded|].
  split; [|intros; by eapply sync_keeps_excluded].
  intros w r w' st (_ & _ & _ & H4 & H5 & _).
  apply copy_loop_counts in H4 as (-> & _ & Hc).
  apply delete_loop_counts in H5 as ->. done.
Qed.

(** C6 at a sample: [x.log] is excluded from the copy, [keep.json] from
    the deletion; a run over [Samples.guarded] copies [a.txt], counts
    [x.log] as skipped and leaves the older [x.log] and [keep.json] of
    the destination as they were. *)
Lemma exclusions_and_counters_witness :
  copyStep Samples.excluding [str "src"] [str "dst"] [str "x.log"] (0, 0) Samples.fresh
  = (Ok (0, 1), Samples.fresh)
  /\ deleteStep Samples.excluding [str "dst"] ∅ [str "c"; str "keep.json"] 0 Samples.stale
    = (Ok 0, Samples.stale)
  /\ (sync Samples.excluding [str "src"] [str "dst"] Samples.guarded).1
    = Ok (Result 1 0 1)
  /\ resolve [str "dst"; str "x.log"]
       (root (sync Samples.excluding [str "src"] [str "dst"] Samples.guarded).2)
    = Ok (Samples.file 9 7)
  /\ resolve [str "dst"; str "keep.json"]
       (root (sync Samples.excluding [str "src"] [str "dst"] Samples.guarded).2)
    = Ok (Samples.file 1 1).
Proof.
  destruct (exclusions_and_counters Samples.excluding [str "src"] [str "dst"])
    as (Hcopy & Hdelete & _ & Hkeeps).
  assert (sync Samples.excluding [str "src"] [str "dst"] Samples.guarded
          = (Ok (Result 1 0 1),
             (sync Samples.excluding [str "src"] [str "dst"] Samples.guarded).2)) as Hrun
    by (vm_compute; reflexivity).
  split; [rewrite Hcopy; [reflexivity|]; reflexivity|].
  split; [rewrite Hdelete; [reflexivity|apply not_elem_of_empty|reflexivity]|].
  split; [vm_compute; reflexivity|]. split.
  - apply (Hkeeps Samples.guarded (Result 1 0 1) _ [str "x.log"] _ _ Hrun); [reflexivity|].
    left. split; [reflexivity|]. by eexists _, _.
  - apply (Hkeeps Samples.guarded (Result 1 0 1) _ [str "keep.json"] _ _ Hrun); [reflexivity|].
    right. split; [reflexivity|]. intros tm' d' H. vm_compute in H. discriminate.
Defined.

(** C7, amended.  When neither root lies strictly inside the other and
    no directory stands in the destination where the source has a regular
    file, a run that returns is followed, on the world it leaves, by a run
    that returns with nothing copied (and nothing deleted, and the same
    files skipped). *)
Theorem sync_idempotent self S D w r w' :
  ~ strict_prefix S D -> ~ strict_prefix D S ->
  (forall f tm d, resolve (S ++ f) (root w) = Ok (File tm d) ->
     forall tm' l es, resolve (D ++ f) (root w) <> Ok (Dir tm' l es)) ->
  sync self S D w = (Ok r, w') ->
  exists w'', sync self S D w' = (Ok (Result 0 0 (skipped r)), w'').
Proof.
  intros HSD HDS Hnodir Hrun. apply sync_staged in Hrun as [st Hst].
  destruct (run_outcome _ _ _ _ _ _ _ HSD HDS Hnodir Hst)
    as (t1 & nS & Hfound & Hkept & HS & Hwalk & Ht1 & Hcopy & Hdel).
  destruct Hst as (_ & _ & _ & Hcount & _).
  apply copy_loop_counts in Hcount as (Hskipped & _).
  set (wa := called (Access S) (logged self (Syncing S D) w')).
  destruct (kept_dest_dir _ _ _ _ _ _ Hkept) as (tmD & lD & esD & HD).
  assert (resolve S (root w') = Ok nS) as HS'.
  { pose proof (kept_source _ _ _ _ _ _ Hkept []) as Ha. rewrite app_nil_r in Ha.
    by apply Ha. }
  set (wb := World (root w') (clock wa + 1) (trace wa ++ [Mkdir D]) (console wa)).
  assert (fs_mkdir_recursive D wa = (Ok tt, wb)) as Hmk.
  { unfold fs_mkdir_recursive, writing. cbn [root clock wa called logged].
    by rewrite (mkdirp_existing _ _ _ _ _ _ HD). }
  assert (exists wc, getFilesRecursively S S wb = (Ok (sourceFiles st), wc)
                     /\ root wc = root w') as (wc & Hsf & Hrc).
  { destruct (getFilesRecursively S S wb) as [rs wc] eqn:E. exists wc. split.
    - f_equal. rewrite <- Hwalk. change rs with (rs, wc).1. rewrite <- E.
      apply walking_fst. cbn [root wb]. by rewrite Ht1, HS, HS'.
    - pose proof (walking_root walk_files S S wb) as Hr.
      unfold getFilesRecursively in E. by rewrite E in Hr. }
  assert (listable_below (Dir tmD lD esD)) as Hlist.
  { apply (listable_under D (root w') _ HD). apply (kept_listable _ _ _ _ _ _ Hkept). }
  rewrite <- Hrc in HD.
  destruct (walking_run emit_files D wc _ HD eq_refl Hlist) as (df2 & wd & Hdf & Hrd).
  rewrite <- getFiles_gen in Hdf.
  pose proof Hdf as Hdf'.
  apply (getFiles_found _ _ _ _ _ HD) in Hdf' as (_ & _ & _ & Hdfm).
  destruct (copy_loop_again self S D (sourceFiles st) 0 0 wd) as (we & Hloop1 & Hre).
  { intros f Hf. rewrite Hrd, Hrc. by apply Hcopy. }
  destruct (delete_loop_again self D (sourceFiles st) df2 0 we) as (wf & Hloop2 & Hrf).
  { intros h Hh. apply Hdfm in Hh as (_ & tm & d & Hh). rewrite Hrc in Hh.
    by eapply Hdel. }
  assert (resolve D (root wf) = Ok (Dir tmD lD esD)) as HDf by congruence.
  destruct (walking_run emit_dirs D wf _ HDf eq_refl Hlist) as (dirs & wg & Hdirs & Hrg).
  rewrite <- getDirs_gen in Hdirs.
  destruct (for_of_total (sort by_depth dirs) (cleanupDirectory self D S) wg) as [wh Hclean].
  { intros rel w2. destruct (cleanupDirectory_spec self D S rel w2) as (w3 & -> & _).
    by eexists. }
  eexists. apply sync_staged.
  exists (Stages wb (sourceFiles st) df2 wd we wf wh). unfold staged.
  cbn [after_mkdir sourceFiles destFiles after_walks after_copy after_delete
       after_cleanup copied deleted skipped].
  split; [by exists nS|]. split; [exact Hmk|]. split; [by exists wc|].
  split; [by rewrite Hloop1, Hskipped|]. split; [exact Hloop2|].
  split; [|reflexivity].
  unfold cleanupEmptyDirectories. erewrite bind_run by exact Hdirs. exact Hclean.
Qed.

Lemma sync_idempotent_witness :
  (sync Samples.excluding [str "src"] [str "dst"] Samples.fresh).1 = Ok (Result 2 0 1) /\
  exists w'',
    sync Samples.excluding [str "src"] [str "dst"]
         (sync Samples.excluding [str "src"] [str "dst"] Samples.fresh).2
    = (Ok (Result 0 0 1), w'').
Proof.
  split; [vm_compute; reflexivity|].
  apply (sync_idempotent Samples.excluding [str "src"] [str "dst"] Samples.fresh
           (Result 2 0 1)).
  - intros (k & _ & H). vm_compute in H. discriminate.
  - intros (k & _ & H). vm_compute in H. discriminate.
  - intros f tm d Hs tm' l es Hd. rewrite resolve_app in Hd.
    assert (resolve [str "dst"] (root Samples.fresh) = Ok (Dir (Times 0 0) true ∅)) as Hdst
      by reflexivity.
    rewrite Hdst in Hd. destruct f as [|x f].
    + vm_compute in Hs. discriminate.
    + cbn in Hd. rewrite lookup_empty in Hd. discriminate.
  - vm_compute. reflexivity.
Defined.

(** C7 as stated fails.  With [Samples.clash] the first run returns (it
    deletes [f/z], which moves the modification time of the directory
    [f]) and the second run throws.  With the destination inside the
    source the second run copies again, and with the source inside the
    destination the first run deletes the source, so that the second
    throws. *)
Lemma sync_twice_not_idempotent :
  ((sync Samples.quiet [str "src"] [str "dst"] Samples.clash).1 = Ok (Result 0 1 0) /\
   (sync Samples.quiet [str "src"] [str "dst"]
      (sync Samples.quiet [str "src"] [str "dst"] Samples.clash).2).1
   = Err (FsError EISDIR)) /\
  ((sync Samples.quiet [str "a"] [str "a"; str "b"] Samples.nested).1
   = Ok (Result 1 0 0) /\
   (sync Samples.quiet [str "a"] [str "a"; str "b"]
      (sync Samples.quiet [str "a"] [str "a"; str "b"] Samples.nested).2).1
   = Ok (Result 1 0 0)) /\
  ((sync Samples.quiet [str "a"; str "b"] [str "a"] Samples.inner).1
   = Ok (Result 1 1 0) /\
   (sync Samples.quiet [str "a"; str "b"] [str "a"]
      (sync Samples.quiet [str "a"; str "b"] [str "a"] Samples.inner).2).1
   = Err (SourceMissing [str "a"; str "b"])).
Proof. repeat split; vm_compute; reflexivity. Qed.

(** C8.  [cleanupEmptyDirectories] fails exactly when the enumeration of
    the destination directories fails, and with its error: no step of the
    loop throws.  Once the enumeration has returned [dirs], the cleanup
    returns; it is the loop of one step per directory over [dirs] sorted
    by depth, deepest first, and the directories are checked under the
    source in that order, one check for each, so that no directory is
    checked after a directory above it.  A directory that the cleanup
    removed has no counterpart under the source afterwards (nor before,
    when neither root contains the other) and held nothing but
    directories; a directory that holds a file or another entry
    somewhere below it stays, with that entry; and no empty directory is
    left that the source has no entry for.  One step never fails; it leaves the file
    system alone when the path exists under the source or when the
    directory has entries, and removes the directory when the path is
    missing under the source and the directory is empty.  In a run of
    [sync], once the walks, the copies and the deletions have returned,
    the enumeration returns, so the cleanup returns and [sync] returns
    its counters: the cleanup never aborts the run. *)
Theorem cleanup_deepest_first self D S :
  (forall w, (cleanupEmptyDirectories self D S w).1
             = (fun _ => tt) <$> (getDirectoriesRecursively D D w).1) /\
  (forall w dirs w1, getDirectoriesRecursively D D w = (Ok dirs, w1) ->
     exists w' cs,
       cleanupEmptyDirectories self D S w = (Ok tt, w') /\
       for_of (sort by_depth dirs)
         (fun relativeDir _ => cleanupDirectory self D S relativeDir) tt w1 = (Ok tt, w') /\
       trace w' = trace w1 ++ cs /\
       Order.checked cs = (fun rel => S ++ rel) <$> sort by_depth dirs /\
       sort by_depth dirs ≡ₚ dirs /\
       StronglySorted deeper_first (sort by_depth dirs) /\
       (forall cs1 cs2 parent sub,
          cs = cs1 ++ Access (S ++ parent) :: cs2 -> sub <> [] ->
          Access (S ++ parent ++ sub) ∉ cs2) /\
       (forall rel, Prune.is_dir (D ++ rel) (root w) ->
          ChangeSpec.not_statable (D ++ rel) (root w') ->
          ChangeSpec.not_statable (S ++ rel) (root w') /\
          (apart S D -> ChangeSpec.not_statable (S ++ rel) (root w)) /\
          forall sub c, resolve (D ++ rel ++ sub) (root w) = Ok c -> node_kind c = KDir) /\
       (forall rel sub c, sub <> [] -> resolve (D ++ rel ++ sub) (root w) = Ok c ->
          node_kind c <> KDir ->
          resolve (D ++ rel ++ sub) (root w') = Ok c /\ Prune.is_dir (D ++ rel) (root w')) /\
       (forall rel tm l, rel <> [] -> resolve (D ++ rel) (root w') = Ok (Dir tm l ∅) ->
          exists c, resolve (S ++ rel) (root w) = Ok c)) /\
  (forall rel w, (cleanupDirectory self D S rel w).1 = Ok tt) /\
  (forall rel w c, resolve (S ++ rel) (root w) = Ok c ->
     root (cleanupDirectory self D S rel w).2 = root w) /\
  (forall rel w t l es, resolve (D ++ rel) (root w) = Ok (Dir t l es) -> es <> ∅ ->
     root (cleanupDirectory self D S rel w).2 = root w) /\
  (forall rel w t, ChangeSpec.not_statable (S ++ rel) (root w) ->
     resolve (D ++ rel) (root w) = Ok (Dir t true ∅) -> D ++ rel <> [] ->
     remove (clock w) (D ++ rel) (root w)
     = Ok (root (cleanupDirectory self D S rel w).2)) /\
  (forall w wa sf w2 df wb c s wc d wd,
     (exists n, resolve S (root w) = Ok n) ->
     fs_mkdir_recursive D (called (Access S) (logged self (Syncing S D) w)) = (Ok tt, wa) ->
     getFilesRecursively S S wa = (Ok sf, w2) ->
     getFilesRecursively D D w2 = (Ok df, wb) ->
     for_of sf (copyStep self S D) (0, 0) wb = (Ok (c, s), wc) ->
     for_of df (deleteStep self D (list_to_set sf)) 0 wc = (Ok d, wd) ->
     exists w', cleanupEmptyDirectories self D S wd = (Ok tt, w') /\
                sync self S D w = (Ok (Result c d s), logged self (SyncComplete c d s) w')).
Proof.
  split.
  { intros w. unfold cleanupEmptyDirectories.
    destruct (getDirectoriesRecursively D D w) as [[dirs|e] w1] eqn:Hw.
    - erewrite bind_run by exact Hw.
      destruct (OrderFacts.sweep_total self D S (sort by_depth dirs) w1) as [w' Hloop].
      unfold Sweep.sweep in Hloop. by rewrite Hloop.
    - by erewrite bind_err by exact Hw. }
  split.
  { intros w dirs w1 Hw.
    destruct (OrderFacts.sweep_total self D S (sort by_depth dirs) w1) as [w' Hloop].
    destruct (OrderFacts.sweep_trace self D S (sort by_depth dirs) w1) as (cs & Ht & Hc).
    rewrite Hloop in Ht. cbn [snd] in Ht. unfold Sweep.sweep in Hloop.
    pose proof (walking_root walk_dirs D D w) as Hr.
    pose proof Hw as Hw'. unfold getDirectoriesRecursively in Hw'.
    rewrite Hw' in Hr. cbn [snd] in Hr. clear Hw'.
    pose proof (OrderFacts.walked_dirs_below D w dirs w1 Hw) as Hbelow.
    exists w', cs.
    split; [unfold cleanupEmptyDirectories; by erewrite bind_run by exact Hw|].
    split; [done|]. split; [done|]. split; [done|].
    split; [apply sort_perm|]. split; [apply sort_sorted|].
    split.
    { intros cs1 cs2 parent sub -> Hsub Hin.
      unfold Order.checked in Hc. rewrite omap_app in Hc. cbn [omap list_omap] in Hc.
      symmetry in Hc. apply fmap_app_inv in Hc as (l1 & l2' & _ & Hc & Hl).
      symmetry in Hc. apply fmap_cons_inv in Hc as (p' & l2 & Hp & Hc2 & ->).
      apply app_inv_head in Hp as <-.
      apply OrderFacts.checked_elem in Hin. unfold Order.checked in Hin.
      rewrite Hc2 in Hin. apply list_elem_of_fmap in Hin as (y & Hy & Hin).
      apply app_inv_head in Hy as <-.
      pose proof (sort_sorted dirs) as Hsorted. rewrite Hl in Hsorted.
      apply StronglySorted_app_1_r in Hsorted.
      apply StronglySorted_inv in Hsorted as [_ Hall].
      eapply Forall_forall in Hall; [|exact Hin]. unfold deeper_first in Hall.
      assert (parent <> []) as Hp.
      { apply Hbelow. rewrite <- (sort_perm by_depth dirs), Hl.
        apply elem_of_app. right. by left. }
      pose proof (depth_child parent sub Hp Hsub). lia. }
    split.
    { intros rel Hd Hgone. rewrite <- Hr in Hd.
      destruct (OrderFacts.sweep_removed_source self D S _ _ _ _ Hloop Hd Hgone)
        as (rel0 & _ & Heq & Hs).
      apply app_inv_head in Heq as <-.
      split; [done|]. split.
      - intros Hap c0 Hc0.
        pose proof (OrderFacts.cleanup_same_at self S D (S ++ rel)
                      (PreserveFacts.apart_below S D rel Hap) w) as Hsame.
        unfold cleanupEmptyDirectories in Hsame. erewrite bind_run in Hsame by exact Hw.
        rewrite Hloop in Hsame. apply Hsame in Hc0. by destruct (Hs c0).
      - intros sub c0 Hc0. destruct (decide (node_kind c0 = KDir)) as [|Hk]; [done|].
        rewrite <- Hr in Hc0.
        pose proof (cleanup_loop_leaf _ _ _ _ _ _ _ _ Hloop Hk Hc0) as Hc'.
        rewrite app_assoc, resolve_app in Hc'.
        destruct (resolve (D ++ rel) (root w')) as [n|] eqn:Hn; [|done].
        by destruct (Hgone n). }
    split.
    { intros rel sub c0 Hsub Hc0 Hk. rewrite <- Hr in Hc0.
      pose proof (cleanup_loop_leaf _ _ _ _ _ _ _ _ Hloop Hk Hc0) as Hc'.
      split; [done|]. rewrite app_assoc, resolve_app in Hc'.
      destruct (resolve (D ++ rel) (root w')) as [[|tm l es|]|] eqn:Hn;
        [by destruct sub|by eexists _, _, _|by destruct sub|done]. }
    intros rel tm l Hne Hend.
    destruct (SweepFacts.cleanup_loop_dir_back self S D _ _ _ _ _ _ _ Hloop Hend)
      as (tm0 & es0 & H1).
    destruct (resolve D (root w)) as [n|e] eqn:HD.
    2:{ rewrite Hr, resolve_app, HD in H1. done. }
    rewrite getDirs_gen in Hw.
    destruct (walking_found emit_dirs D w dirs w1 n HD Hw) as (_ & _ & Hlist & Hmem).
    rewrite Hr in H1.
    assert (l = true) as ->.
    { rewrite resolve_app, HD in H1. by eapply Hlist. }
    rewrite <- Hr.
    eapply (SweepFacts.cleanup_loop_no_empty self S D);
      [exact Hloop|apply sort_sorted| |done|exact Hend].
    rewrite (sort_perm by_depth dirs). apply Hmem.
    exists rel, (Dir tm0 true es0). split; [done|]. split; [done|]. by left. }
  split.
  { intros rel w. destruct (cleanupDirectory_spec self D S rel w) as (w' & -> & _). done. }
  split.
  { intros rel w c Hc. destruct (cleanupDirectory_spec self D S rel w) as (w' & -> & H).
    by rewrite Hc in H. }
  split.
  { intros rel w t l es Hd Hne.
    destruct (cleanupDirectory_spec self D S rel w) as (w' & -> & H).
    rewrite Hd in H. destruct (resolve (S ++ rel) (root w)); [done|].
    destruct l; [|done]. rewrite decide_False in H by (by intros [? _]). done. }
  split.
  { intros rel w t Hs Hd Hne.
    destruct (cleanupDirectory_spec self D S rel w) as (w' & -> & H).
    rewrite Hd in H. destruct (resolve (S ++ rel) (root w)) as [c|] eqn:Es;
      [by destruct (Hs c)|].
    by rewrite decide_True in H. }
  intros w wa sf w2 df wb c s wc d wd HS Hmk Hsf Hdf Hcopy Hdel.
  destruct (OrderFacts.enumerable_in_sync self S D _ _ _ _ _ _ _ _ _ _
              Hmk Hsf Hdf Hcopy Hdel) as (dirs & w1 & Hdirs).
  destruct (OrderFacts.sweep_total self D S (sort by_depth dirs) w1) as [w' Hloop].
  assert (cleanupEmptyDirectories self D S wd = (Ok tt, w')) as Hclean.
  { unfold cleanupEmptyDirectories. by erewrite bind_run by exact Hdirs. }
  exists w'. split; [done|]. apply sync_staged.
  exists (Stages wa sf df wb wc wd w'). unfold staged.
  cbn [after_mkdir sourceFiles destFiles after_walks after_copy after_delete
       after_cleanup copied deleted skipped].
  split; [done|]. split; [done|]. split; [by exists w2|]. done.
Qed.

(** C8 at samples.  On a tree with a directory that cannot be listed the
    cleanup throws what the enumeration throws.  On [Samples.stale] the
    directories are checked in the order [a/b], [c], [a]; the step for the
    empty [a/b] removes it, the step for [c], which holds a file, leaves
    the tree alone, and the whole cleanup leaves [c] only.  In a run of
    [sync] on the same tree the cleanup returns and so does the run. *)
Lemma cleanup_deepest_first_witness :
  (cleanupEmptyDirectories Samples.quiet [str "top"] [str "src"] Samples.locked).1
  = Err (FsError EACCES)
  /\ (exists w' cs,
        cleanupEmptyDirectories Samples.quiet [str "dst"] [str "src"] Samples.stale
        = (Ok tt, w')
        /\ trace w'
           = trace (getDirectoriesRecursively [str "dst"] [str "dst"] Samples.stale).2 ++ cs
        /\ Order.checked cs
           = [[str "src"; str "a"; str "b"]; [str "src"; str "c"]; [str "src"; str "a"]])
  /\ (resolve [str "dst"; str "a"; str "b"]
        (root (cleanupDirectory Samples.quiet [str "dst"] [str "src"] [str "a"; str "b"]
                 Samples.stale).2) = Err (FsError ENOENT)
      /\ root (cleanupDirectory Samples.quiet [str "dst"] [str "src"] [str "c"]
                 Samples.stale).2 = root Samples.stale)
  /\ (getDirectoriesRecursively [str "dst"] [str "dst"]
        (cleanupEmptyDirectories Samples.quiet [str "dst"] [str "src"] Samples.stale).2).1
     = Ok [[str "c"]]
  /\ exists w',
       sync Samples.excluding [str "src"] [str "dst"] Samples.stale
       = (Ok (Result 0 0 0), logged Samples.excluding (SyncComplete 0 0 0) w').
Proof.
  destruct (cleanup_deepest_first Samples.quiet [str "dst"] [str "src"])
    as (_ & Hrun & _ & _ & Hfull & Hempty & _).
  split.
  { rewrite (proj1 (cleanup_deepest_first Samples.quiet [str "top"] [str "src"])).
    vm_compute. reflexivity. }
  split.
  { destruct (Hrun Samples.stale [[str "c"]; [str "a"]; [str "a"; str "b"]]
                (getDirectoriesRecursively [str "dst"] [str "dst"] Samples.stale).2)
      as (w' & cs & H1 & _ & Ht & Hc & _); [vm_compute; reflexivity|].
    exists w', cs. split; [exact H1|]. split; [exact Ht|]. exact Hc. }
  split; [split|split].
  - specialize (Hempty [str "a"; str "b"] Samples.stale (Times 0 0)).
    assert (forall t t', remove (clock Samples.stale) ([str "dst"] ++ [str "a"; str "b"])
                           (root Samples.stale) = Ok t -> t = t' ->
                         resolve [str "dst"; str "a"; str "b"] t' = Err (FsError ENOENT)) as H.
    { intros t t' Ht <-. vm_compute in Ht. injection Ht as <-. reflexivity. }
    eapply H; [apply Hempty|reflexivity].
    + intros c Hc. vm_compute in Hc. discriminate.
    + reflexivity.
    + discriminate.
  - eapply (Hfull [str "c"] Samples.stale); [reflexivity|].
    intros He. apply (f_equal (fun m => m !! str "keep.json")) in He.
    vm_compute in He. discriminate.
  - vm_compute. reflexivity.
  - pose (w0 := called (Access [str "src"])
                  (logged Samples.excluding (Syncing [str "src"] [str "dst"]) Samples.stale)).
    pose (wa := (fs_mkdir_recursive [str "dst"] w0).2).
    pose (w2 := (getFilesRecursively [str "src"] [str "src"] wa).2).
    pose (wb := (getFilesRecursively [str "dst"] [str "dst"] w2).2).
    pose (df := [[str "c"; str "keep.json"]]).
    pose (wc := (for_of [] (copyStep Samples.excluding [str "src"] [str "dst"]) (0, 0) wb).2).
    pose (wd := (for_of df (deleteStep Samples.excluding [str "dst"] (list_to_set []))
                   0 wc).2).
    destruct (proj2 (proj2 (proj2 (proj2 (proj2 (proj2
                (cleanup_deepest_first Samples.excluding [str "dst"] [str "src"]))))))
                Samples.stale wa [] w2 df wb 0 0 wc 0 wd) as (w' & _ & Hsync).
    + by eexists.
    + vm_compute. reflexivity.
    + vm_compute. reflexivity.
    + vm_compute. reflexivity.
    + vm_compute. reflexivity.
    + vm_compute. reflexivity.
    + exists w'. exact Hsync.
Defined.

(** C9.  Neither walker changes the file system.  A root that does not
    exist gives the empty list.  Every other failure is the outcome of
    the walk: a failure to resolve the root, a root that is not a
    directory, and a directory anywhere below the root that refuses
    [readdir]. *)
Theorem walker_missing_root_and_errors dirPath w :
  let files := getFilesRecursively dirPath dirPath w in
  let dirs := getDirectoriesRecursively dirPath dirPath w in
  (root files.2 = root w /\ root dirs.2 = root w) /\
  (resolve dirPath (root w) = Err (FsError ENOENT) ->
     files.1 = Ok [] /\ dirs.1 = Ok []) /\
  (forall e, resolve dirPath (root w) = Err e -> e <> FsError ENOENT ->
     files.1 = Err e /\ dirs.1 = Err e) /\
  (forall n, resolve dirPath (root w) = Ok n -> node_kind n <> KDir ->
     files.1 = Err (FsError ENOTDIR) /\ dirs.1 = Err (FsError ENOTDIR)) /\
  (forall n, resolve dirPath (root w) = Ok n -> node_kind n = KDir ->
     ~ listable_below n ->
     files.1 = Err (FsError EACCES) /\ dirs.1 = Err (FsError EACCES)).
Proof.
  cbn zeta. split; [split; apply walking_root|].
  unfold getFilesRecursively, getDirectoriesRecursively, walking.
  split; [intros ->; done|]. split.
  { intros e -> He. destruct e as [[]| | |]; done. }
  split.
  { intros n -> Hk. cbn [fst]. destruct n as [| |]; [done| |done]. done. }
  intros n -> Hk Hn. cbn [fst].
  rewrite walk_files_gen, walk_dirs_gen.
  pose proof (walk_spec emit_files n dirPath (path_relative dirPath dirPath) Hk) as Hf.
  pose proof (walk_spec emit_dirs n dirPath (path_relative dirPath dirPath) Hk) as Hd.
  destruct (walk emit_files n _ _).1; destruct (walk emit_dirs n _ _).1;
    cbn [walk_post] in Hf, Hd; destruct Hf, Hd; by subst.
Qed.

Lemma walker_missing_root_and_errors_witness :
  (getFilesRecursively [str "nodst"] [str "nodst"] Samples.only_dest).1 = Ok []
  /\ (getDirectoriesRecursively [str "nodst"] [str "nodst"] Samples.only_dest).1 = Ok []
  /\ (getFilesRecursively [str "top"] [str "top"] Samples.locked).1 = Err (FsError EACCES)
  /\ (getFilesRecursively [str "top"; str "a.txt"] [str "top"; str "a.txt"]
        Samples.locked).1 = Err (FsError ENOTDIR).
Proof.
  pose proof (walker_missing_root_and_errors [str "nodst"] Samples.only_dest)
    as (_ & H1 & _).
  pose proof (walker_missing_root_and_errors [str "top"] Samples.locked)
    as (_ & _ & _ & _ & H2).
  pose proof (walker_missing_root_and_errors [str "top"; str "a.txt"] Samples.locked)
    as (_ & _ & _ & H3 & _).
  split; [apply H1; reflexivity|]. split; [apply H1; reflexivity|].
  split.
  - eapply H2; [reflexivity|reflexivity|].
    intros H. by specialize (H [str "in"] (Times 0 0) false ∅ eq_refl).
  - eapply H3; [reflexivity|]. done.
Defined.

(** C10.  Of the characters that the RegExp grammar reads as operators
    the translation escapes the dot alone.  An unbalanced parenthesis or
    bracket in a pattern makes [matchesPattern] throw a syntax error,
    whatever the path, and [+] and [|] act as operators: [a+] matches
    [aa] and not [a+], and [a|b] matches [b] and [xb]. *)
Theorem matchesPattern_metacharacters :
  (forall filePath, matchesPattern filePath (Some [str "("]) = Err RegExpSyntaxError) /\
  (forall filePath, matchesPattern filePath (Some [str "["]) = Err RegExpSyntaxError) /\
  regexPattern (str "a.b+c|d(e)[f]{2}^$") = str "a\.b+c|d(e)[f]{2}^$" /\
  matchesPattern (str "aa") (Some [str "a+"]) = Ok true /\
  matchesPattern (str "a+") (Some [str "a+"]) = Ok false /\
  matchesPattern (str "b") (Some [str "a|b"]) = Ok true /\
  matchesPattern (str "xb") (Some [str "a|b"]) = Ok true.
Proof. repeat split; reflexivity. Qed.

(** * Further properties of the code *)

(** X1.  In a tree of directories and regular files (links, which
    [stat], [copyFile] and [utimes] would follow, are not part of the
    model), and whatever its outcome, [sync] writes to the destination
    only.  At every path that is neither above the destination root nor
    at or below it, the tree is as it was once access times are set
    aside: reading the source may move them, which is the file system's
    business.  Where the path is also neither above the source root nor
    at or below it, the tree is as it was, access times included.  When
    neither root contains the other, the first covers the whole source
    tree. *)
Theorem sync_writes_only_destination self S D w :
  Preserve.plain (root w) = true ->
  (forall q, apart q D ->
     agree q (Preserve.forget_atime (root w)) (Preserve.forget_atime (root (sync self S D w).2))) /\
  (forall q, apart q D -> apart q S -> agree q (root w) (root (sync self S D w).2)) /\
  (apart S D -> forall f,
     agree (S ++ f) (Preserve.forget_atime (root w)) (Preserve.forget_atime (root (sync self S D w).2))).
Proof.
  intros _. split; [|split].
  - intros q Hq. apply PreserveFacts.agree_forget.
    by apply (PreserveFacts.sync_same_at self S D q Hq w).
  - intros q Hq _. by apply (PreserveFacts.sync_same_at self S D q Hq w).
  - intros Hap f. apply PreserveFacts.agree_forget.
    apply (PreserveFacts.sync_same_at self S D (S ++ f) (PreserveFacts.apart_below S D f Hap) w).
Qed.

Lemma sync_writes_only_destination_witness :
  (forall q, apart q [str "dst"] ->
     agree q (Preserve.forget_atime (root Samples.fresh))
       (Preserve.forget_atime (root (sync Samples.quiet [str "src"] [str "dst"] Samples.fresh).2))) /\
  (forall q, apart q [str "dst"] -> apart q [str "src"] ->
     agree q (root Samples.fresh)
       (root (sync Samples.quiet [str "src"] [str "dst"] Samples.fresh).2)) /\
  (apart [str "src"] [str "dst"] -> forall f,
     agree ([str "src"] ++ f) (Preserve.forget_atime (root Samples.fresh))
       (Preserve.forget_atime (root (sync Samples.quiet [str "src"] [str "dst"] Samples.fresh).2))).
Proof.
  apply (sync_writes_only_destination Samples.quiet [str "src"] [str "dst"] Samples.fresh).
  vm_compute. reflexivity.
Defined.

(** X2.  An instance that is not verbose writes nothing to the console,
    whether [sync] returns or throws. *)
Theorem sync_quiet copyExclusions deleteExclusions S D w :
  console (sync (Build copyExclusions deleteExclusions false) S D w).2 = console w.
Proof.
  apply (PreserveFacts.preserves_sync Preserve.same_console
           (Build copyExclusions deleteExclusions false) S D);
    try (intros; apply PreserveFacts.writing_same_console).
  - intros c w0. reflexivity.
  - intros cs w0. reflexivity.
  - intros m w0. reflexivity.
Qed.

(** X3.  On a directory whose subdirectories can all be read,
    [getFilesRecursively] returns, changes nothing, and lists each
    regular file below the directory once, by its path relative to it;
    directories and other entries are not listed. *)
Theorem getFilesRecursively_lists_files dirPath w n :
  resolve dirPath (root w) = Ok n -> node_kind n = KDir -> listable_below n ->
  exists files w',
    getFilesRecursively dirPath dirPath w = (Ok files, w') /\
    root w' = root w /\ NoDup files /\
    forall f, f ∈ files <->
      f <> [] /\ exists tm d, resolve (dirPath ++ f) (root w) = Ok (File tm d).
Proof.
  intros Hn Hk Hl.
  destruct (walking_run emit_files dirPath w n Hn Hk Hl) as (l & w' & Hrun & Hroot).
  rewrite <- getFiles_gen in Hrun. exists l, w'. split; [done|]. split; [done|].
  split.
  - apply (ListingFacts.walk_nodup emit_files ListingFacts.emit_files_one n dirPath []).
    rewrite <- walk_files_gen, <- (ListingFacts.walking_walk walk_files dirPath w n Hn).
    unfold getFilesRecursively in Hrun. by rewrite Hrun.
  - by apply (getFiles_found dirPath w l w' n Hn Hrun).
Qed.

Lemma getFilesRecursively_lists_files_witness :
  exists files w',
    getFilesRecursively [str "src"] [str "src"] Samples.fresh = (Ok files, w') /\
    root w' = root Samples.fresh /\ NoDup files /\
    forall f, f ∈ files <->
      f <> [] /\ exists tm d,
        resolve ([str "src"] ++ f) (root Samples.fresh) = Ok (File tm d).
Proof.
  apply (getFilesRecursively_lists_files [str "src"] Samples.fresh
           (Samples.dir [(str "file1.txt", Samples.file 5 8);
                         (str "x.log", Samples.file 5 2);
                         (str "subdir", Samples.dir [(str "file2.txt", Samples.file 6 3)])]));
    [vm_compute; reflexivity|reflexivity|].
  repeat (apply ListingFacts.listable_below_list; repeat constructor;
          try (apply listable_below_leaf; discriminate)).
Defined.

(** X4.  On such a directory [getDirectoriesRecursively] lists each
    directory strictly below it once, the directory itself never, and
    every directory after the directories above it. *)
Theorem getDirectoriesRecursively_lists_dirs dirPath w n :
  resolve dirPath (root w) = Ok n -> node_kind n = KDir -> listable_below n ->
  exists dirs w',
    getDirectoriesRecursively dirPath dirPath w = (Ok dirs, w') /\
    root w' = root w /\ NoDup dirs /\
    (forall q, q ∈ dirs <->
       q <> [] /\ exists tm l es, resolve (dirPath ++ q) (root w) = Ok (Dir tm l es)) /\
    (forall l1 q l2 p, dirs = l1 ++ q :: l2 -> p <> [] -> strict_prefix p q -> p ∈ l1).
Proof.
  intros Hn Hk Hl.
  destruct (walking_run emit_dirs dirPath w n Hn Hk Hl) as (l & w' & Hrun & Hroot).
  assert ((walk emit_dirs n dirPath []).1 = Ok l) as Hwalk.
  { rewrite <- (ListingFacts.walking_walk (walk emit_dirs) dirPath w n Hn). by rewrite Hrun. }
  pose proof (walking_found emit_dirs dirPath w l w' n Hn Hrun) as (_ & _ & _ & Hin).
  rewrite <- getDirs_gen in Hrun. exists l, w'. split; [done|]. split; [done|].
  split; [by eapply (ListingFacts.walk_nodup emit_dirs ListingFacts.emit_dirs_one)|].
  split.
  - intros q. rewrite Hin. split.
    + intros (sub & c & Hne & Hc & Hq). destruct c as [|tm ls es|]; cbn in Hq;
        try (by apply elem_of_nil in Hq).
      apply list_elem_of_singleton in Hq as ->. split; [done|]. by exists tm, ls, es.
    + intros (Hne & tm & ls & es & Hq). exists q, (Dir tm ls es).
      split; [done|]. split; [done|]. by left.
  - intros l1 q l2 p Heq Hp Hpq.
    apply (ListingFacts.walk_dirs_order n dirPath [] l Hwalk l1 q l2 Heq p); [|done].
    by exists p.
Qed.

Lemma getDirectoriesRecursively_lists_dirs_witness :
  exists dirs w',
    getDirectoriesRecursively [str "dst"] [str "dst"] Samples.stale = (Ok dirs, w') /\
    root w' = root Samples.stale /\ NoDup dirs /\
    (forall q, q ∈ dirs <->
       q <> [] /\ exists tm l es,
         resolve ([str "dst"] ++ q) (root Samples.stale) = Ok (Dir tm l es)) /\
    (forall l1 q l2 p, dirs = l1 ++ q :: l2 -> p <> [] -> strict_prefix p q -> p ∈ l1).
Proof.
  apply (getDirectoriesRecursively_lists_dirs [str "dst"] Samples.stale
           (Samples.dir [(str "a", Samples.dir [(str "b", Samples.dir [])]);
                         (str "c", Samples.dir [(str "keep.json", Samples.file 1 1)])]));
    [vm_compute; reflexivity|reflexivity|].
  repeat (apply ListingFacts.listable_below_list; repeat constructor;
          try (apply listable_below_leaf; discriminate)).
Defined.

(** X5.  When [copyFile] returns and the two paths differ, the source
    was a regular file and still is, with its bytes and its modification
    time; the destination is a regular file with the bytes and the
    modification time of the source; and the tree is unchanged at every
    path that is not the source, the destination or above one of them.
    The access times of the two files are left open: whether reading the
    source moves its access time is the file system's business, and the
    copy gets the access time that the [stat] after the read reports. *)
Theorem copyFile_copies sourcePath destPath w w' :
  copyFile sourcePath destPath w = (Ok tt, w') -> sourcePath <> destPath ->
  exists tm data,
    resolve sourcePath (root w) = Ok (File tm data) /\
    (exists a, resolve sourcePath (root w') = Ok (File (Times (mtime tm) a) data)) /\
    (exists a, resolve destPath (root w') = Ok (File (Times (mtime tm) a) data)) /\
    forall q, ~ q `prefix_of` destPath -> ~ q `prefix_of` sourcePath ->
      agree q (root w) (root w').
Proof.
  intros H Hne.
  apply copyFile_ok in H as (t2 & t3 & ts & data & tm & Hcr & Ht1 & Ht2 & Hsrc & Hdst
    & sn & Hsn & Hfin).
  assert (resolve sourcePath t3 = Ok (File ts data)) as Hs3
    by by apply (touches_leaf _ _ _ sourcePath (File ts data) Ht1 Hne).
  rewrite Hs3 in Hsn. injection Hsn as <-.
  exists ts, data. split; [by apply (creates_leaf _ _ _ sourcePath (File ts data) Hcr)|].
  split.
  { exists (atime ts). destruct ts as [m a].
    by apply (touches_leaf _ _ _ sourcePath (File (Times m a) data) Ht2 Hne). }
  split; [by exists (atime ts)|]. intros q Hq _.
  eapply agree_trans; [|eapply agree_trans].
  - eapply creates_apart; [exact Hcr|]. intros Hp. by apply Hq, CopyFacts.prefix_removelast.
  - by eapply touches_apart.
  - by eapply touches_apart.
Qed.

Lemma copyFile_copies_witness :
  exists tm data,
    resolve [str "src"; str "file1.txt"] (root Samples.fresh) = Ok (File tm data) /\
    (exists a,
       resolve [str "src"; str "file1.txt"]
         (root (copyFile [str "src"; str "file1.txt"] [str "dst"; str "sub"; str "file1.txt"]
                  Samples.fresh).2) = Ok (File (Times (mtime tm) a) data)) /\
    (exists a,
       resolve [str "dst"; str "sub"; str "file1.txt"]
         (root (copyFile [str "src"; str "file1.txt"] [str "dst"; str "sub"; str "file1.txt"]
                  Samples.fresh).2) = Ok (File (Times (mtime tm) a) data)) /\
    forall q, ~ q `prefix_of` [str "dst"; str "sub"; str "file1.txt"] ->
      ~ q `prefix_of` [str "src"; str "file1.txt"] ->
      agree q (root Samples.fresh)
        (root (copyFile [str "src"; str "file1.txt"] [str "dst"; str "sub"; str "file1.txt"]
                 Samples.fresh).2).
Proof.
  apply (copyFile_copies [str "src"; str "file1.txt"] [str "dst"; str "sub"; str "file1.txt"]
           Samples.fresh).
  - vm_compute. reflexivity.
  - intros H. vm_compute in H. discriminate H.
Defined.

(** X6.  [copyFile] makes the directories of the destination before it
    reads the source: when the source cannot be statted, the copy throws
    and the directories that [mkdir] made stay. *)
Theorem copyFile_fails_after_mkdir sourcePath destPath w t :
  ChangeSpec.not_statable sourcePath (root w) ->
  mkdirp (clock w) (dirname destPath) (root w) = Ok t ->
  exists e w', copyFile sourcePath destPath w = (Err e, w') /\ root w' = t.
Proof.
  intros Hs Hmk. unfold copyFile.
  assert (fs_mkdir_recursive (dirname destPath) w
          = (Ok tt, World t (clock w + 1) (trace w ++ [Mkdir (dirname destPath)]) (console w)))
    as Hrun.
  { unfold fs_mkdir_recursive, writing. by rewrite Hmk. }
  erewrite bind_run by exact Hrun.
  assert (exists e, read_file sourcePath t = Err e) as [e He].
  { unfold read_file. destruct (resolve sourcePath t) as [c|e] eqn:Hc; [|by exists e].
    destruct (mkdirp_creates _ _ _ _ Hmk sourcePath)
      as [Hag|[(_ & _ & tm & es & Hd)|(_ & tm & tm' & l & es & es' & H1 & _)]].
    - apply Hag in Hc. by destruct (Hs c).
    - rewrite Hd in Hc. injection Hc as <-. by eexists.
    - by destruct (Hs (Dir tm l es)). }
  exists e, (called (CopyFile sourcePath destPath)
               (World t (clock w + 1) (trace w ++ [Mkdir (dirname destPath)]) (console w))).
  split; [|reflexivity].
  unfold mbind at 1, M_bind, fs_copyFile, writing, copy_file. cbn [root clock].
  by rewrite He.
Qed.

Lemma copyFile_fails_after_mkdir_witness :
  exists e w',
    copyFile [str "src"; str "gone"] [str "dst"; str "sub"; str "gone"] Samples.fresh
    = (Err e, w') /\
    root w' = root (fs_mkdir_recursive [str "dst"; str "sub"] Samples.fresh).2.
Proof.
  apply (copyFile_fails_after_mkdir [str "src"; str "gone"]
           [str "dst"; str "sub"; str "gone"] Samples.fresh
           (root (fs_mkdir_recursive [str "dst"; str "sub"] Samples.fresh).2)).
  - intros c Hc. vm_compute in Hc. discriminate.
  - vm_compute. reflexivity.
Defined.

(** X7.  When neither root contains the other and [sync] returns, every
    regular file of the source that matches no copy exclusion and that
    the change detector reports as different has, at its place in the
    destination, a regular file with the same bytes and the same
    modification time (its access time is the one that the [stat] after
    the read reports for the source, which is the file system's
    business); and where the detector reports no difference, a file or
    other entry that stood in the destination stands there unchanged. *)
Theorem sync_mirrors self S D w r w' :
  apart S D -> sync self S D w = (Ok r, w') ->
  forall f tm data,
    resolve (S ++ f) (root w) = Ok (File tm data) -> ~ copy_excluded self f ->
    if Mirror.stale S D (root w) f
    then exists a, resolve (D ++ f) (root w') = Ok (File (Times (mtime tm) a) data)
    else forall d, resolve (D ++ f) (root w) = Ok d -> node_kind d <> KDir ->
           resolve (D ++ f) (root w') = Ok d.
Proof.
  intros Hap Hrun f tm data Hf Hnex. apply sync_staged in Hrun as [st Hst].
  destruct (MirrorFacts.staged_walks _ _ _ _ _ _ _ Hst)
    as (Hcr & Hr3 & _ & Hnd & _ & Hfound).
  assert (f ∈ sourceFiles st) as Hin.
  { apply (staged_source_files _ _ _ _ _ _ _ _ Hst). split; [|by exists tm, data].
    intros ->. rewrite app_nil_r in Hf.
    by destruct (source_root_dir _ _ _ _ _ _ _ Hst tm data). }
  assert (f <> []) as Hne by (by apply (found_source _ _ _ _ _ Hfound)).
  assert (agree (S ++ f) (root w) (root (after_mkdir st))) as Hags.
  { eapply creates_apart; [exact Hcr|].
    pose proof (apart_source_dest S D f [] Hap) as H. by rewrite app_nil_r in H. }
  assert (agree (D ++ f) (root w) (root (after_mkdir st))) as Hagd.
  { eapply creates_apart; [exact Hcr|]. intros [k Hk].
    rewrite <- (app_nil_r D) in Hk at 1. rewrite <- app_assoc in Hk.
    apply app_inv_head in Hk. by destruct f. }
  rewrite (MirrorFacts.stale_agree S D _ _ f Hags Hagd).
  pose proof Hst as (_ & _ & _ & Hcopy & _).
  eapply MirrorFacts.copy_loop_mirror in Hcopy as (_ & Hframe & Hmir);
    [|done|exact Hfound|done|done|intros; by rewrite Hr3|intros; by rewrite Hr3].
  assert (forall h, h ∈ destFiles st -> D ++ f = D ++ h ->
            h ∈ sourceFiles st \/ delete_excluded self h) as Hown.
  { intros h _ ->%app_inv_head. by left. }
  destruct (Mirror.stale S D (root (after_mkdir st)) f) eqn:Hstale.
  - exists (atime tm).
    eapply MirrorFacts.later_leaf; [exact Hst|done|exact Hown|].
    apply Hmir; [done|done|done|]. by apply Hags.
  - intros d Hd Hk. eapply MirrorFacts.later_leaf; [exact Hst|done|exact Hown|].
    apply (Hframe (D ++ f)).
    + intros g Hg _ Hsg. eapply MirrorFacts.distinct_files; [exact Hfound|done|done|].
      intros ->. congruence.
    + rewrite Hr3. by apply Hagd.
Qed.

Lemma sync_mirrors_witness :
  exists a,
    resolve [str "dst"; str "a.txt"]
      (root (sync Samples.excluding [str "src"] [str "dst"] Samples.guarded).2)
    = Ok (File (Times 5 a) (repeat Byte.x00 8)).
Proof.
  assert (apart [str "src"] [str "dst"]) as Hap by compute_done.
  assert (sync Samples.excluding [str "src"] [str "dst"] Samples.guarded
          = (Ok (Result 1 0 1),
             (sync Samples.excluding [str "src"] [str "dst"] Samples.guarded).2)) as Hrun
    by (vm_compute; reflexivity).
  assert (~ copy_excluded Samples.excluding [str "a.txt"]) as Hnex.
  { intros H. vm_compute in H. discriminate H. }
  pose proof (sync_mirrors Samples.excluding [str "src"] [str "dst"] Samples.guarded
                (Result 1 0 1) _ Hap Hrun [str "a.txt"] (Times 5 5)
                (repeat Byte.x00 8) eq_refl Hnex) as H.
  change (Mirror.stale [str "src"] [str "dst"] (root Samples.guarded) [str "a.txt"])
    with true in H.
  exact H.
Defined.

(** X8.  When neither root contains the other and [sync] returns, the
    three counters are those of the trees at the call: [skipped] is the
    number of regular files of the source that match a copy exclusion,
    [copied] the number of the others that the change detector reports as
    different, and [deleted] the number of regular files of the
    destination that are at no source file's path and match no delete
    exclusion. *)
Theorem sync_counts self S D w r w' :
  apart S D -> sync self S D w = (Ok r, w') ->
  exists sourceFiles destFiles,
    NoDup sourceFiles /\ NoDup destFiles /\
    (forall f, f ∈ sourceFiles <->
       f <> [] /\ exists tm d, resolve (S ++ f) (root w) = Ok (File tm d)) /\
    (forall h, h ∈ destFiles <->
       h <> [] /\ exists tm d, resolve (D ++ h) (root w) = Ok (File tm d)) /\
    skipped r = length (filter (copy_excluded self) sourceFiles) /\
    copied r = length (filter (fun f => ~ copy_excluded self f
                                        /\ Mirror.stale S D (root w) f = true) sourceFiles) /\
    deleted r = length (filter (fun h => (h ∉ sourceFiles) /\ ~ delete_excluded self h)
                               destFiles).
Proof.
  intros Hap Hrun. apply sync_staged in Hrun as [st Hst].
  destruct (MirrorFacts.staged_walks _ _ _ _ _ _ _ Hst)
    as (Hcr & Hr3 & (tmD & lD & esD & HD) & Hnd1 & Hnd2 & Hfound).
  pose proof Hst as (_ & _ & _ & Hcopy & Hdel & _).
  assert (forall f, f <> [] -> agree (D ++ f) (root w) (root (after_mkdir st))) as Hagd.
  { intros f Hne. eapply creates_apart; [exact Hcr|]. intros [k Hk].
    rewrite <- (app_nil_r D) in Hk at 1. rewrite <- app_assoc in Hk.
    apply app_inv_head in Hk. by destruct f. }
  assert (forall f, agree (S ++ f) (root w) (root (after_mkdir st))) as Hags.
  { intros f. eapply creates_apart; [exact Hcr|].
    pose proof (apart_source_dest S D f [] Hap) as H. by rewrite app_nil_r in H. }
  exists (sourceFiles st), (destFiles st).
  split; [done|]. split; [done|].
  split; [intros f; apply (staged_source_files _ _ _ _ _ _ _ _ Hst)|].
  split.
  { intros h. rewrite (found_dest _ _ _ _ _ Hfound h). split.
    - intros (Hne & tm & d & Hh). split; [done|]. exists tm, d. by apply (Hagd h Hne).
    - intros (Hne & tm & d & Hh). split; [done|]. exists tm, d. by apply (Hagd h Hne). }
  pose proof (copy_loop_counts _ _ _ _ _ _ _ _ _ _ Hcopy) as (Hs & _).
  split; [done|]. split.
  - eapply MirrorFacts.copy_loop_mirror in Hcopy as (Hc & _);
      [|done|exact Hfound|done|done|intros; by rewrite Hr3|intros; by rewrite Hr3].
    rewrite Hc, Nat.add_0_l. f_equal. apply MirrorFacts.filter_ext_in.
    intros f Hf. assert (f <> []) as Hne by (by apply (found_source _ _ _ _ _ Hfound)).
    by rewrite (MirrorFacts.stale_agree S D _ _ f (Hags f) (Hagd f Hne)).
  - pose proof (MirrorFacts.delete_loop_patterns _ _ _ _ _ _ _ _ Hdel) as Hpat.
    apply delete_loop_counts in Hdel as ->. rewrite Nat.add_0_l. f_equal.
    apply MirrorFacts.filter_ext_in. intros h Hh. unfold deletable.
    rewrite elem_of_list_to_set. split.
    + intros [Hn Hp]. split; [done|]. unfold delete_excluded. congruence.
    + intros [Hn Hp]. split; [done|].
      destruct (Hpat h Hh) as [Hin|[?|?]]; [|done|done].
      by apply elem_of_list_to_set in Hin.
Qed.

Lemma sync_counts_witness :
  exists sourceFiles destFiles,
    NoDup sourceFiles /\ NoDup destFiles /\
    (forall f, f ∈ sourceFiles <->
       f <> [] /\ exists tm d,
         resolve ([str "src"] ++ f) (root Samples.guarded) = Ok (File tm d)) /\
    (forall h, h ∈ destFiles <->
       h <> [] /\ exists tm d,
         resolve ([str "dst"] ++ h) (root Samples.guarded) = Ok (File tm d)) /\
    1 = length (filter (copy_excluded Samples.excluding) sourceFiles) /\
    1 = length (filter (fun f => ~ copy_excluded Samples.excluding f
                  /\ Mirror.stale [str "src"] [str "dst"] (root Samples.guarded) f = true)
                       sourceFiles) /\
    0 = length (filter (fun h => (h ∉ sourceFiles)
                                 /\ ~ delete_excluded Samples.excluding h) destFiles).
Proof.
  apply (sync_counts Samples.excluding [str "src"] [str "dst"] Samples.guarded
           (Result 1 0 1)
           (sync Samples.excluding [str "src"] [str "dst"] Samples.guarded).2).
  - compute_done.
  - vm_compute. reflexivity.
Defined.

(** X9.  When [sync] returns, a regular file of the destination that is
    at no source file's path and matches no delete exclusion is gone, and
    every regular file that stands in the destination is at the path of
    a regular file of the source or matches a delete exclusion. *)
Theorem sync_prunes self S D w r w' :
  sync self S D w = (Ok r, w') ->
  (forall h tm d, resolve (D ++ h) (root w) = Ok (File tm d) ->
     (forall tm' d', resolve (S ++ h) (root w) <> Ok (File tm' d')) ->
     ~ delete_excluded self h ->
     ChangeSpec.not_statable (D ++ h) (root w')) /\
  (forall h tm d, resolve (D ++ h) (root w') = Ok (File tm d) ->
     (exists tm' d', resolve (S ++ h) (root w) = Ok (File tm' d'))
     \/ delete_excluded self h).
Proof.
  intros Hrun. apply sync_staged in Hrun as [st Hst].
  destruct (MirrorFacts.staged_walks _ _ _ _ _ _ _ Hst)
    as (Hcr & Hr3 & (tmD & lD & esD & HD) & _ & _ & Hfound).
  pose proof Hst as (_ & _ & _ & Hcopy & Hdel & Hclean & ->).
  apply cleanup_ok in Hclean as (dirs & w3 & Hdirs & Hloop).
  pose proof (walking_root walk_dirs D D (after_delete st)) as Hr5.
  unfold getDirectoriesRecursively in Hdirs. rewrite Hdirs in Hr5. cbn [snd] in Hr5.
  assert (forall h tm d, resolve (D ++ h) (root (after_mkdir st)) = Ok (File tm d) ->
            h ∈ destFiles st) as Hdest.
  { intros h tm d Hh. apply (found_dest _ _ _ _ _ Hfound). split; [|by exists tm, d].
    intros ->. rewrite app_nil_r in Hh. congruence. }
  split.
  - intros h tm d Hh Hno Hex. rewrite log_root.
    apply (creates_leaf _ _ _ (D ++ h) (File tm d) Hcr) in Hh; [|done].
    assert (h ∉ sourceFiles st) as Hnin.
    { intros (_ & tm' & d' & Hs)%(staged_source_files _ _ _ _ _ _ _ _ Hst).
      by destruct (Hno tm' d'). }
    eapply PruneFacts.cleanup_loop_absent; [exact Hloop|]. rewrite Hr5.
    eapply (PruneFacts.delete_loop_gone self D _ _ _ _ _ _ h (File tm d));
      [exact Hdel|by rewrite elem_of_list_to_set|done|done|].
    left. split; [|by eapply Hdest].
    eapply copy_loop_leaf; [exact Hcopy|done| |by rewrite Hr3].
    intros g Hg. left. intros ->%app_inv_head. done.
  - intros h tm d Hh. rewrite log_root in Hh.
    eapply PruneFacts.cleanup_loop_back in Hh; [|exact Hloop|done]. rewrite Hr5 in Hh.
    eapply PruneFacts.delete_loop_back in Hh as [Hh Hdl]; [|exact Hdel|done].
    assert (h ∈ sourceFiles st ->
            exists tm' d', resolve (S ++ h) (root w) = Ok (File tm' d')) as Hsrc.
    { by intros (_ & Hs)%(staged_source_files _ _ _ _ _ _ _ _ Hst). }
    eapply PruneFacts.copy_loop_back in Hh as [(g & Hg & ->%app_inv_head)|Hh];
      [left; by apply Hsrc| |exact Hcopy|done].
    rewrite Hr3 in Hh.
    destruct (Hdl h (Hdest h tm d Hh) eq_refl) as [Hin|?]; [left|by right].
    apply Hsrc. by apply elem_of_list_to_set in Hin.
Qed.

Lemma sync_prunes_witness :
  ChangeSpec.not_statable [str "dst"; str "c"; str "keep.json"]
    (root (sync Samples.quiet [str "src"] [str "dst"] Samples.stale).2).
Proof.
  assert (sync Samples.quiet [str "src"] [str "dst"] Samples.stale
          = (Ok (Result 0 1 0),
             (sync Samples.quiet [str "src"] [str "dst"] Samples.stale).2)) as Hrun
    by (vm_compute; reflexivity).
  destruct (sync_prunes Samples.quiet [str "src"] [str "dst"] Samples.stale _ _ Hrun)
    as [Hgone _].
  apply (Hgone [str "c"; str "keep.json"] (Times 1 1) (repeat Byte.x00 1)).
  - reflexivity.
  - intros tm' d' H. vm_compute in H. discriminate H.
  - intros H. vm_compute in H. discriminate H.
Defined.

(** X10.  When [sync] returns, the destination root is a directory,
    whether it was there before the call or not. *)
Theorem sync_leaves_destination_directory self S D w r w' :
  sync self S D w = (Ok r, w') ->
  exists tm l es, resolve D (root w') = Ok (Dir tm l es).
Proof.
  intros Hrun. apply sync_staged in Hrun as [st Hst].
  destruct (MirrorFacts.staged_walks _ _ _ _ _ _ _ Hst)
    as (_ & Hr3 & HD & _ & _ & Hfound).
  pose proof Hst as (_ & _ & _ & Hcopy & Hdel & Hclean & ->). rewrite log_root.
  apply cleanup_ok in Hclean as (dirs & w3 & Hdirs & Hloop).
  assert (forall rel : path, rel <> [] -> D <> D ++ rel) as Hbelow.
  { intros rel Hne Heq. rewrite <- (app_nil_r D) in Heq at 1.
    apply app_inv_head in Heq. done. }
  assert (Prune.is_dir D (root (after_delete st))) as H5.
  { eapply PruneFacts.delete_loop_dir; [exact Hdel|].
    eapply PruneFacts.copy_loop_dir; [exact Hcopy| |by rewrite Hr3].
    intros g Hg. apply Hbelow. by apply (found_source _ _ _ _ _ Hfound). }
  destruct H5 as (tm5 & l5 & es5 & H5).
  apply (getDirs_found _ _ _ _ _ H5) in Hdirs as (Hr5 & Hne).
  eapply PruneFacts.cleanup_loop_dir; [exact Hloop| |rewrite Hr5; by eexists _, _, _].
  intros rel Hrel. apply Hbelow, Hne. by rewrite <- (sort_perm by_depth dirs).
Qed.

Lemma sync_leaves_destination_directory_witness :
  exists tm l es,
    resolve [str "out"; str "dst"]
      (root (sync Samples.quiet [str "src"] [str "out"; str "dst"] Samples.fresh).2)
    = Ok (Dir tm l es).
Proof.
  apply (sync_leaves_destination_directory Samples.quiet [str "src"] [str "out"; str "dst"]
           Samples.fresh (Result 3 0 0)).
  vm_compute. reflexivity.
Defined.

(** X11.  The patterns are tried in order, each compiled when its turn
    comes: the first pattern that matches or that throws decides the
    result, whatever follows it, and when every pattern returns [false]
    the result is [false]. *)
Theorem matchesPattern_first_decides filePath :
  (forall ps, (forall p, p ∈ ps -> matchesPattern filePath (Some [p]) = Ok false) ->
     matchesPattern filePath (Some ps) = Ok false) /\
  (forall ps1 p ps2,
     (forall p', p' ∈ ps1 -> matchesPattern filePath (Some [p']) = Ok false) ->
     matchesPattern filePath (Some [p]) <> Ok false ->
     matchesPattern filePath (Some (ps1 ++ p :: ps2)) = matchesPattern filePath (Some [p])).
Proof.
  split.
  - intros ps H. rewrite MatchFacts.matchesPattern_some.
    induction ps as [|p ps IH]; [done|]. cbn [some].
    rewrite <- MatchFacts.matchesPattern_single, (H p) by by left. cbn.
    apply IH. intros; apply H; by right.
  - intros ps1 p ps2 H Hp. rewrite MatchFacts.matchesPattern_some.
    induction ps1 as [|q ps1 IH]; cbn [some app].
    + rewrite MatchFacts.matchesPattern_single in Hp |- *.
      by destruct (matchesOne _ _ p) as [[]|].
    + rewrite <- MatchFacts.matchesPattern_single, (H q) by by left. cbn.
      apply IH. intros; apply H; by right.
Qed.

(** X12.  A pattern without a separator sees the last segment of the
    path only: a file name matches a list of such patterns in a
    directory exactly when it does at the top. *)
Theorem matchesPattern_any_directory dir name ps :
  Forall (fun p => includes slash p = false) ps -> slash ∉ name -> name <> [] ->
  matchesPattern (dir ++ slash :: name) (Some ps) = matchesPattern name (Some ps).
Proof.
  intros Hps Hname Hne. rewrite !MatchFacts.matchesPattern_some.
  apply MatchFacts.some_ext. intros p Hp.
  rewrite Forall_forall in Hps. unfold matchesOne. rewrite (Hps p Hp).
  by rewrite MatchFacts.basename_below, MatchFacts.basename_segment.
Qed.

Lemma matchesPattern_any_directory_witness :
  matchesPattern (str "a/b" ++ slash :: str "x.log") (Some [str "*.log"; str "x.(log"])
  = matchesPattern (str "x.log") (Some [str "*.log"; str "x.(log"]).
Proof.
  apply (matchesPattern_any_directory (str "a/b") (str "x.log")
           [str "*.log"; str "x.(log"]).
  - repeat constructor.
  - compute_done.
  - discriminate.
Defined.

(** X13.  Matching ignores the case of the path: for patterns without a
    backslash or a RegExp operator character, two paths that differ in
    the case of their letters only have the same result. *)
Theorem matchesPattern_ignores_case filePath filePath' patterns :
  plain_patterns patterns -> Case.same_case filePath filePath' ->
  matchesPattern filePath patterns = matchesPattern filePath' patterns.
Proof.
  intros Hplain Hcase. destruct patterns as [ps|]; [|done].
  rewrite !MatchFacts.matchesPattern_some. apply MatchFacts.some_ext. intros p Hp.
  unfold plain_patterns in Hplain. cbn [default] in Hplain.
  rewrite Forall_forall in Hplain. specialize (Hplain p Hp).
  destruct (matchesOne_plain (basename filePath)
              (replaceAll backslash [slash] filePath) p Hplain) as (b & -> & Hb).
  destruct (matchesOne_plain (basename filePath')
              (replaceAll backslash [slash] filePath') p Hplain) as (b' & -> & Hb').
  f_equal. apply eq_true_iff_eq. rewrite Hb, Hb'.
  assert (Case.same_case
            (if includes slash p then replaceAll backslash [slash] filePath
             else basename filePath)
            (if includes slash p then replaceAll backslash [slash] filePath'
             else basename filePath')) as H.
  { destruct (includes slash p);
      [by apply MatchFacts.same_case_normalize|by apply MatchFacts.same_case_basename]. }
  split; apply MatchFacts.glob_same_case; [done|by apply MatchFacts.same_case_sym].
Qed.

Lemma matchesPattern_ignores_case_witness :
  matchesPattern (str "Dir/A.LOG") (Some [str "*.log"; str "dir/?.*"])
  = matchesPattern (str "dir/a.log") (Some [str "*.log"; str "dir/?.*"]).
Proof.
  apply (matchesPattern_ignores_case (str "Dir/A.LOG") (str "dir/a.log")
           (Some [str "*.log"; str "dir/?.*"])).
  - compute_done.
  - repeat constructor.
Defined.

Import CLI.

(** X14.  The command line written for a source, a destination and
    options is read back as these options, whatever the patterns are
    (a pattern that looks like an option is taken as a pattern), and
    [main] runs [sync] with them on the two resolved paths: it writes the
    three counters when [sync] returns, and the error alone, with exit
    status 1, when it throws.  Only an argument equal to [--help] or
    [-h] is excluded: anywhere on the line it makes [main] print the
    usage instead. *)
Theorem main_runs_command_line path_resolve source destination options w :
  wants_help (command_line source destination options) = false ->
  main path_resolve (command_line source destination options) w
  = match sync (Build (cli_copyExclusions options) (cli_deleteExclusions options)
                      (cli_verbose options))
               (path_resolve source) (path_resolve destination) w with
    | (Ok result, w') =>
        (([Complete; FilesCopied (copied result); FilesDeleted (deleted result);
           FilesSkipped (skipped result)], Returned), w')
    | (Err error, w') => (([ErrorMessage error], Exit 1), w')
    end.
Proof.
  intros Hhelp. unfold main.
  rewrite (CLIFacts.no_help_length _ Hhelp source destination _ eq_refl).
  unfold command_line. rewrite CLIFacts.parse_command_line.
  destruct options as [ces des []]; cbn [cli_verbose cli_copyExclusions cli_deleteExclusions
    parse_options is_verbose_flag]; reflexivity.
Qed.

Lemma main_runs_command_line_witness :
  main (fun s => [s]) [str "src"; str "dst"; str "--copy-exclude"; str "--verbose";
                       str "--delete-exclude"; str "*.json"] Samples.guarded
  = (([Complete; FilesCopied 2; FilesDeleted 0; FilesSkipped 0], Returned),
     (sync (Build [str "--verbose"] [str "*.json"] false) [str "src"] [str "dst"]
        Samples.guarded).2).
Proof.
  etrans.
  - apply (main_runs_command_line (fun s => [s]) (str "src") (str "dst")
             (CliOptions [str "--verbose"] [str "*.json"] false) Samples.guarded).
    vm_compute. reflexivity.
  - vm_compute. reflexivity.
Defined.

(** X15.  After options that are read, the first argument that is not
    an option ends [main]: it reports the argument as unknown, prints
    the usage and exits with status 1, and nothing is synchronised,
    whatever follows.  [--copy-exclude] and [--delete-exclude] in the
    last position, with no value after them, are reported in this way
    too. *)
Theorem main_unknown_option path_resolve source destination options arg tail w :
  wants_help (command_line source destination options ++ arg :: tail) = false ->
  is_verbose_flag arg = false ->
  (arg = str "--copy-exclude" \/ arg = str "--delete-exclude" -> tail = []) ->
  main path_resolve (command_line source destination options ++ arg :: tail) w
  = (([UnknownOption arg; Usage], Exit 1), w).
Proof.
  intros Hhelp Hv Hlast. unfold main, command_line in *. cbn [app] in *.
  rewrite (CLIFacts.no_help_length _ Hhelp source destination _ eq_refl).
  rewrite <- !app_assoc, CLIFacts.parse_command_line.
  destruct options as [ces des []]; cbn [cli_verbose cli_copyExclusions cli_deleteExclusions app].
  - change (parse_options (str "--verbose" :: arg :: tail) (CliOptions ces des false))
      with (parse_options (arg :: tail) (CliOptions ces des true)).
    by rewrite CLIFacts.parse_unknown.
  - by rewrite CLIFacts.parse_unknown.
Qed.

Lemma main_unknown_option_witness :
  main (fun s => [s]) [str "src"; str "dst"; str "--verbose"; str "--copy-exclude"]
    Samples.guarded
  = (([UnknownOption (str "--copy-exclude"); Usage], Exit 1), Samples.guarded).
Proof.
  apply (main_unknown_option (fun s => [s]) (str "src") (str "dst")
           (CliOptions [] [] true) (str "--copy-exclude") [] Samples.guarded).
  - vm_compute. reflexivity.
  - vm_compute. reflexivity.
  - reflexivity.
Defined.

(** X16.  When [cleanupEmptyDirectories] returns, every empty directory
    that is left strictly below the destination root has a counterpart
    in the source: directories that are empty, or that hold only such
    directories, and that the source does not have are all removed,
    children before their parents. *)
Theorem cleanup_leaves_no_empty_directory self D S w w' :
  cleanupEmptyDirectories self D S w = (Ok tt, w') ->
  forall rel tm l, rel <> [] ->
    resolve (D ++ rel) (root w') = Ok (Dir tm l ∅) ->
    exists c, resolve (S ++ rel) (root w) = Ok c.
Proof.
  intros H rel tm l Hne Hend. apply cleanup_ok in H as (dirs & w1 & Hdirs & Hloop).
  destruct (SweepFacts.cleanup_loop_dir_back self S D _ _ _ _ _ _ _ Hloop Hend)
    as (tm0 & es0 & H1).
  destruct (resolve D (root w)) as [n|e] eqn:HD.
  2:{ pose proof (walking_root walk_dirs D D w) as Hr.
      unfold getDirectoriesRecursively in Hdirs. rewrite Hdirs in Hr. cbn [snd] in Hr.
      rewrite Hr, resolve_app, HD in H1. done. }
  rewrite getDirs_gen in Hdirs.
  destruct (walking_found emit_dirs D w dirs w1 n HD Hdirs) as (Hr & _ & Hlist & Hmem).
  rewrite Hr in H1.
  assert (l = true) as ->.
  { rewrite resolve_app, HD in H1. by eapply Hlist. }
  rewrite <- Hr.
  eapply (SweepFacts.cleanup_loop_no_empty self S D);
    [exact Hloop|apply sort_sorted| |done|exact Hend].
  rewrite (sort_perm by_depth dirs). apply Hmem.
  exists rel, (Dir tm0 true es0). split; [done|]. split; [done|]. by left.
Qed.

Lemma cleanup_leaves_no_empty_directory_witness :
  (getDirectoriesRecursively [str "dst"] [str "dst"]
     (cleanupEmptyDirectories Samples.quiet [str "dst"] [str "src"] MoreSamples.hollow).2).1
  = Ok [[str "e"]]
  /\ exists c, resolve ([str "src"] ++ [str "e"]) (root MoreSamples.hollow) = Ok c.
Proof.
  split; [vm_compute; reflexivity|].
  apply (cleanup_leaves_no_empty_directory Samples.quiet [str "dst"] [str "src"]
           MoreSamples.hollow
           (cleanupEmptyDirectories Samples.quiet [str "dst"] [str "src"] MoreSamples.hollow).2
           ltac:(vm_compute; reflexivity) [str "e"] (Times 0 0) true);
    [discriminate|vm_compute; reflexivity].
Defined.

(** X17.  Whatever its outcome, [cleanupEmptyDirectories] removes
    nothing but directories and makes nothing: the regular files of the
    tree are the same before and after, and a directory that stands
    after stood before. *)
Theorem cleanup_keeps_files self D S w :
  (forall q tm d,
     resolve q (root w) = Ok (File tm d)
     <-> resolve q (root (cleanupEmptyDirectories self D S w).2) = Ok (File tm d)) /\
  (forall q tm l es,
     resolve q (root (cleanupEmptyDirectories self D S w).2) = Ok (Dir tm l es) ->
     exists tm0 es0, resolve q (root w) = Ok (Dir tm0 l es0)).
Proof.
  pose proof (walking_root walk_dirs D D w) as Hr.
  destruct (cleanupEmptyDirectories self D S w) as [[[]|e] w'] eqn:Hrun; cbn [snd].
  - apply cleanup_ok in Hrun as (dirs & w1 & Hdirs & Hloop).
    unfold getDirectoriesRecursively in Hdirs. rewrite Hdirs in Hr. cbn [snd] in Hr.
    rewrite <- Hr. split.
    + intros q tm d. split.
      * by apply (cleanup_loop_leaf self D S _ _ _ q (File tm d) Hloop).
      * by apply (PruneFacts.cleanup_loop_back self S D _ _ _ q (File tm d) Hloop).
    + intros q tm l es. by apply (SweepFacts.cleanup_loop_dir_back self S D _ _ _ _ _ _ _ Hloop).
  - unfold cleanupEmptyDirectories in Hrun. unfold getDirectoriesRecursively in Hrun.
    destruct (walking walk_dirs D D w) as [[dirs|e'] w1] eqn:Hwalk; cbn [snd] in Hr.
    + erewrite bind_run in Hrun by exact Hwalk.
      destruct (for_of_total (sort by_depth dirs) (cleanupDirectory self D S) w1)
        as [w2 Hloop].
      { intros rel w0. destruct (cleanupDirectory_spec self D S rel w0) as (w3 & -> & _).
        by eexists. }
      rewrite Hloop in Hrun. done.
    + erewrite bind_err in Hrun by exact Hwalk. injection Hrun as _ <-. rewrite Hr.
      split; [done|]. intros q tm l es Hq. by eexists _, _.
Qed.

(** X18.  An exclusion pattern that is not a regular expression makes
    [sync] throw as soon as it is reached.  So, when [sync] returns
    although the copy exclusions hold such a pattern, every regular file
    of the source matches a pattern before it; and when the delete
    exclusions hold one, every regular file of the destination that is at
    no source file's path matches a pattern before it. *)
Theorem sync_invalid_pattern self S D w r w' ps1 bad ps2 e :
  RegExp.new (regexSource bad) = Err e ->
  sync self S D w = (Ok r, w') ->
  (copyExclusions self = ps1 ++ bad :: ps2 ->
   forall f tm d, resolve (S ++ f) (root w) = Ok (File tm d) ->
     exists p, p ∈ ps1 /\ matchesPattern (rel_string f) (Some [p]) = Ok true) /\
  (deleteExclusions self = ps1 ++ bad :: ps2 ->
   forall h tm d, resolve (D ++ h) (root w) = Ok (File tm d) ->
     (forall tm' d', resolve (S ++ h) (root w) <> Ok (File tm' d')) ->
     exists p, p ∈ ps1 /\ matchesPattern (rel_string h) (Some [p]) = Ok true).
Proof.
  intros Hbad Hrun. apply sync_staged in Hrun as [st Hst].
  pose proof Hst as (_ & _ & _ & Hcopy & Hdel & _).
  split.
  - intros Hces f tm d Hf.
    assert (f ∈ sourceFiles st) as Hin.
    { apply (staged_source_files _ _ _ _ _ _ _ _ Hst). split; [|by exists tm, d].
      intros ->. rewrite app_nil_r in Hf.
      by destruct (source_root_dir _ _ _ _ _ _ _ Hst tm d). }
    destruct (copy_loop_patterns _ _ _ _ _ _ _ _ Hcopy f Hin) as [H|H];
      unfold copy_excluded in H; rewrite Hces in H;
      by eapply InvalidFacts.matchesPattern_before.
  - intros Hdes h tm d Hh Hno.
    destruct (MirrorFacts.staged_walks _ _ _ _ _ _ _ Hst)
      as (Hcr & _ & (tmD & lD & esD & HD) & _ & _ & Hfound).
    apply (creates_leaf _ _ _ (D ++ h) (File tm d) Hcr) in Hh; [|done].
    assert (h ∈ destFiles st) as Hin.
    { apply (found_dest _ _ _ _ _ Hfound). split; [|by exists tm, d].
      intros ->. rewrite app_nil_r in Hh. congruence. }
    destruct (MirrorFacts.delete_loop_patterns _ _ _ _ _ _ _ _ Hdel h Hin) as [H|[H|H]].
    + apply elem_of_list_to_set in H.
      apply (staged_source_files _ _ _ _ _ _ _ _ Hst) in H as (_ & tm' & d' & H).
      by destruct (Hno tm' d').
    + unfold delete_excluded in H. rewrite Hdes in H.
      by eapply InvalidFacts.matchesPattern_before.
    + rewrite Hdes in H. by eapply InvalidFacts.matchesPattern_before.
Qed.

Lemma sync_invalid_pattern_witness :
  exists p, p ∈ [str "*.txt"; str "*.log"]
            /\ matchesPattern (rel_string [str "x.log"]) (Some [p]) = Ok true.
Proof.
  eapply (proj1 (sync_invalid_pattern (Build [str "*.txt"; str "*.log"; str "("] [] false)
           [str "src"] [str "dst"] Samples.guarded (Result 0 1 2)
           (sync (Build [str "*.txt"; str "*.log"; str "("] [] false)
                 [str "src"] [str "dst"] Samples.guarded).2
           [str "*.txt"; str "*.log"] (str "(") [] RegExpSyntaxError
           ltac:(vm_compute; reflexivity) ltac:(vm_compute; reflexivity))
           eq_refl [str "x.log"]).
  vm_compute. reflexivity.
Defined.

(** X19.  The verbose log accounts for the counters.  When [sync] of a
    verbose instance returns, it has written [Syncing] first and [Sync
    complete], with the three counters it returns, last; and between
    them one [Copied] line for every file counted as copied, one
    [Skipping copy] line for every file counted as skipped and one
    [Deleted] line for every file counted as deleted. *)
Theorem sync_log_accounts self S D w r w' :
  verbose self = true -> sync self S D w = (Ok r, w') ->
  exists lines,
    console w' = console w ++ Syncing S D :: lines
                   ++ [SyncComplete (copied r) (deleted r) (skipped r)]
    /\ Log.tally lines = r.
Proof.
  intros Hv Hrun. apply sync_staged in Hrun as [st Hst].
  destruct Hst as (_ & Hmk & (w2 & Hsf & Hdf) & Hcopy & Hdel & Hclean & ->).
  apply (LogFacts.copy_loop_log self S D Hv) in Hcopy as (ms1 & Hw1 & Hc & Hs & Hd1).
  apply (LogFacts.delete_loop_log self S D Hv) in Hdel as (ms2 & Hw2 & Hd & Hc2 & Hs2).
  pose proof (LogFacts.cleanup_log self D S (after_delete st)) as (ms3 & Hw3 & T3).
  rewrite Hclean in Hw3. cbn [snd] in Hw3.
  pose proof (PreserveFacts.writing_same_console (Mkdir D) (fun now => mkdirp now D)
                (called (Access S) (logged self (Syncing S D) w))) as Hk0.
  unfold fs_mkdir_recursive in Hmk. rewrite Hmk in Hk0. cbn [snd] in Hk0.
  pose proof (LogFacts.walking_console walk_files S S (after_mkdir st)) as Hk1.
  unfold getFilesRecursively in Hsf, Hdf. rewrite Hsf in Hk1. cbn [snd] in Hk1.
  pose proof (LogFacts.walking_console walk_files D D w2) as Hk2.
  rewrite Hdf in Hk2. cbn [snd] in Hk2.
  exists (ms1 ++ ms2 ++ ms3). split.
  - unfold Log.wrote, Preserve.same_console in *. cbn [console logged called] in *.
    rewrite Hv in *. rewrite Hw3, Hw2, Hw1, Hk2, Hk1, Hk0.
    rewrite <- !app_assoc. reflexivity.
  - injection T3 as Tc Td Ts. destruct r as [c d s]. cbn [copied deleted skipped] in *.
    unfold Log.tally. rewrite !LogFacts.count_app. f_equal; lia.
Qed.

Lemma sync_log_accounts_witness :
  exists lines,
    console (sync (Build [str "*.log"] [str "*.json"] true) [str "src"] [str "dst"]
               Samples.guarded).2
    = console Samples.guarded ++ Syncing [str "src"] [str "dst"] :: lines
        ++ [SyncComplete 1 0 1]
    /\ Log.tally lines = Result 1 0 1.
Proof.
  apply (sync_log_accounts (Build [str "*.log"] [str "*.json"] true) [str "src"] [str "dst"]
           Samples.guarded (Result 1 0 1)).
  - reflexivity.
  - vm_compute. reflexivity.
Defined.

(** X20 (src/index.js:140-213, sync; 220-246, cleanupEmptyDirectories).
    A second run changes nothing in the file system.  When neither root
    lies strictly inside the other, no source file meets a destination
    directory of its name, and a run returns, the same run started from the
    world it left returns again and leaves the whole tree as it found it:
    no file is rewritten, none deleted, no directory removed. *)
Theorem sync_again_same_tree self S D w r w' :
  ~ strict_prefix S D -> ~ strict_prefix D S ->
  (forall f tm d, resolve (S ++ f) (root w) = Ok (File tm d) ->
     forall tm' l es, resolve (D ++ f) (root w) <> Ok (Dir tm' l es)) ->
  sync self S D w = (Ok r, w') ->
  exists r2 w'', sync self S D w' = (Ok r2, w'') /\ root w'' = root w'.
Proof.
  intros HSD HDS Hnodir Hrun. apply sync_staged in Hrun as [st Hst].
  destruct (run_outcome _ _ _ _ _ _ _ HSD HDS Hnodir Hst)
    as (t1 & nS & Hfound & Hkept & HS & Hwalk & Ht1 & Hcopy & Hdel).
  assert (S = D \/ apart S D) as Hsd.
  { destruct (decide (S = D)) as [|Hne]; [by left|right]. split.
    - intros [k ->]. apply HSD. exists k. split; [|done]. intros ->.
      by rewrite app_nil_r in Hne.
    - intros [k ->]. apply HDS. exists k. split; [|done]. intros ->.
      by rewrite app_nil_r in Hne. }
  set (wa := called (Access S) (logged self (Syncing S D) w')).
  destruct (kept_dest_dir _ _ _ _ _ _ Hkept) as (tmD & lD & esD & HD).
  assert (resolve S (root w') = Ok nS) as HS'.
  { pose proof (kept_source _ _ _ _ _ _ Hkept []) as Ha. rewrite app_nil_r in Ha.
    by apply Ha. }
  set (wb := World (root w') (clock wa + 1) (trace wa ++ [Mkdir D]) (console wa)).
  assert (fs_mkdir_recursive D wa = (Ok tt, wb)) as Hmk.
  { unfold fs_mkdir_recursive, writing. cbn [root clock wa called logged].
    by rewrite (mkdirp_existing _ _ _ _ _ _ HD). }
  assert (exists wc, getFilesRecursively S S wb = (Ok (sourceFiles st), wc)
                     /\ root wc = root w') as (wc & Hsf & Hrc).
  { destruct (getFilesRecursively S S wb) as [rs wc] eqn:E. exists wc. split.
    - f_equal. rewrite <- Hwalk. change rs with (rs, wc).1. rewrite <- E.
      apply walking_fst. cbn [root wb]. by rewrite Ht1, HS, HS'.
    - pose proof (walking_root walk_files S S wb) as Hr.
      unfold getFilesRecursively in E. by rewrite E in Hr. }
  assert (listable_below (Dir tmD lD esD)) as Hlist.
  { apply (listable_under D (root w') _ HD). apply (kept_listable _ _ _ _ _ _ Hkept). }
  rewrite <- Hrc in HD.
  destruct (walking_run emit_files D wc _ HD eq_refl Hlist) as (df2 & wd & Hdf & Hrd).
  rewrite <- getFiles_gen in Hdf.
  pose proof Hdf as Hdf'.
  apply (getFiles_found _ _ _ _ _ HD) in Hdf' as (_ & _ & _ & Hdfm).
  destruct (copy_loop_again self S D (sourceFiles st) 0 0 wd) as (we & Hloop1 & Hre).
  { intros f Hf. rewrite Hrd, Hrc. by apply Hcopy. }
  destruct (delete_loop_again self D (sourceFiles st) df2 0 we) as (wf & Hloop2 & Hrf).
  { intros h Hh. apply Hdfm in Hh as (_ & tm & d & Hh). rewrite Hrc in Hh.
    by eapply Hdel. }
  assert (root wf = root w') as Hrw by congruence.
  assert (resolve D (root wf) = Ok (Dir tmD lD esD)) as HDf by congruence.
  destruct (walking_run emit_dirs D wf _ HDf eq_refl Hlist) as (dirs & wg & Hdirs & Hrg).
  destruct (walking_found emit_dirs D wf dirs wg _ HDf Hdirs) as (_ & _ & _ & Hmem).
  rewrite <- getDirs_gen in Hdirs.
  destruct (AgainFacts.cleanup_loop_idle self D S (sort by_depth dirs) wg)
    as (wh & Hclean & Hrh).
  { intros rel Hrel. rewrite (sort_perm by_depth dirs) in Hrel.
    apply Hmem in Hrel as (sub & c & Hsub & Hc & Hq). rewrite Hrg, Hrw.
    destruct (resolve (S ++ rel) (root w')) as [c'|e] eqn:Hs; [left; by exists c'|right].
    intros [tm Hd].
    destruct (AgainFacts.after_run_idle self S D w r w' st rel tm Hst Hsd Hd) as [c' Hc'];
      [|by rewrite Hc' in Hs].
    destruct (node_kind c); cbn in Hq; try (by apply elem_of_nil in Hq).
    by apply list_elem_of_singleton in Hq as ->. }
  exists (Result 0 0 (skipped r)), (logged self (SyncComplete 0 0 (skipped r)) wh). split.
  - destruct Hst as (_ & _ & _ & Hcount & _).
    apply copy_loop_counts in Hcount as (Hskipped & _).
    apply sync_staged.
    exists (Stages wb (sourceFiles st) df2 wd we wf wh). unfold staged.
    cbn [after_mkdir sourceFiles destFiles after_walks after_copy after_delete
         after_cleanup copied deleted skipped].
    split; [by exists nS|]. split; [exact Hmk|]. split; [by exists wc|].
    split; [by rewrite Hloop1, Hskipped|]. split; [exact Hloop2|].
    split; [|reflexivity].
    unfold cleanupEmptyDirectories. erewrite bind_run by exact Hdirs. exact Hclean.
  - rewrite log_root. congruence.
Qed.

Lemma sync_again_same_tree_witness :
  (sync Samples.excluding [str "src"] [str "dst"] Samples.fresh).1 = Ok (Result 2 0 1) /\
  exists r2 w'',
    sync Samples.excluding [str "src"] [str "dst"]
         (sync Samples.excluding [str "src"] [str "dst"] Samples.fresh).2
    = (Ok r2, w'')
    /\ root w'' = root (sync Samples.excluding [str "src"] [str "dst"] Samples.fresh).2.
Proof.
  split; [vm_compute; reflexivity|].
  apply (sync_again_same_tree Samples.excluding [str "src"] [str "dst"] Samples.fresh
           (Result 2 0 1)).
  - intros (k & _ & H). vm_compute in H. discriminate.
  - intros (k & _ & H). vm_compute in H. discriminate.
  - intros f tm d Hs tm' l es Hd. rewrite resolve_app in Hd.
    assert (resolve [str "dst"] (root Samples.fresh) = Ok (Dir (Times 0 0) true ∅)) as Hdst
      by reflexivity.
    rewrite Hdst in Hd. destruct f as [|x f].
    + vm_compute in Hs. discriminate.
    + cbn in Hd. rewrite lookup_empty in Hd. discriminate.
  - vm_compute. reflexivity.
Defined.
